(** * Classical ciphers of [Security_Assignment.py]: a shallow embedding

    The Python module is a library of paired encrypt/decrypt functions over
    text.  Each function is embedded as a Rocq function of the same name,
    loop by loop.

    - A Python [str] is the list of its Unicode code points ([Z]); [ord] and
      [chr] are then the identity, and a one-character string is a
      character.
    - A Python exception is a [Raise] result; a function that cannot raise
      is a plain function.
    - [print] is recorded as the list of printed lines next to the returned
      value.
    - Integers are [Z]; [%] and [//] are [Z.modulo] and [Z.div], which round
      towards minus infinity as Python does, and raise on a zero divisor.
    - [random.Random(seed).shuffle] belongs to the Python library and is a
      parameter of the Disruptive cipher.

    The definitions come first, then the lemmas cipher by cipher, then the
    claims, then further properties of the code. *)

From Stdlib Require Import ZArith List Lia Bool Ascii Znumtheory Permutation FinFun.
From Stdlib Require String.
Import ListNotations String.StringSyntax.
Delimit Scope string_scope with string.
Bind Scope string_scope with String.string.
Open Scope Z_scope.

(** ** Python values *)

(** A character is its code point, a [str] the list of its characters. *)
Abbreviation char := Z (only parsing).
Abbreviation str := (list Z) (only parsing).

Definition ord (a : ascii) : char := Z.of_nat (nat_of_ascii a).

(** String literals of the source, as code points. *)
Definition lit (x : String.string) : str :=
  map ord (String.list_ascii_of_string x).

Definition len {A : Type} (l : list A) : Z := Z.of_nat (List.length l).

(** [OutOfFuel] is not a Python exception: it marks a [while] loop of the
    model that was cut short by its iteration bound. *)
Inductive exn : Type :=
| IndexError
| KeyError
| TypeError
| ZeroDivisionError
| OutOfFuel.

Inductive result (A : Type) : Type :=
| Ok (a : A)
| Raise (e : exn).
Arguments Ok {A} a.
Arguments Raise {A} e.

Definition bind {A B : Type} (m : result A) (k : A -> result B) : result B :=
  match m with
  | Ok a => k a
  | Raise e => Raise e
  end.

Declare Scope py_scope.
Delimit Scope py_scope with py.
Notation "x <- m ;; k" := (bind m (fun x => k))
  (at level 61, m at next level, right associativity) : py_scope.
Notation "' p <- m ;; k" := (bind m (fun x => let p := x in k))
  (at level 61, p pattern, m at next level, right associativity) : py_scope.
Open Scope py_scope.

(** [for x in l: s = body(s, x)], stopping at the first exception. *)
Fixpoint foldM {A S : Type} (body : S -> A -> result S) (l : list A) (s0 : S)
  : result S :=
  match l with
  | [] => Ok s0
  | x :: l' => s1 <- body s0 x ;; foldM body l' s1
  end.

(** [[f(x) for x in l]]. *)
Fixpoint mapM {A B : Type} (f : A -> result B) (l : list A) : result (list B) :=
  match l with
  | [] => Ok []
  | x :: l' => y <- f x ;; ys <- mapM f l' ;; Ok (y :: ys)
  end.

(** [range(a, b)], [range(a, b, -1)] and [range(a, b, 2)]. *)
Definition range (a b : Z) : list Z :=
  map (fun k => a + Z.of_nat k) (seq 0 (Z.to_nat (b - a))).

Definition range_down (a b : Z) : list Z :=
  map (fun k => a - Z.of_nat k) (seq 0 (Z.to_nat (a - b))).

Definition range2 (a b : Z) : list Z :=
  map (fun k => a + 2 * Z.of_nat k) (seq 0 (Z.to_nat ((b - a + 1) / 2))).

Definition enumerate {A : Type} (l : list A) : list (Z * A) :=
  combine (range 0 (len l)) l.

(** [l[i]]: a negative index counts from the end, an index outside
    [-len(l) .. len(l)-1] raises [IndexError]. *)
Definition norm_index {A : Type} (l : list A) (i : Z) : result nat :=
  if (0 <=? i) && (i <? len l) then Ok (Z.to_nat i)
  else if (- len l <=? i) && (i <? 0) then Ok (Z.to_nat (len l + i))
  else Raise IndexError.

Definition getitem {A : Type} (l : list A) (i : Z) : result A :=
  n <- norm_index l i ;;
  match nth_error l n with
  | Some x => Ok x
  | None => Raise IndexError
  end.

Fixpoint update {A : Type} (l : list A) (n : nat) (x : A) : list A :=
  match l, n with
  | [], _ => []
  | _ :: l', O => x :: l'
  | y :: l', S n' => y :: update l' n' x
  end.

(** [l[i] = x]. *)
Definition setitem {A : Type} (l : list A) (i : Z) (x : A) : result (list A) :=
  n <- norm_index l i ;; Ok (update l n x).

(** [m[r][c]] and [m[r][c] = x] on a list of rows (the rows of every matrix
    of the source are distinct list objects). *)
Definition mget {A : Type} (m : list (list A)) (r c : Z) : result A :=
  row <- getitem m r ;; getitem row c.

Definition mset {A : Type} (m : list (list A)) (r c : Z) (x : A)
  : result (list (list A)) :=
  row <- getitem m r ;; row' <- setitem row c x ;; setitem m r row'.

(** [s[a:b]]: negative bounds count from the end, then both are clamped. *)
Definition clamp (n i : Z) : Z :=
  Z.max 0 (Z.min n (if i <? 0 then i + n else i)).

Definition slice {A : Type} (l : list A) (a b : Z) : list A :=
  let a := clamp (len l) a in
  let b := clamp (len l) b in
  firstn (Z.to_nat (b - a)) (skipn (Z.to_nat a) l).

(** A [dict] with integer (or character) keys, in insertion order. *)
Definition dict (V : Type) := list (Z * V).

Fixpoint dict_get {V : Type} (d : dict V) (k : Z) : result V :=
  match d with
  | [] => Raise KeyError
  | (k', v) :: d' => if k =? k' then Ok v else dict_get d' k
  end.

Fixpoint dict_set {V : Type} (d : dict V) (k : Z) (v : V) : dict V :=
  match d with
  | [] => [(k, v)]
  | (k', v') :: d' =>
      if k =? k' then (k, v) :: d' else (k', v') :: dict_set d' k v
  end.

Definition keys {V : Type} (d : dict V) : list Z := map fst d.

(** [sorted(l)] with the order [leb]: a stable insertion sort. *)
Fixpoint insert_sorted {A : Type} (leb : A -> A -> bool) (x : A) (l : list A)
  : list A :=
  match l with
  | [] => [x]
  | y :: l' => if leb x y then x :: l else y :: insert_sorted leb x l'
  end.

Definition sorted {A : Type} (leb : A -> A -> bool) (l : list A) : list A :=
  fold_right (insert_sorted leb) [] l.

(** [a // m]. *)
Definition floordiv (a m : Z) : result Z :=
  if m =? 0 then Raise ZeroDivisionError else Ok (a / m).

Definition pymod (a m : Z) : result Z :=
  if m =? 0 then Raise ZeroDivisionError else Ok (a mod m).

(** [s.ljust(n, c)]. *)
Definition ljust (t : str) (n : Z) (c : char) : str :=
  t ++ repeat c (Z.to_nat (n - len t)).

(** [s.rstrip(c)] for a one-character [c]. *)
Fixpoint rstrip (t : str) (c : char) : str :=
  match t with
  | [] => []
  | x :: t' =>
      match rstrip t' c with
      | [] => if x =? c then [] else [x]
      | r => x :: r
      end
  end.

(** [s.replace(a, b)] for one-character [a] and [b]. *)
Definition replace (t : str) (a b : char) : str :=
  map (fun c => if c =? a then b else c) t.

(** [c in l]. *)
Definition mem (c : Z) (l : list Z) : bool := existsb (Z.eqb c) l.

(** [l.index(c)] where [c in l] holds. *)
Fixpoint index_of (c : Z) (l : list Z) : Z :=
  match l with
  | [] => 0
  | x :: l' => if c =? x then 0 else 1 + index_of c l'
  end.

(** Case mapping and [isalpha] of Python on the code points up to U+00FF
    (ASCII and Latin-1).  Beyond U+00FF the model takes a character for a
    caseless non-letter; every statement below that depends on case is about
    ASCII text. *)
Definition upper_char (c : char) : str :=
  if (97 <=? c) && (c <=? 122) then [c - 32]
  else if c =? 181 then [924]
  else if c =? 223 then [83; 83]
  else if (224 <=? c) && (c <=? 254) && negb (c =? 247) then [c - 32]
  else if c =? 255 then [376]
  else [c].

Definition upper (t : str) : str := flat_map upper_char t.

Definition lower_char (c : char) : char :=
  if (65 <=? c) && (c <=? 90) then c + 32
  else if (192 <=? c) && (c <=? 222) && negb (c =? 215) then c + 32
  else c.

Definition lower (t : str) : str := map lower_char t.

Definition isalpha (c : char) : bool :=
  ((65 <=? c) && (c <=? 90)) || ((97 <=? c) && (c <=? 122))
  || (c =? 170) || (c =? 181) || (c =? 186)
  || ((192 <=? c) && (c <=? 214)) || ((216 <=? c) && (c <=? 246))
  || ((248 <=? c) && (c <=? 255)).

(** Lines written by [print], oldest first, next to the returned value. *)
Definition printed (A : Type) : Type := (list String.string * A)%type.

Definition is_ascii (t : str) : Prop := Forall (fun c => 0 <= c < 128) t.

(** ** Utility function *)

(** [mod_inv(a, m)]: the result [None] of the source is [Ok None]. *)
Definition mod_inv (a m : Z) : result (option Z) :=
  a <- pymod a m ;;
  Ok (find (fun x => (a * x) mod m =? 1) (range 1 m)).

(** ** Rail-Fence *)

(** [rail += direction; if rail == 0 or rail == num_rails - 1: direction *= -1] *)
Definition zigzag (num_rails : Z) (st : Z * Z) : Z * Z :=
  let '(rail, direction) := st in
  let rail := rail + direction in
  if (rail =? 0) || (rail =? num_rails - 1) then (rail, direction * -1)
  else (rail, direction).

Definition rail_fence_encrypt (plaintext : str) (num_rails : Z) : result str :=
  if num_rails <=? 1 then Ok plaintext else
  let rails := repeat ([] : str) (Z.to_nat num_rails) in
  '(rails, _) <-
    foldM (fun '(rails, (rail, direction)) char =>
             r <- getitem rails rail ;;
             rails <- setitem rails rail (r ++ [char]) ;;
             Ok (rails, zigzag num_rails (rail, direction)))
          plaintext (rails, (0, 1)) ;;
  Ok (concat rails).

Definition rail_fence_decrypt (ciphertext : str) (num_rails : Z) : result str :=
  if num_rails <=? 1 then Ok ciphertext else
  let '(pattern, _) :=
    fold_left (fun '(pattern, (rail, direction)) (_ : Z) =>
                 (pattern ++ [rail], zigzag num_rails (rail, direction)))
              (range 0 (len ciphertext)) ([], (0, 1)) in
  let rails : dict str := map (fun i => (i, [])) (range 0 num_rails) in
  '(rails, _) <-
    foldM (fun st rail_index =>
             foldM (fun '(rails, index) i =>
                      p <- getitem pattern i ;;
                      if p =? rail_index then
                        r <- dict_get rails rail_index ;;
                        c <- getitem ciphertext index ;;
                        Ok (dict_set rails rail_index (r ++ [c]), index + 1)
                      else Ok (rails, index))
                   (range 0 (len ciphertext)) st)
          (range 0 num_rails) (rails, 0) ;;
  let counter : dict Z := map (fun i => (i, 0)) (range 0 num_rails) in
  '(res, _) <-
    foldM (fun '(res, counter) r =>
             rl <- dict_get rails r ;;
             k <- dict_get counter r ;;
             c <- getitem rl k ;;
             Ok (res ++ [c], dict_set counter r (k + 1)))
          pattern ([], counter) ;;
  Ok res.

(** ** Route (spiral) *)

(** The padded grid: [for _ in range(rows): matrix.append([plaintext[index +
    j] for j in range(cols)]); index += cols]. *)
Definition build_matrix (plaintext : str) (rows cols : Z)
  : result (list (list char)) :=
  '(matrix, _) <-
    foldM (fun '(matrix, index) (_ : Z) =>
             row <- mapM (fun j => getitem plaintext (index + j)) (range 0 cols) ;;
             Ok (matrix ++ [row], index + cols))
          (range 0 rows) ([], 0) ;;
  Ok matrix.

Section Spiral.
Context {S : Type}.
(** What one lap does at the cell [(row, column)]: read it (encrypt) or
    write it (decrypt). *)
Variable visit : Z -> Z -> S -> result S.

(** The [while top <= bottom and left <= right] loop shared by
    [route_cipher_encrypt] and [route_cipher_decrypt]. *)
Fixpoint spiral (fuel : nat) (top bottom left right : Z) (s : S) : result S :=
  if (top <=? bottom) && (left <=? right) then
    match fuel with
    | O => Raise OutOfFuel
    | Datatypes.S fuel' =>
        s <- foldM (fun s i => visit top i s) (range left (right + 1)) s ;;
        let top := top + 1 in
        s <- foldM (fun s i => visit i right s) (range top (bottom + 1)) s ;;
        let right := right - 1 in
        '(s, bottom) <-
          (if top <=? bottom then
             s <- foldM (fun s i => visit bottom i s)
                        (range_down right (left - 1)) s ;;
             Ok (s, bottom - 1)
           else Ok (s, bottom)) ;;
        '(s, left) <-
          (if left <=? right then
             s <- foldM (fun s i => visit i left s)
                        (range_down bottom (top - 1)) s ;;
             Ok (s, left + 1)
           else Ok (s, left)) ;;
        spiral fuel' top bottom left right s
    end
  else Ok s.
End Spiral.

(** Every lap moves [top] down by one, so [rows] laps suffice. *)
Definition laps (rows : Z) : nat := Z.to_nat rows.

Definition route_cipher_encrypt (plaintext : str) (rows cols : Z) : result str :=
  let total := rows * cols in
  let plaintext := ljust plaintext total (ord "X") in
  matrix <- build_matrix plaintext rows cols ;;
  spiral (fun r c res => x <- mget matrix r c ;; Ok (res ++ [x]))
         (laps rows) 0 (rows - 1) 0 (cols - 1) [].

(** A cell of the decoding grid is [None] until it is written. *)
Definition join_cells (matrix : list (list (option char))) : result str :=
  rows <- mapM (mapM (fun cell => match cell with
                                  | Some c => Ok c
                                  | None => Raise TypeError
                                  end)) matrix ;;
  Ok (concat rows).

Definition route_cipher_decrypt (ciphertext : str) (rows cols : Z) : result str :=
  let matrix := repeat (repeat (@None char) (Z.to_nat cols)) (Z.to_nat rows) in
  '(matrix, _) <-
    spiral (fun r c '(matrix, index) =>
              x <- getitem ciphertext index ;;
              matrix <- mset matrix r c (Some x) ;;
              Ok (matrix, index + 1))
           (laps rows) 0 (rows - 1) 0 (cols - 1) (matrix, 0) ;;
  join_cells matrix.

(** ** Columnar transposition *)

(** [sorted(list(enumerate(key)), key=lambda x: (x[1], x[0]))] *)
Definition order_leb (x y : Z * char) : bool :=
  (snd x <? snd y) || ((snd x =? snd y) && (fst x <=? fst y)).

Definition key_order (key : str) : list (Z * char) :=
  sorted order_leb (enumerate key).

Definition columnar_transposition_encrypt (plaintext key : str) : result str :=
  let num_cols := len key in
  num_rows <- floordiv (len plaintext + num_cols - 1) num_cols ;;
  let total := num_rows * num_cols in
  let plaintext := ljust plaintext total (ord "X") in
  matrix <- build_matrix plaintext num_rows num_cols ;;
  let order := key_order key in
  foldM (fun res '(col_index, _) =>
           foldM (fun res row => x <- getitem row col_index ;; Ok (res ++ [x]))
                 matrix res)
        order [].

(** A cell of the decoding grid is a string: [''] until it is written, one
    character afterwards. *)
Definition columnar_transposition_decrypt (ciphertext key : str) : result str :=
  let num_cols := len key in
  num_rows <- floordiv (len ciphertext) num_cols ;;
  let order := key_order key in
  let matrix := repeat (repeat ([] : str) (Z.to_nat num_cols)) (Z.to_nat num_rows) in
  '(matrix, _) <-
    foldM (fun st '(col_index, _) =>
             foldM (fun '(matrix, index) r =>
                      x <- getitem ciphertext index ;;
                      matrix <- mset matrix r col_index [x] ;;
                      Ok (matrix, index + 1))
                   (range 0 num_rows) st)
          order (matrix, 0) ;;
  Ok (rstrip (concat (concat matrix)) (ord "X")).

(** ** Double transposition *)

Definition double_transposition_encrypt (plaintext key1 key2 : str) : result str :=
  first_pass <- columnar_transposition_encrypt plaintext key1 ;;
  columnar_transposition_encrypt first_pass key2.

Definition double_transposition_decrypt (ciphertext key1 key2 : str) : result str :=
  first_pass <- columnar_transposition_decrypt ciphertext key2 ;;
  columnar_transposition_decrypt first_pass key1.

(** ** Myszkowski transposition *)

(** [for idx, letter in enumerate(key): groups.setdefault(letter, []).append(idx)] *)
Definition key_groups (key : str) : dict (list Z) :=
  fold_left (fun groups '(idx, letter) =>
               let cols := match dict_get groups letter with
                           | Ok cols => cols
                           | Raise _ => []
                           end in
               dict_set groups letter (cols ++ [idx]))
            (enumerate key) [].

Definition myszkowski_encrypt (plaintext key : str) : result str :=
  let num_cols := len key in
  num_rows <- floordiv (len plaintext + num_cols - 1) num_cols ;;
  let total := num_rows * num_cols in
  let plaintext := ljust plaintext total (ord "X") in
  matrix <- build_matrix plaintext num_rows num_cols ;;
  let groups := key_groups key in
  foldM (fun res letter =>
           cols <- dict_get groups letter ;;
           if len cols =? 1 then
             col <- getitem cols 0 ;;
             foldM (fun res r => x <- mget matrix r col ;; Ok (res ++ [x]))
                   (range 0 num_rows) res
           else
             foldM (fun res r =>
                      foldM (fun res col => x <- mget matrix r col ;; Ok (res ++ [x]))
                            cols res)
                   (range 0 num_rows) res)
        (sorted Z.leb (keys groups)) [].

Definition myszkowski_decrypt (ciphertext key : str) : result str :=
  let num_cols := len key in
  num_rows <- floordiv (len ciphertext) num_cols ;;
  let groups := key_groups key in
  '(group_cipher, _) <-
    foldM (fun '(group_cipher, cipher_remainder) letter =>
             cols <- dict_get groups letter ;;
             if len cols =? 1 then
               let length := num_rows in
               Ok (dict_set group_cipher letter (slice cipher_remainder 0 length),
                   slice cipher_remainder length (len cipher_remainder))
             else
               let length := num_rows * len cols in
               Ok (dict_set group_cipher letter (slice cipher_remainder 0 length),
                   slice cipher_remainder length (len cipher_remainder)))
          (sorted Z.leb (keys groups)) (([] : dict str), ciphertext) ;;
  let matrix := repeat (repeat ([] : str) (Z.to_nat num_cols)) (Z.to_nat num_rows) in
  matrix <-
    foldM (fun matrix letter =>
             cols <- dict_get groups letter ;;
             if len cols =? 1 then
               col <- getitem cols 0 ;;
               text <- dict_get group_cipher letter ;;
               foldM (fun matrix r =>
                        x <- getitem text r ;; mset matrix r col [x])
                     (range 0 num_rows) matrix
             else
               text <- dict_get group_cipher letter ;;
               let chunk_size := len cols in
               foldM (fun matrix r =>
                        let chunk := slice text (r * chunk_size) ((r + 1) * chunk_size) in
                        foldM (fun matrix '(j, col) =>
                                 x <- getitem chunk j ;; mset matrix r col [x])
                              (enumerate cols) matrix)
                     (range 0 num_rows) matrix)
          (sorted Z.leb (keys groups)) matrix ;;
  Ok (rstrip (concat (map (@concat char) matrix)) (ord "X")).

(** ** Disruptive transposition *)

Definition key_seed (key : str) : Z := fold_left Z.add key 0.

Section Disruptive.
(** [random.Random(seed).shuffle(perm)] of the Python library: the shuffled
    list, a function of the seed and of the list. *)
Variable shuffle : Z -> list Z -> list Z.

Definition disruptive_transposition_encrypt (text key : str) : result str :=
  let seed := key_seed key in
  let perm := shuffle seed (range 0 (len text)) in
  let ciphertext_chars := repeat ([] : str) (Z.to_nat (len text)) in
  ciphertext_chars <-
    foldM (fun chars '(i, c) => p <- getitem perm i ;; setitem chars p [c])
          (enumerate text) ciphertext_chars ;;
  Ok (concat ciphertext_chars).

Definition disruptive_transposition_decrypt (ciphertext key : str) : result str :=
  let seed := key_seed key in
  let perm := shuffle seed (range 0 (len ciphertext)) in
  let inv_perm := repeat 0 (Z.to_nat (len ciphertext)) in
  inv_perm <-
    foldM (fun inv '(i, p) => setitem inv p i) (enumerate perm) inv_perm ;;
  let plaintext_chars := repeat ([] : str) (Z.to_nat (len ciphertext)) in
  plaintext_chars <-
    foldM (fun chars '(i, c) => q <- getitem inv_perm i ;; setitem chars q [c])
          (enumerate ciphertext) plaintext_chars ;;
  Ok (concat plaintext_chars).
End Disruptive.

(** ** Additive, multiplicative and affine ciphers *)

(** ['A' <= char <= 'Z'] *)
Definition is_AZ (c : char) : bool := (ord "A" <=? c) && (c <=? ord "Z").

Definition additive_encrypt (text : str) (key : Z) : str :=
  let text := upper text in
  fold_left (fun res c =>
               if is_AZ c then res ++ [((c - ord "A" + key) mod 26) + ord "A"]
               else res ++ [c])
            text [].

Definition additive_decrypt (text : str) (key : Z) : str :=
  additive_encrypt text (- key).

Definition multiplicative_encrypt (text : str) (key : Z) : printed str :=
  if negb (Z.gcd key 26 =? 1) then
    (["Error: The key must be coprime with 26."%string], [])
  else
    let text := upper text in
    ([], fold_left (fun res c =>
                      if is_AZ c then res ++ [(((c - ord "A") * key) mod 26) + ord "A"]
                      else res ++ [c])
                   text []).

Definition multiplicative_decrypt (text : str) (key : Z) : printed (result str) :=
  if negb (Z.gcd key 26 =? 1) then
    (["Error: The key must be coprime with 26."%string], Ok [])
  else
    match mod_inv key 26 with
    | Raise e => ([], Raise e)
    | Ok None => (["Error: No modular inverse for this key!"%string], Ok [])
    | Ok (Some inverse) =>
        let text := upper text in
        ([], Ok (fold_left
                   (fun res c =>
                      if is_AZ c
                      then res ++ [(((c - ord "A") * inverse) mod 26) + ord "A"]
                      else res ++ [c])
                   text []))
    end.

Definition affine_encrypt (text : str) (a b : Z) : printed str :=
  if negb (Z.gcd a 26 =? 1) then
    (["Error: Key 'a' must be coprime with 26."%string], [])
  else
    let text := upper text in
    ([], fold_left (fun res c =>
                      if is_AZ c then res ++ [((a * (c - 65) + b) mod 26) + 65]
                      else res ++ [c])
                   text []).

Definition affine_decrypt (text : str) (a b : Z) : printed (result str) :=
  if negb (Z.gcd a 26 =? 1) then
    (["Error: Key 'a' must be coprime with 26."%string], Ok [])
  else
    match mod_inv a 26 with
    | Raise e => ([], Raise e)
    | Ok None => (["Error: No modular inverse found for 'a'."%string], Ok [])
    | Ok (Some inverse) =>
        let text := upper text in
        ([], Ok (fold_left
                   (fun res c =>
                      if is_AZ c
                      then res ++ [((inverse * ((c - 65) - b)) mod 26) + 65]
                      else res ++ [c])
                   text []))
    end.

(** ** Playfair *)

Definition generate_key_table (key : str) : list (list char) :=
  let key := replace (lower key) (ord "j") (ord "i") in
  let '(seen, table) :=
    fold_left (fun '(seen, table) c =>
                 if isalpha c && negb (mem c seen)
                 then (c :: seen, table ++ [c])
                 else (seen, table))
              key ([], []) in
  let table :=
    fold_left (fun table c => if negb (mem c seen) then table ++ [c] else table)
              (lit "abcdefghiklmnopqrstuvwxyz") table in
  map (fun i => slice table (i * 5) ((i + 1) * 5)) (range 0 5).

(** The result [None] of the source is [None]. *)
Definition find_position (letter : char) (table : list (list char))
  : option (Z * Z) :=
  let letter := if lower_char letter =? ord "j" then ord "i" else lower_char letter in
  match find (fun '(_, row) => mem letter row) (enumerate table) with
  | Some (i, row) => Some (i, index_of letter row)
  | None => None
  end.

(** [row, col = find_position(...)]: unpacking [None] raises [TypeError]. *)
Definition unpack (p : option (Z * Z)) : result (Z * Z) :=
  match p with
  | Some rc => Ok rc
  | None => Raise TypeError
  end.

(** The [while i < len(plaintext)] loop, on the text from index [i] on. *)
Fixpoint split_digraphs (plaintext : str) : list str :=
  match plaintext with
  | [] => []
  | a :: rest =>
      match rest with
      | [] => [[a; ord "x"]]
      | b :: rest' =>
          if a =? b then [a; ord "x"] :: split_digraphs rest
          else [a; b] :: split_digraphs rest'
      end
  end.

Definition playfair_encrypt (plaintext key : str) : result str :=
  let table := generate_key_table key in
  let plaintext := replace (lower plaintext) (ord "j") (ord "i") in
  let plaintext := filter isalpha plaintext in
  let digraphs := split_digraphs plaintext in
  res <-
    foldM (fun res pair =>
             a <- getitem pair 0 ;;
             b <- getitem pair 1 ;;
             '(row1, col1) <- unpack (find_position a table) ;;
             '(row2, col2) <- unpack (find_position b table) ;;
             if row1 =? row2 then
               x <- mget table row1 ((col1 + 1) mod 5) ;;
               y <- mget table row2 ((col2 + 1) mod 5) ;;
               Ok (res ++ [x] ++ [y])
             else if col1 =? col2 then
               x <- mget table ((row1 + 1) mod 5) col1 ;;
               y <- mget table ((row2 + 1) mod 5) col2 ;;
               Ok (res ++ [x] ++ [y])
             else
               x <- mget table row1 col2 ;;
               y <- mget table row2 col1 ;;
               Ok (res ++ [x] ++ [y]))
          digraphs [] ;;
  Ok (upper res).

Definition playfair_decrypt (ciphertext key : str) : result str :=
  let table := generate_key_table key in
  let ciphertext := replace (lower ciphertext) (ord "j") (ord "i") in
  let ciphertext := filter isalpha ciphertext in
  let digraphs := map (fun i => slice ciphertext i (i + 2))
                      (range2 0 (len ciphertext)) in
  res <-
    foldM (fun res pair =>
             a <- getitem pair 0 ;;
             b <- getitem pair 1 ;;
             '(row1, col1) <- unpack (find_position a table) ;;
             '(row2, col2) <- unpack (find_position b table) ;;
             if row1 =? row2 then
               x <- mget table row1 ((col1 - 1) mod 5) ;;
               y <- mget table row2 ((col2 - 1) mod 5) ;;
               Ok (res ++ [x] ++ [y])
             else if col1 =? col2 then
               x <- mget table ((row1 - 1) mod 5) col1 ;;
               y <- mget table ((row2 - 1) mod 5) col2 ;;
               Ok (res ++ [x] ++ [y])
             else
               x <- mget table row1 col2 ;;
               y <- mget table row2 col1 ;;
               Ok (res ++ [x] ++ [y]))
          digraphs [] ;;
  Ok (upper res).

(** ** Hill cipher (2x2 key matrix) *)

(** The loop [for i in range(0, len(text), 2)] of [hill_encrypt] and
    [hill_decrypt], with the matrix [m] it multiplies by. *)
Definition hill_pairs (m : list (list Z)) (text : str) : result str :=
  foldM (fun res i =>
           let pair := slice text i (i + 2) in
           p0 <- getitem pair 0 ;;
           p1 <- getitem pair 1 ;;
           let v0 := p0 - 65 in
           let v1 := p1 - 65 in
           m00 <- mget m 0 0 ;;
           m01 <- mget m 0 1 ;;
           let num1 := (m00 * v0 + m01 * v1) mod 26 in
           m10 <- mget m 1 0 ;;
           m11 <- mget m 1 1 ;;
           let num2 := (m10 * v0 + m11 * v1) mod 26 in
           Ok (res ++ [num1 + 65] ++ [num2 + 65]))
        (range2 0 (len text)) [].

Definition hill_encrypt (plaintext : str) (key_matrix : list (list Z)) : result str :=
  let text := filter isalpha (upper plaintext) in
  let text := if negb (len text mod 2 =? 0) then text ++ lit "X" else text in
  hill_pairs key_matrix text.

Definition hill_decrypt (ciphertext : str) (key_matrix : list (list Z))
  : printed (result str) :=
  match
    (k00 <- mget key_matrix 0 0 ;;
     k11 <- mget key_matrix 1 1 ;;
     k01 <- mget key_matrix 0 1 ;;
     k10 <- mget key_matrix 1 0 ;;
     let det := k00 * k11 - k01 * k10 in
     let det := det mod 26 in
     inv_det <- mod_inv det 26 ;;
     Ok (k00, k01, k10, k11, inv_det))
  with
  | Raise e => ([], Raise e)
  | Ok (_, _, _, _, None) =>
      (["Error: Key matrix is not invertible modulo 26!"%string], Ok [])
  | Ok (k00, k01, k10, k11, Some inv_det) =>
      let inv_matrix :=
        [[(k11 * inv_det) mod 26; (- k01 * inv_det) mod 26];
         [(- k10 * inv_det) mod 26; (k00 * inv_det) mod 26]] in
      let text := filter isalpha (upper ciphertext) in
      ([], hill_pairs inv_matrix text)
  end.

(** ** Specification devices for Rail-Fence *)

(** The zigzag stays on the rails and turns at both ends. *)
Definition zz_ok (n : Z) (st : Z * Z) : Prop :=
  0 <= fst st <= n - 1 /\ (snd st = 1 \/ snd st = -1) /\
  (fst st = 0 -> snd st = 1) /\ (fst st = n - 1 -> snd st = -1).

(** The rail of each of the next [k] characters. *)
Fixpoint pattern_from (n : Z) (st : Z * Z) (k : nat) : list Z :=
  match k with
  | O => []
  | S k' => fst st :: pattern_from n (zigzag n st) k'
  end.

(** The characters of [txt] that the pattern [pat] puts on rail [r]. *)
Fixpoint sel (r : Z) (pat : list Z) (txt : str) : str :=
  match pat, txt with
  | p :: pat', x :: txt' => if p =? r then x :: sel r pat' txt' else sel r pat' txt'
  | _, _ => []
  end.

(** ** Specification devices for the Disruptive cipher *)

(** The permutation that a seed gives for a text of [n] characters. *)
Definition shuffled (shuffle : Z -> list Z -> list Z) (seed : Z) (n : nat)
  : list Z :=
  shuffle seed (range 0 (Z.of_nat n)).

(** ** Specification devices for the grids *)

(** A grid of [R] rows of [C] cells. *)
Definition wf {A : Type} (R C : nat) (M : list (list A)) : Prop :=
  List.length M = R /\ Forall (fun row => List.length row = C) M.

Definition cell {A : Type} (d : A) (M : list (list A)) (r c : Z) : A :=
  nth (Z.to_nat c) (nth (Z.to_nat r) M []) d.

(** The decoding grid [M'] holds the cells of the grid [M] at the positions
    [W] written so far; [f] makes a cell of the decoding grid from a
    character. *)
Definition good {B : Type} (f : Z -> B) (dB : B) (R C : nat) (M : list (list Z))
           (W : list (Z * Z)) (M' : list (list B)) : Prop :=
  wf R C M' /\
  forall r c, 0 <= r < Z.of_nat R -> 0 <= c < Z.of_nat C -> In (r, c) W ->
              cell dB M' r c = f (cell 0 M r c).

(** The text does not end in the filler ['X']. *)
Definition no_trailing_X (t : list Z) : Prop :=
  forall t', t <> t' ++ [ord "X"].

(** The column [col] of a grid, top to bottom. *)
Definition column (M : list (list Z)) (col : Z) : list Z :=
  map (fun r => cell 0 M r col) (range 0 (len M)).

(** The cells of the columns [cols], column after column. *)
Definition column_cells (R : nat) (cols : list Z) : list (Z * Z) :=
  flat_map (fun col => map (fun r => (r, col)) (range 0 (Z.of_nat R))) cols.

(** The cells that the spiral visits, in order. *)
Fixpoint spiral_cells (fuel : nat) (top bottom left right : Z) : list (Z * Z) :=
  if (top <=? bottom) && (left <=? right) then
    match fuel with
    | O => []
    | S fuel' =>
        let top' := top + 1 in
        let right' := right - 1 in
        let bottom' := if top' <=? bottom then bottom - 1 else bottom in
        let left' := if left <=? right' then left + 1 else left in
        map (fun i => (top, i)) (range left (right + 1))
        ++ map (fun i => (i, right)) (range top' (bottom + 1))
        ++ (if top' <=? bottom
            then map (fun i => (bottom, i)) (range_down right' (left - 1)) else [])
        ++ (if left <=? right'
            then map (fun i => (i, left)) (range_down bottom' (top' - 1)) else [])
        ++ spiral_cells fuel' top' bottom' left' right'
    end
  else [].

(** ** Specification devices for Myszkowski *)

(** The columns of a key letter ([[]] for a letter that is not in the key). *)
Definition cols_of (groups : dict (list Z)) (letter : Z) : list Z :=
  match dict_get groups letter with
  | Ok cols => cols
  | Raise _ => []
  end.

(** The indices at which [letter] stands in an enumerated key. *)
Definition idxs (letter : Z) (l : list (Z * Z)) : list Z :=
  map fst (filter (fun p => snd p =? letter) l).

(** The cells of the columns [cols] read row after row, and what they hold. *)
Definition block_cells (R : nat) (cols : list Z) : list (Z * Z) :=
  flat_map (fun r => map (fun col => (r, col)) cols) (range 0 (Z.of_nat R)).

Definition block (M : list (list Z)) (cols : list Z) : list Z :=
  flat_map (fun r => map (fun col => cell 0 M r col) cols) (range 0 (len M)).

(** The letters of a key in the order in which their groups are read, the
    columns of a letter, and what the grid [M] holds in them. *)
Definition sorted_letters (key : list Z) : list Z :=
  sorted Z.leb (keys (key_groups key)).

Definition letter_cols (key : list Z) (letter : Z) : list Z :=
  idxs letter (enumerate key).

Definition letter_block (M : list (list Z)) (key : list Z) (letter : Z) : list Z :=
  block M (letter_cols key letter).

(** ** Specification devices for the substitution ciphers *)

(** [upper] on an ASCII character. *)
Definition up (c : Z) : Z := if (97 <=? c) && (c <=? 122) then c - 32 else c.

(** A letter-by-letter substitution: [g] on ['A'..'Z'], the identity elsewhere. *)
Definition sub (g : Z -> Z) (c : Z) : Z := if is_AZ c then g c else c.

(** The Hill transform of a text of even length by the matrix
    [[m00, m01], [m10, m11]]. *)
Fixpoint hill_map (m00 m01 m10 m11 : Z) (t : list Z) : list Z :=
  match t with
  | a :: b :: rest =>
      ((m00 * (a - 65) + m01 * (b - 65)) mod 26 + 65)
        :: ((m10 * (a - 65) + m11 * (b - 65)) mod 26 + 65)
        :: hill_map m00 m01 m10 m11 rest
  | _ => []
  end.

(** What [hill_encrypt] feeds into the loop: the uppercased letters, with one
    ['X'] appended when their number is odd. *)
Definition hill_text (text : list Z) : list Z :=
  let t := filter isalpha (upper text) in
  if Z.even (len t) then t else t ++ lit "X".

(** ** Specification devices for Playfair *)

(** A letter of the Playfair alphabet: lowercase, not ['j']. *)
Definition playfair_letter (c : Z) : Prop := 97 <= c <= 122 /\ c <> 106.

(** The normalisation of the plaintext and of the key: lowercase, ['j'] folded
    into ['i']. *)
Definition fold_j (c : Z) : Z :=
  if lower_char c =? ord "j" then ord "i" else lower_char c.

(** ** Specification devices for the further properties *)

(** No element of [l] occurs twice, decided. *)
Fixpoint distinct (l : list Z) : bool :=
  match l with
  | [] => true
  | x :: l' => negb (mem x l') && distinct l'
  end.

(** [c] is [text] with every letter replaced by some uppercase letter and
    every other character left as it is. *)
Definition keeps_shape (text c : list Z) : Prop :=
  Forall2 (fun x y => if isalpha x then 65 <= y <= 90 else y = x) text c.

(** The three cases of the Playfair loop, on the table positions of the two
    letters of a digraph: same row, same column, rectangle.  The step [d] is
    [1] in [playfair_encrypt] and [-1] in [playfair_decrypt]. *)
Definition playfair_rule (d : Z) (p1 p2 : Z * Z) : (Z * Z) * (Z * Z) :=
  let '(row1, col1) := p1 in
  let '(row2, col2) := p2 in
  if row1 =? row2 then ((row1, (col1 + d) mod 5), (row2, (col2 + d) mod 5))
  else if col1 =? col2 then (((row1 + d) mod 5, col1), ((row2 + d) mod 5, col2))
  else ((row1, col2), (row2, col1)).

(** The two letters that the loop appends for one digraph. *)
Definition playfair_digraph (d : Z) (T : list (list Z)) (pair : list Z) : list Z :=
  match pair with
  | [a; b] =>
      match find_position a T, find_position b T with
      | Some p1, Some p2 =>
          [cell 0 T (fst (fst (playfair_rule d p1 p2)))
                    (snd (fst (playfair_rule d p1 p2)));
           cell 0 T (fst (snd (playfair_rule d p1 p2)))
                    (snd (snd (playfair_rule d p1 p2)))]
      | _, _ => []
      end
  | _ => []
  end.

(** * Lemmas *)

(** ** Facts about the Python values *)

Lemma len_app {A} (a b : list A) : len (a ++ b) = len a + len b.
Proof. unfold len. rewrite length_app. lia. Qed.

Lemma len_cons {A} (x : A) (l : list A) : len (x :: l) = 1 + len l.
Proof. unfold len. cbn [List.length]. lia. Qed.

Lemma len_nil {A} : len (@nil A) = 0.
Proof. reflexivity. Qed.

Lemma len_nonneg {A} (l : list A) : 0 <= len l.
Proof. unfold len. lia. Qed.

Lemma len_map {A B} (f : A -> B) (l : list A) : len (map f l) = len l.
Proof. unfold len. now rewrite length_map. Qed.

Lemma len_repeat {A} (x : A) (n : nat) : len (repeat x n) = Z.of_nat n.
Proof. unfold len. now rewrite repeat_length. Qed.

Lemma in_range (a b x : Z) : In x (range a b) <-> a <= x < b.
Proof.
  unfold range. rewrite in_map_iff. split.
  - intros [k [<- Hk]]. apply in_seq in Hk. lia.
  - intros H. exists (Z.to_nat (x - a)). split; [lia|].
    apply in_seq. lia.
Qed.

Lemma length_range (a b : Z) : List.length (range a b) = Z.to_nat (b - a).
Proof. unfold range. now rewrite length_map, length_seq. Qed.

Lemma range_nil (a b : Z) : b <= a -> range a b = [].
Proof. intros H. unfold range. replace (Z.to_nat (b - a)) with 0%nat by lia. reflexivity. Qed.

Lemma range_cons (a b : Z) : a < b -> range a b = a :: range (a + 1) b.
Proof.
  intros H. unfold range.
  replace (Z.to_nat (b - a)) with (S (Z.to_nat (b - (a + 1)))) by lia.
  cbn [seq map]. f_equal; [lia|].
  rewrite <- seq_shift, map_map. apply map_ext. intros k. lia.
Qed.

Lemma range_snoc (a b : Z) : a <= b -> range a (b + 1) = range a b ++ [b].
Proof.
  intros H. unfold range.
  replace (Z.to_nat (b + 1 - a)) with (Z.to_nat (b - a) + 1)%nat by lia.
  rewrite seq_app, map_app. cbn [seq map]. do 2 f_equal. lia.
Qed.

Lemma nth_range (a b : Z) (k : nat) (d : Z) :
  (k < Z.to_nat (b - a))%nat -> nth k (range a b) d = a + Z.of_nat k.
Proof.
  intros H. unfold range.
  rewrite (nth_indep _ d (a + Z.of_nat 0)) by (now rewrite length_map, length_seq).
  rewrite (map_nth (fun k => a + Z.of_nat k)), seq_nth by exact H. reflexivity.
Qed.

Lemma NoDup_range (a b : Z) : NoDup (range a b).
Proof.
  unfold range. apply Injective_map_NoDup; [|apply seq_NoDup].
  intros x y. lia.
Qed.

Lemma map_fst_combine {A B} (a : list A) (b : list B) :
  List.length a = List.length b -> map fst (combine a b) = a.
Proof.
  revert b. induction a as [|x a IH]; intros [|y b] H; cbn in *; try lia; auto.
  f_equal. apply IH. lia.
Qed.

Lemma map_snd_combine {A B} (a : list A) (b : list B) :
  List.length a = List.length b -> map snd (combine a b) = b.
Proof.
  revert b. induction a as [|x a IH]; intros [|y b] H; cbn in *; try lia; auto.
  f_equal. apply IH. lia.
Qed.

(** *** Indexing *)

Lemma norm_index_ok {A} (l : list A) (i : Z) :
  0 <= i < len l -> norm_index l i = Ok (Z.to_nat i).
Proof.
  intros H. unfold norm_index.
  replace ((0 <=? i) && (i <? len l)) with true; [reflexivity|].
  symmetry. apply andb_true_iff. split; [apply Z.leb_le | apply Z.ltb_lt]; lia.
Qed.

Lemma getitem_nth {A} (l : list A) (i : Z) (d : A) :
  0 <= i < len l -> getitem l i = Ok (nth (Z.to_nat i) l d).
Proof.
  intros H. unfold getitem. rewrite norm_index_ok by exact H. cbn [bind].
  assert (Hn : (Z.to_nat i < List.length l)%nat) by (unfold len in H; lia).
  rewrite (nth_error_nth' l d Hn). reflexivity.
Qed.

Lemma getitem_mid {A} (a b : list A) (x : A) (i : Z) :
  i = len a -> getitem (a ++ x :: b) i = Ok x.
Proof.
  intros ->. rewrite (getitem_nth _ _ x).
  - unfold len. rewrite Nat2Z.id, app_nth2, Nat.sub_diag by lia. reflexivity.
  - rewrite len_app, len_cons. pose proof (len_nonneg a). pose proof (len_nonneg b). lia.
Qed.

Lemma setitem_ok {A} (l : list A) (i : Z) (x : A) :
  0 <= i < len l -> setitem l i x = Ok (update l (Z.to_nat i) x).
Proof.
  intros H. unfold setitem. rewrite norm_index_ok by exact H. reflexivity.
Qed.

Lemma length_update {A} (l : list A) (n : nat) (x : A) :
  List.length (update l n x) = List.length l.
Proof.
  revert n. induction l as [|y l IH]; intros [|n]; cbn; auto.
Qed.

Lemma nth_update_eq {A} (l : list A) (n : nat) (x d : A) :
  (n < List.length l)%nat -> nth n (update l n x) d = x.
Proof.
  revert n. induction l as [|y l IH]; intros [|n]; cbn; intros H; try lia; auto.
  apply IH. lia.
Qed.

Lemma nth_update_neq {A} (l : list A) (n m : nat) (x d : A) :
  n <> m -> nth m (update l n x) d = nth m l d.
Proof.
  revert n m. induction l as [|y l IH]; intros [|n] [|m]; cbn; intros H; try lia; auto.
Qed.

(** *** Loops *)

Lemma foldM_app {A S} (f : S -> A -> result S) (l1 l2 : list A) (s : S) :
  foldM f (l1 ++ l2) s = (s1 <- foldM f l1 s ;; foldM f l2 s1).
Proof.
  revert s. induction l1 as [|x l1 IH]; intros s; cbn; [reflexivity|].
  destruct (f s x); cbn; auto.
Qed.

Lemma foldM_ext {A S} (f g : S -> A -> result S) (l : list A) (s : S) :
  (forall s x, In x l -> f s x = g s x) -> foldM f l s = foldM g l s.
Proof.
  revert s. induction l as [|x l IH]; intros s H; cbn; [reflexivity|].
  rewrite H by (now left). destruct (g s x); cbn; auto.
  apply IH. intros. apply H. now right.
Qed.

(** The loop rule: an invariant [I done s] of the elements done so far. *)
Lemma foldM_invariant {A S} (f : S -> A -> result S) (I : list A -> S -> Prop)
      (l : list A) (s0 : S) :
  I [] s0 ->
  (forall pre x post s, l = pre ++ x :: post -> I pre s ->
                        exists s', f s x = Ok s' /\ I (pre ++ [x]) s') ->
  exists s', foldM f l s0 = Ok s' /\ I l s'.
Proof.
  intros H0 Hstep.
  assert (G : forall post pre s, l = pre ++ post -> I pre s ->
                                 exists s', foldM f post s = Ok s' /\ I l s').
  { induction post as [|x post IH]; intros pre s El HI.
    - rewrite app_nil_r in El. subst pre. exists s. split; [reflexivity | exact HI].
    - destruct (Hstep pre x post s El HI) as [s' [E HI']].
      cbn [foldM]. rewrite E. cbn [bind].
      apply (IH (pre ++ [x])); [|exact HI'].
      rewrite <- app_assoc. exact El. }
  apply (G l [] s0); [reflexivity | exact H0].
Qed.

(** [for i in range(len(l)): ... l[i] ...] is [for x in l: ... x ...]. *)
Lemma foldM_range_getitem {A S} (l : list A) (F : S -> A -> result S) (s : S) :
  foldM (fun s i => x <- getitem l i ;; F s x) (range 0 (len l)) s = foldM F l s.
Proof.
  assert (G : forall suf pre s, l = pre ++ suf ->
              foldM (fun s i => x <- getitem l i ;; F s x) (range (len pre) (len l)) s
              = foldM F suf s).
  { induction suf as [|x suf IH]; intros pre s0 E.
    - rewrite app_nil_r in E. subst pre. rewrite range_nil by lia. reflexivity.
    - rewrite range_cons.
      2:{ rewrite E. rewrite len_app, len_cons. pose proof (len_nonneg suf). lia. }
      assert (Eg : getitem l (len pre) = Ok x).
      { rewrite E. apply getitem_mid. reflexivity. }
      cbn [foldM]. rewrite Eg. cbn [bind].
      destruct (F s0 x) as [s1|e]; cbn [bind]; [|reflexivity].
      specialize (IH (pre ++ [x]) s1). rewrite len_app, len_cons, len_nil in IH.
      rewrite Z.add_0_r in IH. apply IH. rewrite <- app_assoc. exact E. }
  apply (G l [] s). reflexivity.
Qed.

Lemma mapM_ok {A B} (f : A -> result B) (g : A -> B) (l : list A) :
  (forall x, In x l -> f x = Ok (g x)) -> mapM f l = Ok (map g l).
Proof.
  induction l as [|x l IH]; intros H; cbn; [reflexivity|].
  rewrite H by (now left). cbn. rewrite IH; [reflexivity|].
  intros. apply H. now right.
Qed.

(** *** Dictionaries *)

Lemma dict_get_set {V} (d : dict V) (k k' : Z) (v : V) :
  dict_get (dict_set d k v) k' = if k' =? k then Ok v else dict_get d k'.
Proof.
  induction d as [|[k0 v0] d IH]; cbn.
  - destruct (k' =? k); reflexivity.
  - destruct (k =? k0) eqn:E; cbn.
    + apply Z.eqb_eq in E. subst k0. destruct (k' =? k); reflexivity.
    + destruct (k' =? k0) eqn:E'.
      * apply Z.eqb_eq in E'. subst k0. rewrite Z.eqb_sym, E. reflexivity.
      * exact IH.
Qed.

Lemma dict_get_const {V} (l : list Z) (v : V) (k : Z) :
  In k l -> dict_get (map (fun i => (i, v)) l) k = Ok v.
Proof.
  induction l as [|x l IH]; cbn; [tauto|].
  intros H. destruct (k =? x) eqn:E; [reflexivity|].
  apply IH. destruct H as [->|H]; [|exact H]. rewrite Z.eqb_refl in E. discriminate.
Qed.

(** *** The modular inverse *)

Lemma mod_inv_unique (a m x y : Z) :
  0 < m -> 0 <= x < m -> 0 <= y < m ->
  (a * x) mod m = 1 -> (a * y) mod m = 1 -> x = y.
Proof.
  intros Hm Hx Hy Ex Ey.
  assert (Hxy : (x * (a * y)) mod m = (y * (a * x)) mod m).
  { f_equal. ring. }
  rewrite <- Z.mul_mod_idemp_r in Hxy by lia.
  rewrite <- (Z.mul_mod_idemp_r y) in Hxy by lia.
  rewrite Ex, Ey in Hxy. rewrite !Z.mul_1_r in Hxy.
  rewrite !Z.mod_small in Hxy by lia. exact Hxy.
Qed.

Lemma mod_inv_exists (a m : Z) :
  2 <= m -> Z.gcd a m = 1 -> exists x, 1 <= x < m /\ (a * x) mod m = 1.
Proof.
  intros Hm Hg.
  destruct (Z.gcd_bezout a m 1 Hg) as [u [v Huv]].
  assert (E : (a * (u mod m)) mod m = 1).
  { rewrite Z.mul_mod_idemp_r by lia.
    replace (a * u) with (1 + (- v) * m) by lia.
    rewrite Z.mod_add by lia. apply Z.mod_small. lia. }
  exists (u mod m). split; [|exact E].
  pose proof (Z.mod_pos_bound u m ltac:(lia)) as Hb.
  assert (u mod m <> 0).
  { intros E0. rewrite E0, Z.mul_0_r, Z.mod_0_l in E by lia. lia. }
  lia.
Qed.

Lemma mod_inv_gcd (a m x : Z) : 2 <= m -> (a * x) mod m = 1 -> Z.gcd a m = 1.
Proof.
  intros Hm E.
  pose proof (Z.div_mod (a * x) m ltac:(lia)) as D. rewrite E in D.
  pose proof (Z.gcd_divide_l a m) as [p Hp].
  pose proof (Z.gcd_divide_r a m) as [q Hq].
  pose proof (Z.gcd_nonneg a m) as Hn.
  assert (Hd : (Z.gcd a m | 1)).
  { exists (p * x - q * (a * x / m)).
    rewrite Z.mul_sub_distr_r.
    replace (p * x * Z.gcd a m) with (p * Z.gcd a m * x) by ring.
    replace (q * (a * x / m) * Z.gcd a m) with (q * Z.gcd a m * (a * x / m)) by ring.
    rewrite <- Hp, <- Hq. lia. }
  apply Z.divide_1_r_nonneg in Hd; lia.
Qed.

Lemma mod_inv_some (a m : Z) :
  2 <= m -> Z.gcd a m = 1 ->
  exists x, mod_inv a m = Ok (Some x) /\ 1 <= x < m /\ (a * x) mod m = 1.
Proof.
  intros Hm Hg. unfold mod_inv, pymod.
  replace (m =? 0) with false by (symmetry; apply Z.eqb_neq; lia).
  cbn [bind].
  destruct (mod_inv_exists a m Hm Hg) as [x0 [Hx0 Ex0]].
  destruct (find _ _) as [x|] eqn:F.
  - apply find_some in F. destruct F as [Hin Hx].
    apply in_range in Hin. apply Z.eqb_eq in Hx.
    rewrite Z.mul_mod_idemp_l in Hx by lia.
    exists x. auto.
  - exfalso.
    pose proof (find_none _ _ F x0) as N.
    rewrite in_range in N. specialize (N Hx0).
    apply Z.eqb_neq in N. apply N.
    rewrite Z.mul_mod_idemp_l by lia. exact Ex0.
Qed.

Lemma mod_inv_none (a m : Z) :
  2 <= m -> Z.gcd a m <> 1 -> mod_inv a m = Ok None.
Proof.
  intros Hm Hg. unfold mod_inv, pymod.
  replace (m =? 0) with false by (symmetry; apply Z.eqb_neq; lia).
  cbn [bind].
  destruct (find _ _) as [x|] eqn:F; [|reflexivity].
  exfalso. apply Hg.
  apply find_some in F. destruct F as [_ Hx]. apply Z.eqb_eq in Hx.
  rewrite Z.mul_mod_idemp_l in Hx by lia.
  exact (mod_inv_gcd a m x Hm Hx).
Qed.

Lemma zigzag_ok (n : Z) (st : Z * Z) : 2 <= n -> zz_ok n st -> zz_ok n (zigzag n st).
Proof.
  destruct st as [rail dir]. unfold zz_ok, zigzag. cbn [fst snd].
  intros Hn [H1 [H2 [H3 H4]]].
  destruct ((rail + dir =? 0) || (rail + dir =? n - 1)) eqn:E; cbn [fst snd].
  - apply orb_true_iff in E. rewrite !Z.eqb_eq in E. lia.
  - apply orb_false_iff in E. rewrite !Z.eqb_neq in E. lia.
Qed.

Lemma pattern_from_range (n : Z) (k : nat) (st : Z * Z) :
  2 <= n -> zz_ok n st -> Forall (fun p => 0 <= p < n) (pattern_from n st k).
Proof.
  intros Hn. revert st. induction k as [|k IH]; intros st H; cbn; constructor.
  - destruct H as [H _]. lia.
  - apply IH. now apply zigzag_ok.
Qed.

Lemma length_pattern_from (n : Z) (k : nat) (st : Z * Z) :
  List.length (pattern_from n st k) = k.
Proof. revert st. induction k; intros; cbn; auto. Qed.

Lemma sel_app (r : Z) (p1 p2 : list Z) (t1 t2 : str) :
  List.length p1 = List.length t1 ->
  sel r (p1 ++ p2) (t1 ++ t2) = sel r p1 t1 ++ sel r p2 t2.
Proof.
  revert t1. induction p1 as [|p p1 IH]; intros [|x t1] H; cbn in *; try lia; auto.
  destruct (p =? r); cbn; rewrite IH by lia; reflexivity.
Qed.

Lemma sel_cons (r p : Z) (pat : list Z) (x : char) (txt : str) :
  sel r (p :: pat) (x :: txt) = if p =? r then x :: sel r pat txt else sel r pat txt.
Proof. reflexivity. Qed.

Lemma sel_nil_r (r : Z) (pat : list Z) : sel r pat [] = [].
Proof. destruct pat; reflexivity. Qed.

(** Every character lies on exactly one rail. *)
Lemma length_rails (pat : list Z) (txt : str) (rs : list Z) :
  NoDup rs -> Forall (fun p => In p rs) pat -> List.length pat = List.length txt ->
  List.length (concat (map (fun r => sel r pat txt) rs)) = List.length txt.
Proof.
  intros Hnd. revert txt. induction pat as [|p pat IH]; intros [|x txt] Hin Hl;
    cbn in Hl; try lia.
  - clear Hnd Hin. induction rs; cbn; auto.
  - inversion Hin as [|? ? Hp Hin']; subst.
    specialize (IH txt Hin' ltac:(lia)).
    cbn [List.length]. rewrite <- IH. clear IH Hin Hin'.
    induction rs as [|r rs IHrs]; [destruct Hp|].
    inversion Hnd as [|? ? Hnr Hnd']; subst.
    cbn [map concat]. rewrite !length_app, (sel_cons r p pat x txt).
    destruct (p =? r) eqn:E.
    + apply Z.eqb_eq in E. subst r. cbn [List.length].
      assert (Hrest : forall rs', ~ In p rs' ->
                map (fun r => sel r (p :: pat) (x :: txt)) rs'
                = map (fun r => sel r pat txt) rs').
      { intros rs' Hn. apply map_ext_in. intros r Hr. cbn.
        destruct (p =? r) eqn:E'; [|reflexivity].
        apply Z.eqb_eq in E'. subst r. tauto. }
      rewrite Hrest by exact Hnr. lia.
    + apply Z.eqb_neq in E. destruct Hp as [Hp|Hp]; [congruence|].
      rewrite (IHrs Hnd' Hp). lia.
Qed.

(** *** Encryption *)

Lemma rail_fence_encrypt_loop (n : Z) (Hn : 2 <= n) (text : str) :
  forall (rails : list str) (st : Z * Z),
    zz_ok n st -> List.length rails = Z.to_nat n ->
    exists rails' st',
      foldM (fun '(rails, (rail, direction)) char =>
               r <- getitem rails rail ;;
               rails <- setitem rails rail (r ++ [char]) ;;
               Ok (rails, zigzag n (rail, direction)))
            text (rails, st) = Ok (rails', st')
      /\ List.length rails' = Z.to_nat n
      /\ forall r, (r < Z.to_nat n)%nat ->
           nth r rails' [] = nth r rails []
                             ++ sel (Z.of_nat r) (pattern_from n st (List.length text)) text.
Proof.
  induction text as [|x text IH]; intros rails st Hst Hl.
  - exists rails, st. cbn. split; [reflexivity|]. split; [exact Hl|].
    intros. now rewrite app_nil_r.
  - destruct st as [rail dir]. cbn [foldM].
    assert (Hr : 0 <= rail < len rails).
    { destruct Hst as [H _]. cbn in H. unfold len. lia. }
    rewrite (getitem_nth _ _ []) by exact Hr. cbn [bind].
    rewrite setitem_ok by exact Hr. cbn [bind].
    destruct (IH (update rails (Z.to_nat rail) (nth (Z.to_nat rail) rails [] ++ [x]))
                 (zigzag n (rail, dir)))
      as [rails' [st' [E [Hl' Hn']]]].
    { now apply zigzag_ok. }
    { now rewrite length_update. }
    exists rails', st'. split; [exact E|]. split; [exact Hl'|].
    intros r Hrn. rewrite (Hn' r Hrn). cbn [List.length pattern_from fst sel].
    destruct (rail =? Z.of_nat r) eqn:Er.
    + apply Z.eqb_eq in Er. subst rail. rewrite Nat2Z.id.
      rewrite nth_update_eq by lia. rewrite <- app_assoc. reflexivity.
    + apply Z.eqb_neq in Er. rewrite nth_update_neq by lia. reflexivity.
Qed.

Lemma rail_fence_encrypt_rails (text : str) (n : Z) :
  2 <= n ->
  rail_fence_encrypt text n
  = Ok (concat (map (fun r => sel r (pattern_from n (0, 1) (List.length text)) text)
                    (range 0 n))).
Proof.
  intros Hn. unfold rail_fence_encrypt.
  replace (n <=? 1) with false by (symmetry; apply Z.leb_gt; lia).
  cbv zeta.
  destruct (rail_fence_encrypt_loop n Hn text (repeat [] (Z.to_nat n)) (0, 1))
    as [rails' [st' [E [Hl Hnth]]]].
  { unfold zz_ok. cbn. lia. }
  { apply repeat_length. }
  rewrite E. cbn [bind]. do 2 f_equal.
  apply (nth_ext _ _ [] []).
  - rewrite length_map, length_range. lia.
  - intros k Hk. rewrite Hl in Hk. rewrite (Hnth k Hk).
    rewrite nth_repeat. cbn [app].
    rewrite (nth_indep _ [] ((fun r => sel r (pattern_from n (0, 1) (List.length text)) text) 0))
      by (rewrite length_map, length_range; lia).
    rewrite (map_nth (fun r => sel r (pattern_from n (0, 1) (List.length text)) text)).
    rewrite nth_range by lia. reflexivity.
Qed.

(** *** Decryption *)

Lemma rail_fence_pattern (n : Z) (l : list Z) :
  forall (acc : list Z) (st : Z * Z),
    fst (fold_left (fun '(pattern, (rail, direction)) (_ : Z) =>
                      (pattern ++ [rail], zigzag n (rail, direction)))
                   l (acc, st))
    = acc ++ pattern_from n st (List.length l).
Proof.
  induction l as [|i l IH]; intros acc [rail dir]; cbn [fold_left List.length pattern_from].
  - now rewrite app_nil_r.
  - rewrite IH. rewrite <- app_assoc. reflexivity.
Qed.

(** One rail: the characters of the pattern's rail [r] are taken from the
    ciphertext in order. *)
Lemma rail_fence_allocate_rail (c : str) (r : Z) (pat : list Z) :
  forall (txt cpre cpost old : str) (rails : dict str) (index : Z),
    List.length pat = List.length txt ->
    c = cpre ++ sel r pat txt ++ cpost -> index = len cpre ->
    dict_get rails r = Ok old ->
    exists rails',
      foldM (fun '(rails, index) p =>
               if p =? r then
                 rl <- dict_get rails r ;;
                 x <- getitem c index ;;
                 Ok (dict_set rails r (rl ++ [x]), index + 1)
               else Ok (rails, index))
            pat (rails, index) = Ok (rails', index + len (sel r pat txt))
      /\ dict_get rails' r = Ok (old ++ sel r pat txt)
      /\ forall k, k <> r -> dict_get rails' k = dict_get rails k.
Proof.
  induction pat as [|p pat IH]; intros [|x txt] cpre cpost old rails index Hl Ec Ei Hold;
    cbn in Hl; try lia.
  - exists rails. cbn. rewrite Z.add_0_r, app_nil_r. auto.
  - rewrite sel_cons in *. cbn [foldM]. destruct (p =? r) eqn:E.
    + rewrite Hold. cbn [bind].
      assert (Eg : getitem c index = Ok x).
      { rewrite Ec. cbn [app]. apply getitem_mid. exact Ei. }
      rewrite Eg. cbn [bind].
      destruct (IH txt (cpre ++ [x]) cpost (old ++ [x]) (dict_set rails r (old ++ [x]))
                   (index + 1)) as [rails' [E1 [E2 E3]]].
      * lia.
      * rewrite Ec. cbn [app]. rewrite <- app_assoc. reflexivity.
      * rewrite len_app, len_cons, len_nil. lia.
      * rewrite dict_get_set, Z.eqb_refl. reflexivity.
      * exists rails'. rewrite len_cons.
        replace (index + (1 + len (sel r pat txt))) with (index + 1 + len (sel r pat txt)) by lia.
        split; [exact E1|]. split.
        -- rewrite E2, <- app_assoc. reflexivity.
        -- intros k Hk. rewrite (E3 k Hk), dict_get_set.
           replace (k =? r) with false by (symmetry; now apply Z.eqb_neq). reflexivity.
    + cbn [bind]. apply (IH txt cpre cpost old rails index); auto.
Qed.

Lemma rail_fence_allocate (c : str) (pat : list Z) (txt : str) :
  List.length pat = List.length txt ->
  forall (rs : list Z) (cpre cpost : str) (rails : dict str) (index : Z),
    NoDup rs ->
    c = cpre ++ concat (map (fun r => sel r pat txt) rs) ++ cpost -> index = len cpre ->
    (forall r, In r rs -> dict_get rails r = Ok []) ->
    exists rails' index',
      foldM (fun st rail_index =>
               foldM (fun '(rails, index) i =>
                        p <- getitem pat i ;;
                        if p =? rail_index then
                          rl <- dict_get rails rail_index ;;
                          x <- getitem c index ;;
                          Ok (dict_set rails rail_index (rl ++ [x]), index + 1)
                        else Ok (rails, index))
                     (range 0 (len pat)) st)
            rs (rails, index) = Ok (rails', index')
      /\ (forall r, In r rs -> dict_get rails' r = Ok (sel r pat txt))
      /\ (forall k, ~ In k rs -> dict_get rails' k = dict_get rails k).
Proof.
  intros Hl. induction rs as [|r rs IH]; intros cpre cpost rails index Hnd Ec Ei Hrails.
  - exists rails, index. cbn. split; [reflexivity|]. split; [tauto|auto].
  - apply NoDup_cons_iff in Hnd. destruct Hnd as [Hnr Hnd'].
    cbn [foldM].
    pose (F := fun '(rails, index) p =>
                 if p =? r then
                   rl <- dict_get rails r ;;
                   x <- getitem c index ;;
                   Ok (dict_set rails r (rl ++ [x]), index + 1)
                 else Ok (rails, index)).
    rewrite (foldM_ext _ (fun st i => p <- getitem pat i ;; F st p)).
    2:{ intros [rails0 index0] i _. reflexivity. }
    rewrite foldM_range_getitem. unfold F. clear F.
    destruct (rail_fence_allocate_rail c r pat txt cpre
                (concat (map (fun r => sel r pat txt) rs) ++ cpost) [] rails index)
      as [rails1 [E1 [E2 E3]]]; auto.
    { rewrite Ec. cbn [map concat]. rewrite <- app_assoc. reflexivity. }
    { apply Hrails. now left. }
    rewrite E1. cbn [bind].
    destruct (IH (cpre ++ sel r pat txt) cpost rails1 (index + len (sel r pat txt)))
      as [rails' [index' [F1 [F2 F3]]]]; auto.
    { rewrite Ec. cbn [map concat]. rewrite <- !app_assoc. reflexivity. }
    { rewrite len_app. lia. }
    { intros k Hk. rewrite E3; [apply Hrails; now right|].
      intros ->. tauto. }
    exists rails', index'. split; [exact F1|]. split.
    + intros k [<-|Hk]; [|now apply F2].
      rewrite F3 by exact Hnr. exact E2.
    + intros k Hk. rewrite F3 by (intros H; apply Hk; now right).
      apply E3. intros ->. apply Hk. now left.
Qed.

(** Reading the rails back along the pattern yields the text. *)
Lemma rail_fence_rebuild (rails : dict str) (pat : list Z) (txt : str) :
  forall (psuf ppre : list Z) (tsuf tpre res : str) (counter : dict Z),
    pat = ppre ++ psuf -> txt = tpre ++ tsuf ->
    List.length ppre = List.length tpre -> List.length psuf = List.length tsuf ->
    (forall p, In p psuf -> dict_get rails p = Ok (sel p pat txt)) ->
    (forall p, In p psuf -> dict_get counter p = Ok (len (sel p ppre tpre))) ->
    exists counter',
      foldM (fun '(res, counter) r =>
               rl <- dict_get rails r ;;
               k <- dict_get counter r ;;
               x <- getitem rl k ;;
               Ok (res ++ [x], dict_set counter r (k + 1)))
            psuf (res, counter) = Ok (res ++ tsuf, counter').
Proof.
  induction psuf as [|p psuf IH]; intros ppre [|x tsuf] tpre res counter Ep Et Hl1 Hl2 Hr Hc;
    cbn in Hl2; try lia.
  - exists counter. cbn. now rewrite app_nil_r.
  - cbn [foldM]. rewrite Hr by (now left). cbn [bind].
    rewrite Hc by (now left). cbn [bind].
    assert (Es : sel p pat txt = sel p ppre tpre ++ x :: sel p psuf tsuf).
    { rewrite Ep, Et, sel_app by exact Hl1. cbn [sel]. rewrite Z.eqb_refl. reflexivity. }
    rewrite Es, getitem_mid by reflexivity. cbn [bind].
    destruct (IH (ppre ++ [p]) tsuf (tpre ++ [x]) (res ++ [x])
                 (dict_set counter p (len (sel p ppre tpre) + 1)))
      as [counter' E].
    + rewrite <- app_assoc. exact Ep.
    + rewrite <- app_assoc. exact Et.
    + rewrite !length_app. cbn. lia.
    + lia.
    + intros q Hq. apply Hr. now right.
    + intros q Hq. rewrite dict_get_set, sel_app by exact Hl1.
      rewrite len_app. cbn [sel].
      destruct (q =? p) eqn:E.
      * apply Z.eqb_eq in E. subst q. rewrite Z.eqb_refl. reflexivity.
      * rewrite Z.eqb_sym, E. rewrite Hc by (now right). rewrite len_nil. f_equal. lia.
    + exists counter'. rewrite E, <- app_assoc. reflexivity.
Qed.

Lemma rail_fence_roundtrip (text : str) (n : Z) :
  2 <= n ->
  exists c, rail_fence_encrypt text n = Ok c /\ len c = len text
            /\ rail_fence_decrypt c n = Ok text.
Proof.
  intros Hn. rewrite rail_fence_encrypt_rails by exact Hn.
  set (pat := pattern_from n (0, 1) (List.length text)).
  set (c := concat (map (fun r => sel r pat text) (range 0 n))).
  exists c. split; [reflexivity|].
  assert (Hpat : Forall (fun p => 0 <= p < n) pat).
  { apply pattern_from_range; [exact Hn|]. unfold zz_ok. cbn. lia. }
  assert (Hlp : List.length pat = List.length text) by apply length_pattern_from.
  assert (Hlc : List.length c = List.length text).
  { apply length_rails; [apply NoDup_range| |exact Hlp].
    eapply Forall_impl; [|exact Hpat]. intros p Hp. cbv beta in Hp.
    apply in_range. lia. }
  split; [unfold len; now rewrite Hlc|].
  unfold rail_fence_decrypt.
  replace (n <=? 1) with false by (symmetry; apply Z.leb_gt; lia).
  pose proof (rail_fence_pattern n (range 0 (len c)) [] (0, 1)) as Ep.
  destruct (fold_left _ (range 0 (len c)) ([], (0, 1))) as [pattern st] eqn:Ef.
  cbn [fst app] in Ep. rewrite length_range in Ep.
  replace (Z.to_nat (len c - 0)) with (List.length text) in Ep by (unfold len; lia).
  fold pat in Ep. subst pattern.
  replace (len c) with (len pat) by (unfold len; lia).
  destruct (rail_fence_allocate c pat text Hlp (range 0 n) [] []
              (map (fun i => (i, [])) (range 0 n)) 0)
    as [rails' [index' [E1 [E2 _]]]].
  { apply NoDup_range. }
  { cbn [app]. now rewrite app_nil_r. }
  { reflexivity. }
  { intros r Hr. now apply dict_get_const. }
  rewrite E1. cbn [bind].
  destruct (rail_fence_rebuild rails' pat text pat [] text [] []
              (map (fun i => (i, 0)) (range 0 n)))
    as [counter' E3]; auto.
  { intros p Hp. apply E2. apply in_range.
    rewrite Forall_forall in Hpat. specialize (Hpat p Hp). lia. }
  { intros p Hp. cbn. apply dict_get_const. apply in_range.
    rewrite Forall_forall in Hpat. specialize (Hpat p Hp). lia. }
  rewrite E3. reflexivity.
Qed.

(** *** Writing a list cell by cell *)

Lemma nth_enumerate {A} (l : list A) (k : nat) (d : A) :
  (k < List.length l)%nat -> nth k (enumerate l) (0, d) = (Z.of_nat k, nth k l d).
Proof.
  intros H. unfold enumerate. rewrite combine_nth.
  - rewrite nth_range by (unfold len; lia). f_equal.
  - rewrite length_range. unfold len. lia.
Qed.

Lemma length_enumerate {A} (l : list A) : List.length (enumerate l) = List.length l.
Proof.
  unfold enumerate. rewrite length_combine, length_range. unfold len. lia.
Qed.

Lemma in_enumerate {A} (l : list A) (k : nat) (d : A) :
  (k < List.length l)%nat -> In (Z.of_nat k, nth k l d) (enumerate l).
Proof.
  intros H. rewrite <- (nth_enumerate l k d H). apply nth_In.
  now rewrite length_enumerate.
Qed.

Lemma map_snd_enumerate {A} (l : list A) : map snd (enumerate l) = l.
Proof.
  unfold enumerate.
  assert (G : forall (l : list A) (a : Z), map snd (combine (range a (a + len l)) l) = l).
  { clear l. induction l as [|x l IH]; intros a.
    - cbn. destruct (range a (a + 0)); reflexivity.
    - rewrite range_cons by (rewrite len_cons; pose proof (len_nonneg l); lia).
      cbn [combine map snd]. f_equal.
      replace (a + len (x :: l)) with ((a + 1) + len l) by (rewrite len_cons; lia).
      apply IH. }
  apply (G l 0).
Qed.

(** [for i, y in enumerate(vals): ... l[i] ... y ...] walks [l] and [vals]
    side by side. *)
Lemma foldM_enumerate_getitem {A B S} (l : list A) (vals : list B)
      (F : S -> A -> B -> result S) (s : S) :
  List.length l = List.length vals ->
  foldM (fun s (ic : Z * B) => p <- getitem l (fst ic) ;; F s p (snd ic))
        (enumerate vals) s
  = foldM (fun s (pc : A * B) => F s (fst pc) (snd pc)) (combine l vals) s.
Proof.
  intros Hl. unfold enumerate.
  assert (G : forall suf vsuf pre s,
             l = pre ++ suf -> List.length suf = List.length vsuf ->
             foldM (fun s (ic : Z * B) => p <- getitem l (fst ic) ;; F s p (snd ic))
                   (combine (range (len pre) (len pre + len vsuf)) vsuf) s
             = foldM (fun s (pc : A * B) => F s (fst pc) (snd pc)) (combine suf vsuf) s).
  { induction suf as [|x suf IH]; intros [|v vsuf] pre s0 E Hs; cbn in Hs; try lia.
    - cbn. destruct (range _ _); reflexivity.
    - rewrite range_cons by (rewrite len_cons; pose proof (len_nonneg vsuf); lia).
      cbn [combine foldM fst snd].
      assert (Eg : getitem l (len pre) = Ok x).
      { rewrite E. apply getitem_mid. reflexivity. }
      rewrite Eg. cbn [bind]. destruct (F s0 x v) as [s1|e]; cbn [bind]; [|reflexivity].
      specialize (IH vsuf (pre ++ [x]) s1).
      rewrite len_app, len_cons, len_nil, Z.add_0_r in IH.
      replace (len pre + len (v :: vsuf)) with (len pre + 1 + len vsuf)
        by (rewrite len_cons; lia).
      apply IH; [|lia]. rewrite <- app_assoc. exact E. }
  specialize (G l vals [] s eq_refl Hl). rewrite len_nil in G. exact G.
Qed.

(** Writing at distinct positions: every written cell holds its value, the
    other cells are unchanged. *)
Lemma scatter {X A} (pos : X -> Z) (val : X -> A) (d : A) (l : list X) :
  forall init : list A,
    (forall x, In x l -> 0 <= pos x < len init) -> NoDup (map pos l) ->
    exists R,
      foldM (fun s x => setitem s (pos x) (val x)) l init = Ok R
      /\ List.length R = List.length init
      /\ (forall x, In x l -> nth (Z.to_nat (pos x)) R d = val x)
      /\ (forall j, (forall x, In x l -> pos x <> Z.of_nat j) -> nth j R d = nth j init d).
Proof.
  induction l as [|x l IH]; intros init Hr Hnd.
  - exists init. cbn. repeat split; auto. tauto.
  - cbn [map] in Hnd. apply NoDup_cons_iff in Hnd. destruct Hnd as [Hx Hnd].
    cbn [foldM]. rewrite setitem_ok by (apply Hr; now left). cbn [bind].
    pose proof (Hr x (or_introl eq_refl)) as Hxr.
    destruct (IH (update init (Z.to_nat (pos x)) (val x))) as [R [E [Hl [Hin Hout]]]].
    { intros y Hy. unfold len. rewrite length_update. apply Hr. now right. }
    { exact Hnd. }
    exists R. split; [exact E|]. split; [now rewrite Hl, length_update|]. split.
    + intros y [<-|Hy]; [|now apply Hin].
      rewrite Hout.
      * apply nth_update_eq. unfold len in Hxr. lia.
      * intros y Hy Epos. apply Hx. rewrite in_map_iff. exists y. split; [|exact Hy].
        rewrite Epos. lia.
    + intros j Hj. rewrite Hout by (intros y Hy; apply Hj; now right).
      apply nth_update_neq. specialize (Hj x (or_introl eq_refl)). lia.
Qed.

Lemma cells_singleton (C : list (list Z)) :
  (forall j, (j < List.length C)%nat -> exists x, nth j C [] = [x]) ->
  C = map (fun x => [x]) (concat C).
Proof.
  induction C as [|cell C IH]; intros H; [reflexivity|].
  destruct (H 0%nat) as [x Hx]; [cbn; lia|]. cbn in Hx. subst cell.
  cbn. f_equal. apply IH. intros j Hj. apply (H (S j)). cbn. lia.
Qed.

Lemma concat_singletons (t : list Z) : concat (map (fun x => [x]) t) = t.
Proof. induction t; cbn; congruence. Qed.

(** *** Disruptive transposition *)

Section DisruptiveRoundTrip.
Variable shuffle : Z -> list Z -> list Z.
Hypothesis shuffle_perm : forall seed l, Permutation l (shuffle seed l).

Local Abbreviation perm_of := (shuffled shuffle).

Lemma perm_of_facts (seed : Z) (n : nat) :
  List.length (perm_of seed n) = n
  /\ NoDup (perm_of seed n)
  /\ (forall p, In p (perm_of seed n) <-> 0 <= p < Z.of_nat n).
Proof.
  unfold shuffled. pose proof (shuffle_perm seed (range 0 (Z.of_nat n))) as P.
  split; [|split].
  - rewrite <- (Permutation_length P), length_range. lia.
  - eapply Permutation_NoDup; [exact P | apply NoDup_range].
  - intros p. rewrite <- in_range. split; intros H.
    + eapply Permutation_in; [apply Permutation_sym; exact P | exact H].
    + eapply Permutation_in; [exact P | exact H].
Qed.

(** The ciphertext holds [text[i]] at position [perm[i]]. *)
Lemma disruptive_encrypt_cells (text key : str) :
  exists c,
    disruptive_transposition_encrypt shuffle text key = Ok c
    /\ List.length c = List.length text
    /\ forall i, (i < List.length text)%nat ->
         nth (Z.to_nat (nth i (perm_of (key_seed key) (List.length text)) 0)) c 0
         = nth i text 0.
Proof.
  unfold disruptive_transposition_encrypt. cbv zeta.
  set (n := List.length text).
  change (shuffle (key_seed key) (range 0 (len text))) with (perm_of (key_seed key) n).
  set (perm := perm_of (key_seed key) n).
  destruct (perm_of_facts (key_seed key) n) as [Hlen [Hnd Hin]]. fold perm in Hlen, Hnd, Hin.
  pose (F := fun (s : list (list Z)) (p c : Z) => setitem s p [c]).
  rewrite (foldM_ext _ (fun s (ic : Z * Z) =>
                          p <- getitem perm (fst ic) ;; F s p (snd ic))).
  2:{ intros s [i c] _. reflexivity. }
  rewrite foldM_enumerate_getitem by (rewrite Hlen; reflexivity).
  unfold F. clear F.
  destruct (scatter (fun pc : Z * Z => fst pc) (fun pc => [snd pc]) [] (combine perm text)
                    (repeat [] (Z.to_nat (len text))))
    as [C [E [HlC [HinC _]]]].
  { intros [p x] Hpx. apply in_combine_l in Hpx. apply Hin in Hpx.
    rewrite len_repeat. unfold len. cbn [fst]. lia. }
  { rewrite map_fst_combine; [exact Hnd | lia]. }
  cbv beta in E. rewrite E. cbn [bind].
  rewrite repeat_length in HlC. unfold len in HlC. rewrite Nat2Z.id in HlC. fold n in HlC.
  assert (Hcell : forall i, (i < n)%nat ->
            nth (Z.to_nat (nth i perm 0)) C [] = [nth i text 0]).
  { intros i Hi.
    apply (HinC (nth i perm 0, nth i text 0)).
    rewrite <- combine_nth by lia. apply nth_In. rewrite length_combine. lia. }
  assert (HC : C = map (fun x => [x]) (concat C)).
  { apply cells_singleton. intros j Hj.
    assert (Hjp : In (Z.of_nat j) perm) by (apply Hin; lia).
    destruct (In_nth _ _ 0 Hjp) as [i [Hi Ei]].
    exists (nth i text 0). rewrite <- (Hcell i) by lia. rewrite Ei, Nat2Z.id. reflexivity. }
  exists (concat C). split; [reflexivity|].
  assert (HlcC : List.length (concat C) = n).
  { rewrite <- HlC. rewrite HC at 2. now rewrite length_map. }
  split; [exact HlcC|].
  intros i Hi. specialize (Hcell i Hi). rewrite HC in Hcell.
  assert (Hp : 0 <= nth i perm 0 < Z.of_nat n) by (apply Hin, nth_In; lia).
  rewrite (nth_indep _ [] ((fun x => [x]) 0)) in Hcell by (rewrite length_map; lia).
  rewrite (map_nth (fun x => [x])) in Hcell. now inversion Hcell.
Qed.

Lemma disruptive_roundtrip (text key : str) :
  exists c,
    disruptive_transposition_encrypt shuffle text key = Ok c
    /\ len c = len text
    /\ disruptive_transposition_decrypt shuffle c key = Ok text.
Proof.
  destruct (disruptive_encrypt_cells text key) as [c [Ec [Hlc Hc]]].
  exists c. split; [exact Ec|]. split; [unfold len; now rewrite Hlc|].
  unfold disruptive_transposition_decrypt. cbv zeta.
  set (n := List.length text) in *.
  assert (Elen : len c = Z.of_nat n) by (unfold len; lia).
  rewrite Elen.
  change (shuffle (key_seed key) (range 0 (Z.of_nat n))) with (perm_of (key_seed key) n).
  set (perm := perm_of (key_seed key) n) in *.
  destruct (perm_of_facts (key_seed key) n) as [Hlen [Hnd Hin]]. fold perm in Hlen, Hnd, Hin.
  (* the inverse permutation *)
  rewrite (foldM_ext _ (fun s (ip : Z * Z) => setitem s (snd ip) (fst ip))
                     (enumerate perm)).
  2:{ intros s [i p] _. reflexivity. }
  destruct (scatter (fun ip : Z * Z => snd ip) (fun ip => fst ip) 0 (enumerate perm)
                    (repeat 0 (Z.to_nat (Z.of_nat n))))
    as [inv [E [Hlinv [Hinv _]]]].
  { intros [i p] Hip. cbn [snd]. rewrite len_repeat, Nat2Z.id.
    apply Hin. apply (in_map snd) in Hip. rewrite map_snd_enumerate in Hip. exact Hip. }
  { rewrite map_snd_enumerate. exact Hnd. }
  rewrite E. cbn [bind]. rewrite repeat_length, Nat2Z.id in Hlinv.
  assert (Hinv' : forall i, (i < n)%nat -> nth (Z.to_nat (nth i perm 0)) inv 0 = Z.of_nat i).
  { intros i Hi. apply (Hinv (Z.of_nat i, nth i perm 0)). apply in_enumerate. lia. }
  assert (Hinv_range : forall j, (j < n)%nat -> 0 <= nth j inv 0 < Z.of_nat n).
  { intros j Hj. assert (Hjp : In (Z.of_nat j) perm) by (apply Hin; lia).
    destruct (In_nth _ _ 0 Hjp) as [i [Hi Ei]].
    specialize (Hinv' i ltac:(lia)). rewrite Ei, Nat2Z.id in Hinv'. lia. }
  assert (Hinv_nd : NoDup inv).
  { apply (NoDup_nth inv 0). intros j1 j2 H1 H2 Ej.
    assert (Hjp1 : In (Z.of_nat j1) perm) by (apply Hin; lia).
    assert (Hjp2 : In (Z.of_nat j2) perm) by (apply Hin; lia).
    destruct (In_nth _ _ 0 Hjp1) as [i1 [Hi1 Ei1]].
    destruct (In_nth _ _ 0 Hjp2) as [i2 [Hi2 Ei2]].
    pose proof (Hinv' i1 ltac:(lia)) as F1. pose proof (Hinv' i2 ltac:(lia)) as F2.
    rewrite Ei1, Nat2Z.id in F1. rewrite Ei2, Nat2Z.id in F2.
    assert (i1 = i2) by lia. subst i2. rewrite Ei1 in Ei2. lia. }
  (* the plaintext cells *)
  pose (F := fun (s : list (list Z)) (q c : Z) => setitem s q [c]).
  rewrite (foldM_ext _ (fun s (ic : Z * Z) =>
                          q <- getitem inv (fst ic) ;; F s q (snd ic))
                     (enumerate c)).
  2:{ intros s [i x] _. reflexivity. }
  rewrite foldM_enumerate_getitem by lia.
  unfold F. clear F.
  destruct (scatter (fun qc : Z * Z => fst qc) (fun qc => [snd qc]) [] (combine inv c)
                    (repeat [] (Z.to_nat (Z.of_nat n))))
    as [P [EP [HlP [HinP _]]]].
  { intros [q x] Hqx. apply in_combine_l in Hqx. cbn [fst].
    rewrite len_repeat, Nat2Z.id.
    destruct (In_nth _ _ 0 Hqx) as [j [Hj Ej]]. rewrite <- Ej. apply Hinv_range. lia. }
  { rewrite map_fst_combine; [exact Hinv_nd | lia]. }
  cbv beta in EP. rewrite EP. cbn [bind]. rewrite repeat_length, Nat2Z.id in HlP.
  f_equal. rewrite <- (concat_singletons text). f_equal.
  apply (nth_ext _ _ [] []); [rewrite length_map; exact HlP|].
  intros i Hi. rewrite HlP in Hi.
  rewrite (nth_indep (map (fun x => [x]) text) [] ((fun x => [x]) 0))
    by (rewrite length_map; exact Hi).
  rewrite (map_nth (fun x => [x])).
  assert (Hp : 0 <= nth i perm 0 < Z.of_nat n) by (apply Hin, nth_In; lia).
  set (j := Z.to_nat (nth i perm 0)).
  assert (Hj : (j < n)%nat) by (unfold j; lia).
  assert (Hmem : In (nth j inv 0, nth j c 0) (combine inv c)).
  { rewrite <- combine_nth by lia. apply nth_In. rewrite length_combine. lia. }
  specialize (HinP _ Hmem). cbn [fst snd] in HinP.
  unfold j in HinP. rewrite (Hinv' i Hi), Nat2Z.id, (Hc i Hi) in HinP. exact HinP.
Qed.
End DisruptiveRoundTrip.

(** *** Grids *)

Lemma wf_repeat {A} (x : A) (R C : nat) : wf R C (repeat (repeat x C) R).
Proof.
  split; [apply repeat_length|].
  apply Forall_forall. intros row H. apply repeat_spec in H. subst row.
  apply repeat_length.
Qed.

Lemma wf_row {A} (R C : nat) (M : list (list A)) (r : nat) :
  wf R C M -> (r < R)%nat -> List.length (nth r M []) = C.
Proof.
  intros [Hl Hf] Hr. rewrite Forall_forall in Hf. apply Hf, nth_In. lia.
Qed.

Lemma mget_ok {A} (d : A) (R C : nat) (M : list (list A)) (r c : Z) :
  wf R C M -> 0 <= r < Z.of_nat R -> 0 <= c < Z.of_nat C ->
  mget M r c = Ok (cell d M r c).
Proof.
  intros H Hr Hc. unfold mget, cell.
  rewrite (getitem_nth _ _ []) by (destruct H as [Hl _]; unfold len; lia).
  cbn [bind]. apply getitem_nth.
  unfold len. rewrite (wf_row R C) by (auto; lia). lia.
Qed.

Lemma mset_ok {A} (d : A) (R C : nat) (M : list (list A)) (r c : Z) (x : A) :
  wf R C M -> 0 <= r < Z.of_nat R -> 0 <= c < Z.of_nat C ->
  exists M',
    mset M r c x = Ok M' /\ wf R C M' /\ cell d M' r c = x
    /\ forall r' c', 0 <= r' -> 0 <= c' -> (r', c') <> (r, c) ->
                     cell d M' r' c' = cell d M r' c'.
Proof.
  intros H Hr Hc. pose proof H as [Hl Hf]. unfold mset.
  rewrite (getitem_nth _ _ []) by (unfold len; lia). cbn [bind].
  pose proof (wf_row R C M (Z.to_nat r) H ltac:(lia)) as Hrow.
  rewrite setitem_ok by (unfold len; lia). cbn [bind].
  rewrite setitem_ok by (unfold len; lia).
  eexists. split; [reflexivity|]. split; [|split].
  - split; [now rewrite length_update|].
    apply Forall_forall. intros row Hin.
    destruct (In_nth _ _ [] Hin) as [k [Hk Ek]]. rewrite length_update in Hk.
    destruct (Nat.eq_dec k (Z.to_nat r)) as [->|Hne].
    + rewrite nth_update_eq in Ek by lia. subst row. now rewrite length_update.
    + rewrite nth_update_neq in Ek by lia. subst row. apply (wf_row R C); auto. lia.
  - unfold cell. rewrite nth_update_eq by lia. apply nth_update_eq. lia.
  - intros r' c' Hr' Hc' Hne. unfold cell.
    destruct (Z.eq_dec r' r) as [->|Hner].
    + rewrite nth_update_eq by lia. apply nth_update_neq.
      intros E. apply Hne. f_equal. lia.
    + rewrite nth_update_neq by lia. reflexivity.
Qed.

Lemma grid_ext {A} (d : A) (R C : nat) (M M' : list (list A)) :
  wf R C M -> wf R C M' ->
  (forall r c, 0 <= r < Z.of_nat R -> 0 <= c < Z.of_nat C ->
               cell d M r c = cell d M' r c) ->
  M = M'.
Proof.
  intros H H' E. pose proof H as [Hl _]. pose proof H' as [Hl' _].
  apply (nth_ext _ _ [] []); [lia|].
  intros r Hr. apply (nth_ext _ _ d d).
  - rewrite (wf_row R C M), (wf_row R C M') by (auto; lia). reflexivity.
  - intros c Hc. rewrite (wf_row R C M) in Hc by (auto; lia).
    specialize (E (Z.of_nat r) (Z.of_nat c) ltac:(lia) ltac:(lia)).
    unfold cell in E. rewrite !Nat2Z.id in E. exact E.
Qed.

Lemma wf_map {A B} (f : A -> B) (R C : nat) (M : list (list A)) :
  wf R C M -> wf R C (map (map f) M).
Proof.
  intros [Hl Hf]. split; [now rewrite length_map|].
  apply Forall_map. eapply Forall_impl; [|exact Hf].
  intros row Hrow. cbv beta. now rewrite length_map.
Qed.

Lemma cell_map {A B} (f : A -> B) (dA : A) (dB : B) (R C : nat) (M : list (list A))
      (r c : Z) :
  wf R C M -> 0 <= r < Z.of_nat R -> 0 <= c < Z.of_nat C ->
  cell dB (map (map f) M) r c = f (cell dA M r c).
Proof.
  intros H Hr Hc. pose proof H as [Hl _]. unfold cell.
  rewrite (nth_indep _ [] (map f [])) by (rewrite length_map; lia).
  rewrite (map_nth (map f)).
  rewrite (nth_indep _ dB (f dA))
    by (rewrite length_map, (wf_row R C) by (auto; lia); lia).
  apply (map_nth f).
Qed.

Section Good.
Context {B : Type} (f : Z -> B) (dB : B) (R C : nat) (M : list (list Z)).
Hypothesis HM : wf R C M.

Lemma good_init (x : B) : good f dB R C M [] (repeat (repeat x C) R).
Proof. split; [apply wf_repeat|]. intros r c _ _ []. Qed.

(** Writing the right character keeps the decoding grid good. *)
Lemma good_write (W : list (Z * Z)) (M' : list (list B)) (r c : Z) :
  good f dB R C M W M' -> 0 <= r < Z.of_nat R -> 0 <= c < Z.of_nat C ->
  exists M'',
    mset M' r c (f (cell 0 M r c)) = Ok M'' /\ good f dB R C M (W ++ [(r, c)]) M''.
Proof.
  intros [Hwf Hc] Hr Hcc.
  destruct (mset_ok dB R C M' r c (f (cell 0 M r c)) Hwf Hr Hcc)
    as [M'' [E [Hwf' [Hnew Hold]]]].
  exists M''. split; [exact E|]. split; [exact Hwf'|].
  intros r' c' Hr' Hc' Hin.
  destruct (Z.eq_dec r' r) as [->|Hn]; [destruct (Z.eq_dec c' c) as [->|Hn]|].
  - exact Hnew.
  - rewrite Hold by (try lia; congruence). apply Hc; auto.
    apply in_app_or in Hin. destruct Hin as [Hin|[Hin|[]]]; [exact Hin|congruence].
  - rewrite Hold by (try lia; congruence). apply Hc; auto.
    apply in_app_or in Hin. destruct Hin as [Hin|[Hin|[]]]; [exact Hin|congruence].
Qed.

Lemma good_incl (W W' : list (Z * Z)) (M' : list (list B)) :
  good f dB R C M W M' -> incl W' W -> good f dB R C M W' M'.
Proof.
  intros [Hwf Hc] Hi. split; [exact Hwf|]. intros. apply Hc; auto.
Qed.

(** Once every cell is written, the decoding grid is the grid. *)
Lemma good_full (W : list (Z * Z)) (M' : list (list B)) :
  good f dB R C M W M' ->
  (forall r c, 0 <= r < Z.of_nat R -> 0 <= c < Z.of_nat C -> In (r, c) W) ->
  M' = map (map f) M.
Proof.
  intros [Hwf Hc] Hall. apply (grid_ext dB R C); [exact Hwf | now apply wf_map |].
  intros r c Hr Hcc. rewrite (cell_map f 0 dB R C) by auto.
  apply Hc; auto.
Qed.
End Good.

Lemma concat_cells (M : list (list Z)) :
  concat (concat (map (map (fun x => [x])) M)) = concat M.
Proof.
  induction M as [|row M IH]; [reflexivity|].
  cbn [map concat]. rewrite concat_app, IH. f_equal.
  induction row; cbn; congruence.
Qed.

Lemma concat_rows (M : list (list Z)) :
  concat (map (@concat Z) (map (map (fun x => [x])) M)) = concat M.
Proof.
  induction M as [|row M IH]; [reflexivity|].
  cbn [map concat]. rewrite IH. f_equal.
  induction row; cbn; congruence.
Qed.

Lemma join_cells_full (M : list (list Z)) :
  join_cells (map (map Some) M) = Ok (concat M).
Proof.
  unfold join_cells.
  assert (E : mapM (mapM (fun cell : option Z =>
                            match cell with Some c => Ok c | None => Raise TypeError end))
                   (map (map Some) M) = Ok M).
  { induction M as [|row M IH]; [reflexivity|].
    cbn [map mapM]. rewrite IH.
    assert (Er : mapM (fun cell : option Z =>
                         match cell with Some c => Ok c | None => Raise TypeError end)
                      (map Some row) = Ok row).
    { clear. induction row as [|x row IHr]; [reflexivity|].
      cbn [map mapM bind]. rewrite IHr. reflexivity. }
    rewrite Er. reflexivity. }
  rewrite E. reflexivity.
Qed.

(** *** The padded grid *)

Lemma mapM_getitem_run (a c : list Z) (b : list Z) :
  forall done : list Z,
    mapM (fun j => getitem (a ++ done ++ b ++ c) (len a + j))
         (range (len done) (len done + len b)) = Ok b.
Proof.
  induction b as [|x b IH]; intros done.
  - rewrite range_nil by (rewrite len_nil; lia). reflexivity.
  - rewrite range_cons by (rewrite len_cons; pose proof (len_nonneg b); lia).
    cbn [mapM].
    assert (Eg : getitem (a ++ done ++ (x :: b) ++ c) (len a + len done) = Ok x).
    { rewrite app_assoc. cbn [app]. apply getitem_mid. now rewrite len_app. }
    rewrite Eg. cbn [bind].
    specialize (IH (done ++ [x])).
    rewrite len_app, len_cons, len_nil, <- !app_assoc in IH. cbn [app] in IH.
    rewrite Z.add_0_r in IH.
    replace (len done + len (x :: b)) with (len done + 1 + len b) by (rewrite len_cons; lia).
    cbn [app]. rewrite IH. reflexivity.
Qed.

Lemma build_matrix_loop (C : Z) (post : list (list Z)) :
  forall (pre : list (list Z)) (l : list Z) (tail : list Z),
    Forall (fun row => len row = C) post -> List.length l = List.length post ->
    foldM (fun '(matrix, index) (_ : Z) =>
             row <- mapM (fun j => getitem (concat (pre ++ post) ++ tail) (index + j))
                         (range 0 C) ;;
             Ok (matrix ++ [row], index + C))
          l (pre, len (concat pre))
    = Ok (pre ++ post, len (concat (pre ++ post))).
Proof.
  induction post as [|row post IH]; intros pre [|i l] tail Hf Hl; cbn in Hl; try lia.
  - cbn. now rewrite app_nil_r.
  - inversion Hf as [|? ? Hrow Hf']; subst.
    cbn [foldM].
    assert (Em : mapM (fun j => getitem (concat (pre ++ row :: post) ++ tail)
                                        (len (concat pre) + j))
                      (range 0 (len row)) = Ok row).
    { pose proof (mapM_getitem_run (concat pre) (concat post ++ tail) row []) as G.
      rewrite len_nil, Z.add_0_l in G. cbn [app] in G.
      rewrite concat_app. cbn [concat]. rewrite <- !app_assoc. exact G. }
    rewrite Em. cbn [bind].
    specialize (IH (pre ++ [row]) l tail Hf' ltac:(lia)).
    rewrite <- app_assoc in IH. cbn [app] in IH.
    replace (len (concat pre) + len row) with (len (concat (pre ++ [row])))
      by (rewrite concat_app, len_app; cbn [concat]; rewrite app_nil_r; reflexivity).
    exact IH.
Qed.

Lemma build_matrix_concat (R C : nat) (M : list (list Z)) (tail : list Z) :
  wf R C M ->
  build_matrix (concat M ++ tail) (Z.of_nat R) (Z.of_nat C) = Ok M.
Proof.
  intros [Hl Hf]. unfold build_matrix.
  pose proof (build_matrix_loop (Z.of_nat C) M [] (range 0 (Z.of_nat R)) tail) as G.
  cbn [app concat] in G. change (len (@nil Z)) with 0 in G. rewrite G; [reflexivity| |].
  - eapply Forall_impl; [|exact Hf]. intros row Hrow. cbv beta in Hrow. unfold len. lia.
  - rewrite length_range. lia.
Qed.

(** A text of [R * C] characters is a grid of [R] rows of [C] cells. *)
Lemma chunk_exists (C : nat) (R : nat) :
  forall p : list Z, List.length p = (R * C)%nat ->
                     exists M, wf R C M /\ concat M = p.
Proof.
  induction R as [|R IH]; intros p Hp.
  - exists []. split; [split; [reflexivity|constructor]|].
    destruct p; [reflexivity|cbn in Hp; lia].
  - destruct (IH (skipn C p)) as [M [[Hl Hf] Ec]].
    { rewrite length_skipn. lia. }
    exists (firstn C p :: M). split; [split|].
    + cbn. lia.
    + constructor; [|exact Hf]. rewrite length_firstn. lia.
    + cbn. rewrite Ec. apply firstn_skipn.
Qed.

(** *** Stripping the filler *)

Lemma rstrip_repeat (x : Z) (k : nat) : rstrip (repeat x k) x = [].
Proof.
  induction k as [|k IH]; [reflexivity|].
  cbn [repeat rstrip]. rewrite IH, Z.eqb_refl. reflexivity.
Qed.

Lemma rstrip_pad (t : list Z) (k : nat) :
  no_trailing_X t -> rstrip (t ++ repeat (ord "X") k) (ord "X") = t.
Proof.
  induction t as [|x t IH]; intros H.
  - apply rstrip_repeat.
  - cbn [app rstrip]. destruct t as [|y t].
    + cbn [app]. rewrite rstrip_repeat.
      destruct (x =? ord "X") eqn:E; [|reflexivity].
      apply Z.eqb_eq in E. subst x. exfalso. apply (H []). reflexivity.
    + rewrite IH.
      2:{ intros t' E. apply (H (x :: t')). cbn [app]. now rewrite <- E. }
      reflexivity.
Qed.

(** *** Sorting *)

Lemma insert_sorted_perm {A} (leb : A -> A -> bool) (x : A) (l : list A) :
  Permutation (insert_sorted leb x l) (x :: l).
Proof.
  induction l as [|y l IH]; cbn; [reflexivity|].
  destruct (leb x y); [reflexivity|].
  rewrite IH. apply perm_swap.
Qed.

Lemma sorted_perm {A} (leb : A -> A -> bool) (l : list A) : Permutation (sorted leb l) l.
Proof.
  induction l as [|x l IH]; cbn; [reflexivity|].
  rewrite insert_sorted_perm. now constructor.
Qed.

Lemma map_fst_enumerate {A} (l : list A) : map fst (enumerate l) = range 0 (len l).
Proof.
  unfold enumerate. apply map_fst_combine. rewrite length_range. unfold len. lia.
Qed.

Lemma key_order_perm (key : list Z) :
  Permutation (map fst (key_order key)) (range 0 (len key)).
Proof.
  unfold key_order. rewrite <- map_fst_enumerate. apply Permutation_map, sorted_perm.
Qed.

(** *** Reading columns *)

Lemma length_concat_uniform {A B} (g : A -> list B) (n : nat) (l : list A) :
  (forall x, In x l -> List.length (g x) = n) ->
  List.length (concat (map g l)) = (List.length l * n)%nat.
Proof.
  induction l as [|x l IH]; intros H; [reflexivity|].
  cbn [map concat List.length]. rewrite length_app, H by (now left).
  rewrite IH by (intros; apply H; now right). lia.
Qed.

Lemma length_column (M : list (list Z)) (col : Z) :
  List.length (column M col) = List.length M.
Proof. unfold column. rewrite length_map, length_range. unfold len. lia. Qed.

Lemma column_rows (R C : nat) (M : list (list Z)) (col : Z) :
  wf R C M -> map (fun row => nth (Z.to_nat col) row 0) M = column M col.
Proof.
  intros [Hl _]. unfold column.
  apply (nth_ext _ _ 0 0).
  - rewrite !length_map, length_range. unfold len. lia.
  - intros k Hk. rewrite length_map in Hk.
    rewrite (nth_indep (map (fun row => nth (Z.to_nat col) row 0) M) 0
                       ((fun row => nth (Z.to_nat col) row 0) []))
      by (now rewrite length_map).
    rewrite (map_nth (fun row => nth (Z.to_nat col) row 0)).
    rewrite (nth_indep (map (fun r => cell 0 M r col) (range 0 (len M))) 0
                       ((fun r => cell 0 M r col) 0))
      by (rewrite length_map, length_range; unfold len; lia).
    rewrite (map_nth (fun r => cell 0 M r col)).
    rewrite nth_range by (unfold len; lia).
    unfold cell. rewrite Z.add_0_l, Nat2Z.id. reflexivity.
Qed.

Lemma read_column (C : nat) (col : Z) (M : list (list Z)) :
  Forall (fun row => List.length row = C) M -> 0 <= col < Z.of_nat C ->
  forall res,
    foldM (fun res row => x <- getitem row col ;; Ok (res ++ [x])) M res
    = Ok (res ++ map (fun row => nth (Z.to_nat col) row 0) M).
Proof.
  intros Hf Hc. induction Hf as [|row M Hrow Hf IH]; intros res.
  - cbn. now rewrite app_nil_r.
  - cbn [foldM map]. rewrite (getitem_nth _ _ 0) by (unfold len; lia).
    cbn [bind]. rewrite IH, <- app_assoc. reflexivity.
Qed.

Lemma read_columns (R C : nat) (M : list (list Z)) (order : list (Z * Z)) :
  wf R C M -> (forall col, In col (map fst order) -> 0 <= col < Z.of_nat C) ->
  forall res,
    foldM (fun res '(col_index, _) =>
             foldM (fun res row => x <- getitem row col_index ;; Ok (res ++ [x]))
                   M res)
          order res
    = Ok (res ++ concat (map (column M) (map fst order))).
Proof.
  intros HM. induction order as [|[col ch] order IH]; intros Hc res.
  - cbn. now rewrite app_nil_r.
  - cbn [foldM map fst concat].
    rewrite (read_column C) by (try apply HM; apply Hc; now left).
    cbn [bind]. rewrite IH by (intros; apply Hc; now right).
    rewrite (column_rows R C) by exact HM. now rewrite <- app_assoc.
Qed.

(** *** The size of the padded grid *)

Lemma grid_rows (n C : Z) :
  0 <= n -> 0 < C ->
  0 <= (n + C - 1) / C /\ n <= (n + C - 1) / C * C.
Proof.
  intros Hn HC.
  pose proof (Z.mul_div_le (n + C - 1) C HC).
  pose proof (Z.mul_succ_div_gt (n + C - 1) C HC).
  assert (0 <= (n + C - 1) / C) by (apply Z.div_pos; lia).
  split; nia.
Qed.

Lemma padded_grid (text key : list Z) (q : Z) :
  key <> [] -> q = (len text + len key - 1) / len key ->
  exists M,
    wf (Z.to_nat q) (List.length key) M
    /\ concat M = text ++ repeat (ord "X") (Z.to_nat (q * len key - len text))
    /\ build_matrix (ljust text (q * len key) (ord "X")) q (len key) = Ok M.
Proof.
  intros Hk Eq.
  assert (HC : 0 < len key).
  { destruct key; [congruence|]. rewrite len_cons. pose proof (len_nonneg key). lia. }
  destruct (grid_rows (len text) (len key) (len_nonneg text) HC) as [Hq Hn].
  rewrite <- Eq in Hq, Hn.
  destruct (chunk_exists (List.length key) (Z.to_nat q) (ljust text (q * len key) (ord "X")))
    as [M [HM EM]].
  { unfold ljust. rewrite length_app, repeat_length. unfold len in *. nia. }
  exists M. split; [exact HM|]. split; [exact EM|].
  rewrite <- EM. rewrite <- (app_nil_r (concat M)).
  replace q with (Z.of_nat (Z.to_nat q)) at 1 by lia.
  unfold len at 1. apply build_matrix_concat. exact HM.
Qed.

(** *** Columnar transposition *)

Lemma columnar_encrypt_columns (text key : list Z) :
  key <> [] ->
  exists (R : nat) (M : list (list Z)),
    wf R (List.length key) M
    /\ concat M = text ++ repeat (ord "X") (Z.to_nat (Z.of_nat R * len key - len text))
    /\ columnar_transposition_encrypt text key
       = Ok (concat (map (column M) (map fst (key_order key)))).
Proof.
  intros Hk. unfold columnar_transposition_encrypt.
  assert (HC : 0 < len key).
  { destruct key; [congruence|]. rewrite len_cons. pose proof (len_nonneg key). lia. }
  unfold floordiv. replace (len key =? 0) with false by (symmetry; apply Z.eqb_neq; lia).
  cbn [bind].
  set (q := (len text + len key - 1) / len key).
  destruct (padded_grid text key q Hk eq_refl) as [M [HM [EM EB]]].
  destruct (grid_rows (len text) (len key) (len_nonneg text) HC) as [Hq _]. fold q in Hq.
  exists (Z.to_nat q), M. split; [exact HM|]. split.
  - rewrite Z2Nat.id by exact Hq. exact EM.
  - rewrite EB. cbn [bind].
    rewrite (read_columns (Z.to_nat q) (List.length key)); [reflexivity|exact HM|].
    intros col Hcol.
    apply (Permutation_in _ (key_order_perm key)) in Hcol. apply in_range in Hcol.
    unfold len in Hcol. lia.
Qed.

Lemma in_column_cells (R : nat) (cols : list Z) (r c : Z) :
  In (r, c) (column_cells R cols) <-> In c cols /\ 0 <= r < Z.of_nat R.
Proof.
  unfold column_cells. rewrite in_flat_map. split.
  - intros [col [Hcol Hin]]. apply in_map_iff in Hin. destruct Hin as [r' [E Hr]].
    inversion E; subst. apply in_range in Hr. auto.
  - intros [Hc Hr]. exists c. split; [exact Hc|].
    apply in_map_iff. exists r. split; [reflexivity|]. apply in_range. lia.
Qed.

Lemma columnar_decrypt_columns (R : nat) (M : list (list Z)) (key extra : list Z) :
  key <> [] -> wf R (List.length key) M -> len extra < len key ->
  columnar_transposition_decrypt
    (concat (map (column M) (map fst (key_order key))) ++ extra) key
  = Ok (rstrip (concat M) (ord "X")).
Proof.
  intros Hk HM Hextra. pose proof HM as [HlM _].
  set (C := List.length key) in *.
  set (order := key_order key).
  set (c := concat (map (column M) (map fst order)) ++ extra).
  assert (HC : 0 < len key).
  { destruct key; [congruence|]. rewrite len_cons. pose proof (len_nonneg key). lia. }
  assert (Hcols : forall col, In col (map fst order) <-> 0 <= col < Z.of_nat C).
  { intros col. rewrite <- in_range. fold (len key). split; intros H.
    - exact (Permutation_in _ (key_order_perm key) H).
    - exact (Permutation_in _ (Permutation_sym (key_order_perm key)) H). }
  assert (Hlc : len c = Z.of_nat R * len key + len extra).
  { unfold c. rewrite len_app. f_equal. unfold len.
    rewrite (length_concat_uniform _ R).
    - rewrite length_map.
      pose proof (Permutation_length (key_order_perm key)) as Hp.
      rewrite length_map, length_range in Hp. fold order in Hp. unfold len in Hp. lia.
    - intros col _. now rewrite length_column. }
  unfold columnar_transposition_decrypt, floordiv.
  replace (len key =? 0) with false by (symmetry; apply Z.eqb_neq; lia).
  cbn [bind]. fold order. fold c.
  rewrite Hlc.
  replace ((Z.of_nat R * len key + len extra) / len key) with (Z.of_nat R)
    by (apply (Z.div_unique_pos _ _ _ (len extra));
        [pose proof (len_nonneg extra); lia | ring]).
  rewrite !Nat2Z.id. fold (len key). 
  change (Z.to_nat (len key)) with (Z.to_nat (Z.of_nat C)). rewrite Nat2Z.id.
  set (sing := fun x : Z => [x]).
  destruct (foldM_invariant
              (fun st '(col_index, _) =>
                 foldM (fun '(matrix, index) r =>
                          x <- getitem c index ;;
                          matrix <- mset matrix r col_index [x] ;;
                          Ok (matrix, index + 1))
                       (range 0 (Z.of_nat R)) st)
              (fun pre st =>
                 good sing [] R C M (column_cells R (map fst pre)) (fst st)
                 /\ snd st = len (concat (map (column M) (map fst pre))))
              order (repeat (repeat [] C) R, 0))
    as [[M' index'] [E [HG _]]].
  - split; [apply good_init | reflexivity].
  - intros pre [col ch] post [M1 index1] Eo [HG1 Hi1]. cbn [fst snd] in HG1, Hi1.
    assert (Hcol : 0 <= col < Z.of_nat C).
    { apply Hcols. fold order. rewrite Eo, map_app. apply in_or_app. right. now left. }
    set (cpre := concat (map (column M) (map fst pre))) in *.
    set (cpost := concat (map (column M) (map fst post)) ++ extra).
    assert (Ec : c = cpre ++ column M col ++ cpost).
    { unfold c, cpost. fold order. rewrite Eo, map_app, map_app, concat_app.
      cbn [map fst concat]. now rewrite <- !app_assoc. }
    destruct (foldM_invariant
                (fun '(matrix, index) r =>
                   x <- getitem c index ;;
                   matrix <- mset matrix r col [x] ;;
                   Ok (matrix, index + 1))
                (fun rpre st =>
                   good sing [] R C M
                        (column_cells R (map fst pre) ++ map (fun r => (r, col)) rpre)
                        (fst st)
                   /\ snd st = len cpre + len rpre)
                (range 0 (Z.of_nat R)) (M1, index1))
      as [[M2 index2] [E2 [HG2 Hi2]]].
    + cbn [fst snd map]. rewrite app_nil_r, len_nil. split; [exact HG1|lia].
    + intros rpre r rpost [M3 index3] Er [HG3 Hi3]. cbn [fst snd] in HG3, Hi3.
      assert (Hr : 0 <= r < Z.of_nat R).
      { apply (in_range 0 (Z.of_nat R)). rewrite Er. apply in_or_app. right. now left. }
      assert (Eg : getitem c index3 = Ok (cell 0 M r col)).
      { rewrite Ec. unfold column. replace (len M) with (Z.of_nat R) by (unfold len; lia).
        rewrite Er, map_app. cbn [map]. rewrite <- app_assoc, app_assoc. cbn [app].
        apply getitem_mid. rewrite len_app, len_map. exact Hi3. }
      rewrite Eg. cbn [bind].
      destruct (good_write sing [] R C M _ M3 r col HG3 Hr Hcol) as [M4 [E4 HG4]].
      unfold sing in E4 at 1. rewrite E4. cbn [bind].
      eexists. split; [reflexivity|]. cbn [fst snd]. split.
      * rewrite map_app, app_assoc. exact HG4.
      * rewrite len_app, len_cons, len_nil. lia.
    + cbn [fst snd] in HG2, Hi2. exists (M2, index2). split; [exact E2|].
      cbn [fst snd]. split.
      * rewrite map_app. unfold column_cells in *. rewrite flat_map_app.
        cbn [map fst flat_map]. rewrite app_nil_r. exact HG2.
      * rewrite map_app, map_app, concat_app. cbn [map fst concat].
        rewrite app_nil_r, len_app. fold cpre. rewrite Hi2. f_equal.
        unfold len. rewrite length_range, length_column. lia.
  - rewrite E. cbn [bind fst] in *. 
    rewrite (good_full sing [] R C M HM _ M' HG).
    + unfold sing. rewrite concat_cells. reflexivity.
    + intros r col Hr Hcol. apply in_column_cells. split; [|exact Hr].
      now apply Hcols.
Qed.

Lemma columnar_roundtrip (text key : list Z) :
  key <> [] -> no_trailing_X text ->
  exists c,
    columnar_transposition_encrypt text key = Ok c
    /\ columnar_transposition_decrypt c key = Ok text.
Proof.
  intros Hk Hx.
  destruct (columnar_encrypt_columns text key Hk) as [R [M [HM [EM E]]]].
  eexists. split; [exact E|].
  rewrite <- (app_nil_r (concat _)).
  rewrite (columnar_decrypt_columns R M key [] Hk HM), EM, rstrip_pad; auto.
  destruct key; [congruence|]. rewrite len_cons. pose proof (len_nonneg key).
  change (len (@nil Z)) with 0. lia.
Qed.

Lemma len_columns (R : nat) (M : list (list Z)) (key : list Z) :
  wf R (List.length key) M ->
  len (concat (map (column M) (map fst (key_order key)))) = Z.of_nat R * len key.
Proof.
  intros [HlM _]. unfold len. rewrite (length_concat_uniform _ R).
  - rewrite length_map.
    pose proof (Permutation_length (key_order_perm key)) as Hp.
    rewrite length_map, length_range in Hp. unfold len in Hp. lia.
  - intros col _. now rewrite length_column.
Qed.


Lemma in_range_down (a b x : Z) : In x (range_down a b) <-> b < x <= a.
Proof.
  unfold range_down. rewrite in_map_iff. split.
  - intros [k [<- Hk]]. apply in_seq in Hk. lia.
  - intros H. exists (Z.to_nat (a - x)). split; [lia|].
    apply in_seq. lia.
Qed.

Lemma foldM_map {A B S} (f : S -> B -> result S) (g : A -> B) (l : list A) (s : S) :
  foldM f (map g l) s = foldM (fun s x => f s (g x)) l s.
Proof.
  revert s. induction l as [|x l IH]; intros s; cbn; [reflexivity|].
  destruct (f s (g x)); cbn; auto.
Qed.

(** *** The spiral *)

Section SpiralFacts.
Context {S : Type} (visit : Z -> Z -> S -> result S).

Lemma spiral_foldM (fuel : nat) :
  forall (top bottom left right : Z) (s : S),
    (Z.to_nat (bottom - top + 1) <= fuel)%nat ->
    spiral visit fuel top bottom left right s
    = foldM (fun s p => visit (fst p) (snd p) s)
            (spiral_cells fuel top bottom left right) s.
Proof.
  induction fuel as [|fuel IH]; intros top bottom left right s Hf.
  - cbn [spiral spiral_cells].
    destruct ((top <=? bottom) && (left <=? right)) eqn:E; [|reflexivity].
    apply andb_true_iff in E. rewrite Z.leb_le in E. lia.
  - cbn [spiral spiral_cells].
    destruct ((top <=? bottom) && (left <=? right)) eqn:E; [|reflexivity].
    cbv zeta. rewrite foldM_app, foldM_map. cbn [fst snd].
    destruct (foldM (fun s i => visit top i s) (range left (right + 1)) s) as [s1|e];
      cbn [bind]; [|reflexivity].
    rewrite foldM_app, foldM_map. cbn [fst snd].
    destruct (foldM (fun s i => visit i right s) (range (top + 1) (bottom + 1)) s1)
      as [s2|e]; cbn [bind]; [|reflexivity].
    rewrite foldM_app.
    destruct (top + 1 <=? bottom) eqn:E1.
    + rewrite foldM_map. cbn [fst snd].
      destruct (foldM (fun s i => visit bottom i s)
                      (range_down (right - 1) (left - 1)) s2) as [s3|e];
        cbn [bind]; [|reflexivity].
      rewrite foldM_app.
      destruct (left <=? right - 1) eqn:E2.
      * rewrite foldM_map. cbn [fst snd].
        destruct (foldM (fun s i => visit i left s)
                        (range_down (bottom - 1) (top + 1 - 1)) s3) as [s4|e];
          cbn [bind]; [|reflexivity].
        apply IH. lia.
      * cbn [foldM bind]. apply IH. lia.
    + cbn [foldM bind]. rewrite foldM_app.
      destruct (left <=? right - 1) eqn:E2.
      * rewrite foldM_map. cbn [fst snd].
        destruct (foldM (fun s i => visit i left s)
                        (range_down bottom (top + 1 - 1)) s2) as [s4|e];
          cbn [bind]; [|reflexivity].
        apply IH. lia.
      * cbn [foldM bind]. apply IH. lia.
Qed.
End SpiralFacts.

(** The spiral stays inside the rectangle... *)
Lemma spiral_cells_inside (fuel : nat) :
  forall (top bottom left right i j : Z),
    In (i, j) (spiral_cells fuel top bottom left right) ->
    top <= i <= bottom /\ left <= j <= right.
Proof.
  induction fuel as [|fuel IH]; intros top bottom left right i j H; cbn [spiral_cells] in H.
  - destruct ((top <=? bottom) && (left <=? right)); destruct H.
  - destruct ((top <=? bottom) && (left <=? right)) eqn:E; [|destruct H].
    apply andb_true_iff in E. rewrite !Z.leb_le in E. cbv zeta in H.
    repeat (apply in_app_or in H; destruct H as [H|H]).
    + apply in_map_iff in H. destruct H as [k [Ek Hk]]. inversion Ek; subst.
      apply in_range in Hk. lia.
    + apply in_map_iff in H. destruct H as [k [Ek Hk]]. inversion Ek; subst.
      apply in_range in Hk. lia.
    + destruct (top + 1 <=? bottom) eqn:E1; [|destruct H].
      apply Z.leb_le in E1.
      apply in_map_iff in H. destruct H as [k [Ek Hk]]. inversion Ek; subst.
      apply in_range_down in Hk. lia.
    + destruct (left <=? right - 1) eqn:E2; [|destruct H].
      apply Z.leb_le in E2.
      apply in_map_iff in H. destruct H as [k [Ek Hk]]. inversion Ek; subst.
      apply in_range_down in Hk.
      destruct (top + 1 <=? bottom) eqn:E1;
        [apply Z.leb_le in E1 | apply Z.leb_gt in E1]; lia.
    + apply IH in H.
      destruct (top + 1 <=? bottom) eqn:E1;
        [apply Z.leb_le in E1 | apply Z.leb_gt in E1];
        (destruct (left <=? right - 1) eqn:E2;
         [apply Z.leb_le in E2 | apply Z.leb_gt in E2]); lia.
Qed.

(** ... and visits every cell of it. *)
Lemma spiral_cells_cover (fuel : nat) :
  forall (top bottom left right i j : Z),
    (Z.to_nat (bottom - top + 1) <= fuel)%nat ->
    top <= i <= bottom -> left <= j <= right ->
    In (i, j) (spiral_cells fuel top bottom left right).
Proof.
  induction fuel as [|fuel IH]; intros top bottom left right i j Hf Hi Hj.
  - lia.
  - cbn [spiral_cells].
    replace ((top <=? bottom) && (left <=? right)) with true
      by (symmetry; apply andb_true_iff; rewrite !Z.leb_le; lia).
    cbv zeta.
    destruct (Z.eq_dec i top) as [->|Hit].
    { apply in_or_app. left. apply in_map_iff. exists j. split; [reflexivity|].
      apply in_range. lia. }
    apply in_or_app. right.
    destruct (Z.eq_dec j right) as [->|Hjr].
    { apply in_or_app. left. apply in_map_iff. exists i. split; [reflexivity|].
      apply in_range. lia. }
    apply in_or_app. right.
    replace (top + 1 <=? bottom) with true by (symmetry; apply Z.leb_le; lia).
    replace (left <=? right - 1) with true by (symmetry; apply Z.leb_le; lia).
    destruct (Z.eq_dec i bottom) as [->|Hib].
    { apply in_or_app. left. apply in_map_iff. exists j. split; [reflexivity|].
      apply in_range_down. lia. }
    apply in_or_app. right.
    destruct (Z.eq_dec j left) as [->|Hjl].
    { apply in_or_app. left. apply in_map_iff. exists i. split; [reflexivity|].
      apply in_range_down. lia. }
    apply in_or_app. right.
    apply IH; lia.
Qed.

(** *** Reading and writing along a list of cells *)

Lemma read_cells (R C : nat) (M : list (list Z)) (ps : list (Z * Z)) :
  wf R C M ->
  (forall p, In p ps -> 0 <= fst p < Z.of_nat R /\ 0 <= snd p < Z.of_nat C) ->
  forall res,
    foldM (fun res p => x <- mget M (fst p) (snd p) ;; Ok (res ++ [x])) ps res
    = Ok (res ++ map (fun p => cell 0 M (fst p) (snd p)) ps).
Proof.
  intros HM. induction ps as [|p ps IH]; intros Hp res.
  - cbn. now rewrite app_nil_r.
  - cbn [foldM map]. destruct (Hp p (or_introl eq_refl)) as [Hr Hc].
    rewrite (mget_ok 0 R C) by auto. cbn [bind].
    rewrite IH by (intros; apply Hp; now right). now rewrite <- app_assoc.
Qed.

Lemma write_cells {B} (f : Z -> B) (dB : B) (R C : nat) (M : list (list Z))
      (ps : list (Z * Z)) :
  wf R C M ->
  (forall p, In p ps -> 0 <= fst p < Z.of_nat R /\ 0 <= snd p < Z.of_nat C) ->
  forall (psuf ppre : list (Z * Z)) (W : list (Z * Z)) (M' : list (list B)),
    ps = ppre ++ psuf -> good f dB R C M W M' ->
    exists M'',
      foldM (fun st p =>
               x <- getitem (map (fun p => cell 0 M (fst p) (snd p)) ps) (snd st) ;;
               matrix <- mset (fst st) (fst p) (snd p) (f x) ;;
               Ok (matrix, snd st + 1))
            psuf (M', len ppre)
      = Ok (M'', len ps)
      /\ good f dB R C M (W ++ psuf) M''.
Proof.
  intros HM Hp. induction psuf as [|p psuf IH]; intros ppre W M' E HG.
  - exists M'. rewrite app_nil_r in *. subst ppre. split; [reflexivity|exact HG].
  - cbn [foldM fst snd].
    assert (Eg : getitem (map (fun p => cell 0 M (fst p) (snd p)) ps) (len ppre)
                 = Ok (cell 0 M (fst p) (snd p))).
    { rewrite E, map_app. cbn [map]. apply getitem_mid. now rewrite len_map. }
    rewrite Eg. cbn [bind].
    destruct (Hp p) as [Hr Hc]; [rewrite E; apply in_or_app; right; now left|].
    destruct (good_write f dB R C M W M' (fst p) (snd p) HG Hr Hc) as [M1 [E1 HG1]].
    rewrite E1. cbn [bind].
    destruct (IH (ppre ++ [p]) (W ++ [(fst p, snd p)]) M1) as [M'' [E2 HG2]].
    + rewrite <- app_assoc. exact E.
    + exact HG1.
    + replace (len (ppre ++ [p])) with (len ppre + 1) in E2
        by (rewrite len_app; reflexivity).
      exists M''. split; [exact E2|].
      rewrite <- app_assoc in HG2. cbn [app] in HG2.
      rewrite <- surjective_pairing in HG2. exact HG2.
Qed.

(** *** Route cipher *)

Lemma route_roundtrip (text : list Z) (rows cols : Z) :
  1 <= rows -> 1 <= cols -> len text <= rows * cols ->
  exists c,
    route_cipher_encrypt text rows cols = Ok c
    /\ route_cipher_decrypt c rows cols = Ok (ljust text (rows * cols) (ord "X"))
    /\ len (ljust text (rows * cols) (ord "X")) = rows * cols.
Proof.
  intros Hr Hc Hl.
  set (R := Z.to_nat rows). set (C := Z.to_nat cols).
  set (padded := ljust text (rows * cols) (ord "X")).
  assert (Hlp : List.length padded = (R * C)%nat).
  { unfold padded, ljust. rewrite length_app, repeat_length. unfold len in *. nia. }
  destruct (chunk_exists C R padded Hlp) as [M [HM EM]].
  set (ps := spiral_cells (laps rows) 0 (rows - 1) 0 (cols - 1)).
  assert (Hfuel : (Z.to_nat (rows - 1 - 0 + 1) <= laps rows)%nat) by (unfold laps; lia).
  assert (Hps : forall p, In p ps -> 0 <= fst p < Z.of_nat R /\ 0 <= snd p < Z.of_nat C).
  { intros [i j] Hin. apply spiral_cells_inside in Hin. cbn [fst snd]. lia. }
  assert (Hcover : forall r c, 0 <= r < Z.of_nat R -> 0 <= c < Z.of_nat C -> In (r, c) ps).
  { intros r c Hrr Hcc. apply spiral_cells_cover; [exact Hfuel|lia|lia]. }
  exists (map (fun p => cell 0 M (fst p) (snd p)) ps). split; [|split].
  - unfold route_cipher_encrypt. cbv zeta. fold padded.
    rewrite <- EM at 1. rewrite <- (app_nil_r (concat M)).
    replace rows with (Z.of_nat R) at 1 by lia.
    replace cols with (Z.of_nat C) at 1 by lia.
    rewrite build_matrix_concat by exact HM. cbn [bind].
    rewrite spiral_foldM by exact Hfuel. fold ps.
    rewrite (read_cells R C) by auto. reflexivity.
  - unfold route_cipher_decrypt. cbv zeta. fold R C.
    rewrite (spiral_foldM
               (fun r c '(matrix, index) =>
                  x <- getitem (map (fun p => cell 0 M (fst p) (snd p)) ps) index ;;
                  matrix <- mset matrix r c (Some x) ;;
                  Ok (matrix, index + 1))) by exact Hfuel.
    fold ps.
    rewrite (foldM_ext _ (fun st p =>
               x <- getitem (map (fun p => cell 0 M (fst p) (snd p)) ps) (snd st) ;;
               matrix <- mset (fst st) (fst p) (snd p) (Some x) ;;
               Ok (matrix, snd st + 1))).
    2:{ intros [matrix index] p _. reflexivity. }
    destruct (write_cells Some None R C M ps HM Hps ps [] [] (repeat (repeat None C) R)
                          eq_refl (good_init Some None R C M None))
      as [M'' [E HG]].
    change (len (@nil (Z * Z))) with 0 in E. rewrite E. cbn [bind].
    rewrite (good_full Some None R C M HM _ M'' HG) by (intros; now apply Hcover).
    rewrite join_cells_full, EM. reflexivity.
  - fold padded. unfold len. rewrite Hlp. lia.
Qed.

(** *** Dictionaries, continued *)

Lemma fold_left_invariant {A S} (f : S -> A -> S) (I : list A -> S -> Prop)
      (l : list A) (s0 : S) :
  I [] s0 ->
  (forall pre x post s, l = pre ++ x :: post -> I pre s -> I (pre ++ [x]) (f s x)) ->
  I l (fold_left f l s0).
Proof.
  intros H0 Hstep.
  assert (G : forall post pre s, l = pre ++ post -> I pre s -> I l (fold_left f post s)).
  { induction post as [|x post IH]; intros pre s El HI.
    - rewrite app_nil_r in El. now subst pre.
    - cbn [fold_left]. apply (IH (pre ++ [x])).
      + rewrite <- app_assoc. exact El.
      + eapply Hstep; eauto. }
  apply (G l [] s0); auto.
Qed.

Lemma keys_dict_set {V} (d : dict V) (k : Z) (v : V) (x : Z) :
  In x (keys (dict_set d k v)) <-> x = k \/ In x (keys d).
Proof.
  unfold keys. induction d as [|[k0 v0] d IH]; cbn.
  - intuition.
  - destruct (k =? k0) eqn:E; cbn.
    + apply Z.eqb_eq in E. subst k0. intuition.
    + rewrite IH. intuition.
Qed.

Lemma NoDup_keys_dict_set {V} (d : dict V) (k : Z) (v : V) :
  NoDup (keys d) -> NoDup (keys (dict_set d k v)).
Proof.
  unfold keys. induction d as [|[k0 v0] d IH]; cbn; intros H.
  - constructor; [tauto|constructor].
  - apply NoDup_cons_iff in H. destruct H as [Hn H].
    destruct (k =? k0) eqn:E; cbn.
    + apply Z.eqb_eq in E. subst k0. now constructor.
    + constructor; [|now apply IH].
      intros Hin. apply (keys_dict_set d k v k0) in Hin.
      apply Z.eqb_neq in E. destruct Hin as [Hin|Hin]; [congruence|tauto].
Qed.

Lemma dict_get_keys {V} (d : dict V) (k : Z) :
  In k (keys d) -> exists v, dict_get d k = Ok v.
Proof.
  unfold keys. induction d as [|[k0 v0] d IH]; cbn; [tauto|].
  intros H. destruct (k =? k0) eqn:E; [eauto|].
  apply Z.eqb_neq in E. destruct H as [H|H]; [congruence|auto].
Qed.

(** *** The letter groups of a key *)

Lemma idxs_app (letter : Z) (a b : list (Z * Z)) :
  idxs letter (a ++ b) = idxs letter a ++ idxs letter b.
Proof. unfold idxs. now rewrite filter_app, map_app. Qed.

Lemma key_groups_inv (key : list Z) :
  let g := key_groups key in
  (forall letter, cols_of g letter = idxs letter (enumerate key))
  /\ (forall letter, In letter (keys g) <-> In letter key)
  /\ NoDup (keys g).
Proof.
  unfold key_groups.
  assert (G : (fun pre g =>
                 (forall letter, cols_of g letter = idxs letter pre)
                 /\ (forall letter, In letter (keys g) <-> In letter (map snd pre))
                 /\ NoDup (keys g))
                (enumerate key)
                (fold_left
                   (fun groups '(idx, letter) =>
                      let cols := match dict_get groups letter with
                                  | Ok cols => cols
                                  | Raise _ => []
                                  end in
                      dict_set groups letter (cols ++ [idx]))
                   (enumerate key) [])).
  { apply fold_left_invariant.
    - cbn. repeat split; try tauto. constructor.
    - intros pre [idx l] post g E [H1 [H2 H3]]. cbv zeta. split; [|split].
      + intros letter. unfold cols_of at 1. rewrite dict_get_set, idxs_app.
        unfold idxs at 2. cbn [filter snd].
        destruct (letter =? l) eqn:El.
        * apply Z.eqb_eq in El. subst l. rewrite Z.eqb_refl. cbn [map fst].
          f_equal. apply (H1 letter).
        * rewrite Z.eqb_sym, El. cbn [map]. rewrite app_nil_r. apply (H1 letter).
      + intros letter. rewrite keys_dict_set, map_app, in_app_iff, H2. cbn. intuition.
      + now apply NoDup_keys_dict_set. }
  cbv beta in G. destruct G as [H1 [H2 H3]]. split; [exact H1|]. split; [|exact H3].
  intros letter. rewrite H2, map_snd_enumerate. reflexivity.
Qed.

Lemma in_idxs (letter : Z) (key : list Z) (c : Z) :
  In c (idxs letter (enumerate key)) <->
  0 <= c < len key /\ nth (Z.to_nat c) key 0 = letter.
Proof.
  unfold idxs. rewrite in_map_iff. split.
  - intros [[i x] [Ei Hin]]. cbn in Ei. subst i.
    apply filter_In in Hin. destruct Hin as [Hin Hx]. cbn in Hx. apply Z.eqb_eq in Hx.
    destruct (In_nth _ _ (0, 0) Hin) as [k [Hk Ek]].
    rewrite length_enumerate in Hk. rewrite nth_enumerate in Ek by exact Hk.
    inversion Ek; subst. rewrite Nat2Z.id. unfold len. split; [lia|reflexivity].
  - intros [Hc E]. exists (c, letter). split; [reflexivity|].
    apply filter_In. split; [|cbn; apply Z.eqb_refl].
    rewrite <- E. replace c with (Z.of_nat (Z.to_nat c)) at 1 by lia.
    apply in_enumerate. unfold len in Hc. lia.
Qed.

(** Every column belongs to exactly one letter. *)
Lemma length_idxs_sum (l : list (Z * Z)) (letters : list Z) :
  NoDup letters -> (forall p, In p l -> In (snd p) letters) ->
  List.length (concat (map (fun letter => idxs letter l) letters)) = List.length l.
Proof.
  intros Hnd. induction l as [|[i x] l IH]; intros Hin.
  - clear. induction letters; cbn; auto.
  - cbn [List.length]. rewrite <- IH by (intros; apply Hin; now right).
    assert (Hx : In x letters) by (apply (Hin (i, x)); now left).
    clear IH Hin. induction letters as [|a letters IHl]; [destruct Hx|].
    apply NoDup_cons_iff in Hnd. destruct Hnd as [Hna Hnd].
    cbn [map concat]. rewrite !length_app.
    unfold idxs at 1. cbn [filter snd].
    destruct (x =? a) eqn:E.
    + apply Z.eqb_eq in E. subst a. cbn [map List.length].
      assert (Hrest : map (fun letter => idxs letter ((i, x) :: l)) letters
                      = map (fun letter => idxs letter l) letters).
      { apply map_ext_in. intros b Hb. unfold idxs. cbn [filter snd].
        destruct (x =? b) eqn:E'; [|reflexivity].
        apply Z.eqb_eq in E'. subst b. tauto. }
      rewrite Hrest. unfold idxs at 2. lia.
    + apply Z.eqb_neq in E. destruct Hx as [Hx|Hx]; [congruence|].
      rewrite (IHl Hnd Hx). unfold idxs at 2. lia.
Qed.

Lemma key_letters (key : list Z) :
  let groups := key_groups key in
  let letters := sorted Z.leb (keys groups) in
  (forall letter, In letter letters ->
                  dict_get groups letter = Ok (idxs letter (enumerate key)))
  /\ (forall c, 0 <= c < len key ->
                exists letter, In letter letters /\ In c (idxs letter (enumerate key)))
  /\ List.length (concat (map (fun letter => idxs letter (enumerate key)) letters))
     = List.length key.
Proof.
  cbv zeta. destruct (key_groups_inv key) as [H1 [H2 H3]]. cbv zeta in H1, H2, H3.
  pose proof (sorted_perm Z.leb (keys (key_groups key))) as P.
  split; [|split].
  - intros letter Hin. apply (Permutation_in _ P) in Hin.
    destruct (dict_get_keys _ _ Hin) as [v Hv].
    rewrite Hv. f_equal. rewrite <- H1. unfold cols_of. now rewrite Hv.
  - intros c Hc. exists (nth (Z.to_nat c) key 0). split.
    + apply (Permutation_in _ (Permutation_sym P)). apply H2. apply nth_In.
      unfold len in Hc. lia.
    + apply in_idxs. auto.
  - rewrite length_idxs_sum.
    + apply length_enumerate.
    + eapply Permutation_NoDup; [apply Permutation_sym; exact P | exact H3].
    + intros p Hp. apply (Permutation_in _ (Permutation_sym P)). apply H2.
      rewrite <- (map_snd_enumerate key). now apply in_map.
Qed.

(** *** Slices *)

Lemma skipn_len_app {A} (a b : list A) : skipn (List.length a) (a ++ b) = b.
Proof. induction a; cbn; auto. Qed.

Lemma firstn_len_app {A} (a b : list A) : firstn (List.length a) (a ++ b) = a.
Proof. induction a; cbn; congruence. Qed.

Lemma slice_mid {A} (a b c : list A) (x y : Z) :
  x = len a -> y = len a + len b -> slice (a ++ b ++ c) x y = b.
Proof.
  intros -> ->. unfold slice, clamp. rewrite !len_app.
  pose proof (len_nonneg a). pose proof (len_nonneg b). pose proof (len_nonneg c).
  replace (len a <? 0) with false by (symmetry; apply Z.ltb_ge; lia).
  replace (len a + len b <? 0) with false by (symmetry; apply Z.ltb_ge; lia).
  replace (Z.max 0 (Z.min (len a + (len b + len c)) (len a))) with (len a) by lia.
  replace (Z.max 0 (Z.min (len a + (len b + len c)) (len a + len b)))
    with (len a + len b) by lia.
  replace (len a + len b - len a) with (len b) by lia.
  unfold len. rewrite !Nat2Z.id, skipn_len_app. apply firstn_len_app.
Qed.

Lemma slice_prefix {A} (a b : list A) (y : Z) : y = len a -> slice (a ++ b) 0 y = a.
Proof.
  intros ->. apply (slice_mid [] a b); [reflexivity|]. change (len (@nil A)) with 0. lia.
Qed.

Lemma slice_suffix {A} (a b : list A) (x y : Z) :
  x = len a -> y = len (a ++ b) -> slice (a ++ b) x y = b.
Proof.
  intros -> ->. pose proof (slice_mid a b [] (len a) (len a + len b) eq_refl eq_refl) as G.
  rewrite app_nil_r in G. rewrite len_app. exact G.
Qed.

Lemma range_split (a b x : Z) (pre post : list Z) :
  range a b = pre ++ x :: post -> x = a + len pre /\ a <= x < b.
Proof.
  intros E.
  assert (Hin : In x (range a b)) by (rewrite E; apply in_or_app; right; now left).
  apply in_range in Hin. split; [|exact Hin].
  assert (Hl : (List.length pre < Z.to_nat (b - a))%nat).
  { rewrite <- length_range, E, length_app. cbn. lia. }
  pose proof (nth_range a b (List.length pre) 0 Hl) as Hn.
  rewrite E, app_nth2, Nat.sub_diag in Hn by lia. cbn in Hn. exact Hn.
Qed.

Lemma range_app (a b c : Z) : a <= b <= c -> range a c = range a b ++ range b c.
Proof.
  intros H. unfold range.
  replace (Z.to_nat (c - a)) with (Z.to_nat (b - a) + Z.to_nat (c - b))%nat by lia.
  rewrite seq_app, map_app. f_equal. cbn [Nat.add].
  generalize (Z.to_nat (c - b)) as n. intros n.
  apply (nth_ext _ _ 0 0); [now rewrite !length_map, !length_seq|].
  intros k Hk. rewrite length_map, length_seq in Hk.
  rewrite (nth_indep _ 0 ((fun k => a + Z.of_nat k) 0%nat))
    by (now rewrite length_map, length_seq).
  rewrite (map_nth (fun k => a + Z.of_nat k)), seq_nth by exact Hk.
  rewrite (nth_indep _ 0 ((fun k => b + Z.of_nat k) 0%nat))
    by (now rewrite length_map, length_seq).
  rewrite (map_nth (fun k => b + Z.of_nat k)), seq_nth by exact Hk. lia.
Qed.

(** *** Reading and writing a letter group *)

Lemma length_flat_map_uniform {A B} (g : A -> list B) (n : nat) (l : list A) :
  (forall x, List.length (g x) = n) ->
  List.length (flat_map g l) = (List.length l * n)%nat.
Proof.
  intros H. induction l as [|x l IH]; [reflexivity|].
  cbn [flat_map List.length]. rewrite length_app, H, IH. lia.
Qed.

Lemma len_block (R C : nat) (M : list (list Z)) (cols : list Z) :
  wf R C M -> len (block M cols) = Z.of_nat R * len cols.
Proof.
  intros [Hl _]. unfold block, len.
  rewrite (length_flat_map_uniform _ (List.length cols))
    by (intros; apply length_map).
  rewrite length_range. lia.
Qed.

Lemma read_row (R C : nat) (M : list (list Z)) (r : Z) (cols : list Z) :
  wf R C M -> 0 <= r < Z.of_nat R -> (forall col, In col cols -> 0 <= col < Z.of_nat C) ->
  forall res,
    foldM (fun res col => x <- mget M r col ;; Ok (res ++ [x])) cols res
    = Ok (res ++ map (fun col => cell 0 M r col) cols).
Proof.
  intros HM Hr. induction cols as [|col cols IH]; intros Hc res.
  - cbn. now rewrite app_nil_r.
  - cbn [foldM map]. rewrite (mget_ok 0 R C) by (auto; apply Hc; now left).
    cbn [bind]. rewrite IH by (intros; apply Hc; now right). now rewrite <- app_assoc.
Qed.

Lemma read_block (R C : nat) (M : list (list Z)) (cols : list Z) (rs : list Z) :
  wf R C M -> (forall col, In col cols -> 0 <= col < Z.of_nat C) ->
  (forall r, In r rs -> 0 <= r < Z.of_nat R) ->
  forall res,
    foldM (fun res r =>
             foldM (fun res col => x <- mget M r col ;; Ok (res ++ [x])) cols res)
          rs res
    = Ok (res ++ flat_map (fun r => map (fun col => cell 0 M r col) cols) rs).
Proof.
  intros HM Hc. induction rs as [|r rs IH]; intros Hr res.
  - cbn. now rewrite app_nil_r.
  - cbn [foldM flat_map]. rewrite (read_row R C) by (auto; apply Hr; now left).
    cbn [bind]. rewrite IH by (intros; apply Hr; now right). now rewrite <- app_assoc.
Qed.

Lemma read_single (R C : nat) (M : list (list Z)) (col : Z) (rs : list Z) :
  wf R C M -> 0 <= col < Z.of_nat C ->
  (forall r, In r rs -> 0 <= r < Z.of_nat R) ->
  forall res,
    foldM (fun res r => x <- mget M r col ;; Ok (res ++ [x])) rs res
    = Ok (res ++ flat_map (fun r => map (fun col => cell 0 M r col) [col]) rs).
Proof.
  intros HM Hc. induction rs as [|r rs IH]; intros Hr res.
  - cbn. now rewrite app_nil_r.
  - cbn [foldM flat_map map]. rewrite (mget_ok 0 R C) by (auto; apply Hr; now left).
    cbn [bind]. rewrite IH by (intros; apply Hr; now right).
    rewrite <- app_assoc. reflexivity.
Qed.

Lemma singleton_of_len {A} (l : list A) : len l = 1 -> exists x, l = [x].
Proof.
  destruct l as [|x [|y l]]; unfold len; cbn; intros H; try lia. eauto.
Qed.

(** *** Myszkowski transposition *)

Section Myszkowski.
Variables (key : list Z) (R : nat) (M : list (list Z)).
Hypothesis HM : wf R (List.length key) M.
Hypothesis Hkey : key <> [].

Local Abbreviation groups := (key_groups key).
Local Abbreviation letters := (sorted_letters key).
Local Abbreviation colsL := (letter_cols key).
Local Abbreviation seg := (letter_block M key).

Lemma colsL_range (letter col : Z) :
  In col (colsL letter) -> 0 <= col < Z.of_nat (List.length key).
Proof. intros H. apply in_idxs in H. unfold len in H. lia. Qed.

Lemma groups_get (letter : Z) :
  In letter letters -> dict_get groups letter = Ok (colsL letter).
Proof. intros H. now apply (key_letters key). Qed.

Lemma myszkowski_read (letter : Z) (res : list Z) :
  In letter letters ->
  (cols <- dict_get groups letter ;;
   if len cols =? 1 then
     col <- getitem cols 0 ;;
     foldM (fun res r => x <- mget M r col ;; Ok (res ++ [x]))
           (range 0 (Z.of_nat R)) res
   else
     foldM (fun res r =>
              foldM (fun res col => x <- mget M r col ;; Ok (res ++ [x])) cols res)
           (range 0 (Z.of_nat R)) res)
  = Ok (res ++ seg letter).
Proof.
  intros Hin. rewrite (groups_get letter Hin). cbn [bind].
  pose proof HM as [HlM _].
  assert (Hr : forall r, In r (range 0 (Z.of_nat R)) -> 0 <= r < Z.of_nat R)
    by (intros r; apply in_range).
  unfold letter_block, block. replace (len M) with (Z.of_nat R) by (unfold len; lia).
  destruct (len (colsL letter) =? 1) eqn:E.
  - apply Z.eqb_eq in E. destruct (singleton_of_len _ E) as [col Ecol].
    rewrite Ecol. rewrite (getitem_nth _ _ 0) by (unfold len; cbn; lia).
    cbn [bind nth Z.to_nat].
    apply (read_single R (List.length key)); auto.
    apply (colsL_range letter). rewrite Ecol. now left.
  - apply (read_block R (List.length key)); auto.
    intros col. apply colsL_range.
Qed.

Lemma myszkowski_encrypt_loop (ls : list Z) :
  (forall letter, In letter ls -> In letter letters) ->
  forall res,
    foldM (fun res letter =>
             cols <- dict_get groups letter ;;
             if len cols =? 1 then
               col <- getitem cols 0 ;;
               foldM (fun res r => x <- mget M r col ;; Ok (res ++ [x]))
                     (range 0 (Z.of_nat R)) res
             else
               foldM (fun res r =>
                        foldM (fun res col => x <- mget M r col ;; Ok (res ++ [x]))
                              cols res)
                     (range 0 (Z.of_nat R)) res)
          ls res
    = Ok (res ++ concat (map seg ls)).
Proof.
  induction ls as [|letter ls IH]; intros Hin res.
  - cbn. now rewrite app_nil_r.
  - cbn [foldM]. rewrite myszkowski_read by (apply Hin; now left). cbn [bind].
    rewrite IH by (intros; apply Hin; now right).
    cbn [map concat]. now rewrite <- app_assoc.
Qed.

Lemma len_ciphertext :
  len (concat (map seg letters)) = Z.of_nat R * len key.
Proof.
  destruct (key_letters key) as [_ [_ Hsum]]. cbv zeta in Hsum.
  fold (sorted_letters key) in Hsum. fold (letter_cols key) in Hsum.
  unfold len at 2. rewrite <- Hsum. clear Hsum.
  induction letters as [|letter ls IH]; [cbn; lia|].
  cbn [map concat]. rewrite len_app, IH, length_app, Nat2Z.inj_add.
  unfold letter_block. rewrite (len_block R (List.length key)) by exact HM.
  unfold letter_cols, len. lia.
Qed.

(** Writing one row of a letter group. *)
Lemma write_row (r : Z) (cols : list Z) :
  0 <= r < Z.of_nat R ->
  (forall col, In col cols -> 0 <= col < Z.of_nat (List.length key)) ->
  forall (W : list (Z * Z)) (M' : list (list (list Z))),
    good (fun x => [x]) [] R (List.length key) M W M' ->
    exists M'',
      foldM (fun matrix col => mset matrix r col [cell 0 M r col]) cols M' = Ok M''
      /\ good (fun x => [x]) [] R (List.length key) M
              (W ++ map (fun col => (r, col)) cols) M''.
Proof.
  intros Hr. induction cols as [|col cols IH]; intros Hc W M' HG.
  - exists M'. cbn. rewrite app_nil_r. auto.
  - cbn [foldM map].
    destruct (good_write (fun x => [x]) [] R (List.length key) M W M' r col HG Hr)
      as [M1 [E1 HG1]]; [apply Hc; now left|].
    cbv beta in E1. rewrite E1. cbn [bind].
    destruct (IH (fun c H => Hc c (or_intror H)) _ M1 HG1) as [M'' [E2 HG2]].
    exists M''. split; [exact E2|]. now rewrite <- app_assoc in HG2.
Qed.

Lemma chunk_of_block (cols : list Z) (r : Z) :
  0 <= r < Z.of_nat R ->
  slice (block M cols) (r * len cols) ((r + 1) * len cols)
  = map (fun col => cell 0 M r col) cols.
Proof.
  intros Hr. pose proof HM as [HlM _].
  unfold block. replace (len M) with (Z.of_nat R) by (unfold len; lia).
  rewrite (range_app 0 r (Z.of_nat R)) by lia.
  rewrite (range_cons r) by lia. rewrite flat_map_app. cbn [flat_map].
  apply slice_mid.
  - unfold len. rewrite (length_flat_map_uniform _ (List.length cols))
      by (intros; apply length_map).
    rewrite length_range. lia.
  - unfold len. rewrite (length_flat_map_uniform _ (List.length cols))
      by (intros; apply length_map).
    rewrite length_range, length_map. lia.
Qed.

Lemma getitem_column (col r : Z) :
  0 <= r < Z.of_nat R ->
  getitem (block M [col]) r = Ok (cell 0 M r col).
Proof.
  intros Hr. pose proof HM as [HlM _].
  unfold block. replace (len M) with (Z.of_nat R) by (unfold len; lia).
  rewrite (range_app 0 r (Z.of_nat R)) by lia.
  rewrite (range_cons r) by lia. rewrite flat_map_app. cbn [flat_map map app].
  apply getitem_mid. unfold len.
  rewrite (length_flat_map_uniform _ 1%nat) by reflexivity.
  rewrite length_range. lia.
Qed.

Lemma combine_map_l {A B} (g : A -> B) (l : list A) :
  combine (map g l) l = map (fun x => (g x, x)) l.
Proof. induction l; cbn; congruence. Qed.

Lemma myszkowski_decrypt_grid :
  myszkowski_decrypt (concat (map seg letters)) key
  = Ok (rstrip (concat M) (ord "X")).
Proof.
  pose proof HM as [HlM _].
  assert (HC : 0 < len key).
  { destruct key; [congruence|]. rewrite len_cons. pose proof (len_nonneg l). lia. }
  unfold myszkowski_decrypt, floordiv.
  replace (len key =? 0) with false by (symmetry; apply Z.eqb_neq; lia).
  cbn [bind]. rewrite len_ciphertext, Z.div_mul by lia. cbv zeta.
  fold (sorted_letters key). rewrite Nat2Z.id.
  change (Z.to_nat (len key)) with (Z.to_nat (Z.of_nat (List.length key))).
  rewrite Nat2Z.id.
  set (c := concat (map seg letters)).
  (* cutting the ciphertext into the letter groups *)
  match goal with
  | |- context [foldM ?f letters ?s] =>
      destruct (foldM_invariant f
                  (fun pre st =>
                     c = concat (map seg pre) ++ snd st
                     /\ forall letter, In letter pre ->
                                       dict_get (fst st) letter = Ok (seg letter))
                  letters s) as [[gc rem] [E1 [_ Hgc]]]
  end.
  { split; [reflexivity|]. intros letter []. }
  { intros pre x post [gc rem] El [Ec Hgc]. cbn [fst snd] in Ec, Hgc.
    assert (Hx : In x letters) by (rewrite El; apply in_or_app; right; now left).
    rewrite (groups_get x Hx). cbn [bind].
    assert (Erem : rem = seg x ++ concat (map seg post)).
    { unfold c in Ec. rewrite El, map_app, concat_app in Ec. cbn [map concat] in Ec.
      apply app_inv_head in Ec. now symmetry. }
    assert (Elen : len (seg x) = Z.of_nat R * len (colsL x)).
    { unfold letter_block. apply (len_block R (List.length key)). exact HM. }
    assert (Eboth : forall length, length = len (seg x) ->
              @Ok (dict (list Z) * list Z)
                  (dict_set gc x (slice rem 0 length), slice rem length (len rem))
              = Ok (dict_set gc x (seg x), concat (map seg post))).
    { intros length ->. rewrite Erem.
      rewrite slice_prefix by reflexivity. rewrite slice_suffix by reflexivity.
      reflexivity. }
    destruct (len (colsL x) =? 1) eqn:E.
    - apply Z.eqb_eq in E. rewrite Eboth by lia.
      eexists. split; [reflexivity|]. cbn [fst snd]. split.
      + rewrite map_app, concat_app. cbn [map concat].
        rewrite app_nil_r, <- app_assoc, <- Erem. exact Ec.
      + intros letter Hl. rewrite dict_get_set.
        destruct (letter =? x) eqn:Elx; [apply Z.eqb_eq in Elx; now subst|].
        apply Hgc. apply in_app_or in Hl. destruct Hl as [Hl|[Hl|[]]]; [exact Hl|].
        subst. rewrite Z.eqb_refl in Elx. discriminate.
    - rewrite Eboth by lia.
      eexists. split; [reflexivity|]. cbn [fst snd]. split.
      + rewrite map_app, concat_app. cbn [map concat].
        rewrite app_nil_r, <- app_assoc, <- Erem. exact Ec.
      + intros letter Hl. rewrite dict_get_set.
        destruct (letter =? x) eqn:Elx; [apply Z.eqb_eq in Elx; now subst|].
        apply Hgc. apply in_app_or in Hl. destruct Hl as [Hl|[Hl|[]]]; [exact Hl|].
        subst. rewrite Z.eqb_refl in Elx. discriminate. }
  rewrite E1. cbn [bind fst] in *.
  (* filling the grid *)
  match goal with
  | |- context [foldM ?f letters ?s] =>
      destruct (foldM_invariant f
                  (fun pre M' =>
                     good (fun x => [x]) [] R (List.length key) M
                          (flat_map (fun letter => block_cells R (colsL letter)) pre) M')
                  letters s) as [M' [E2 HG]]
  end.
  { apply good_init. }
  { intros pre x post M1 El HG1.
    assert (Hx : In x letters) by (rewrite El; apply in_or_app; right; now left).
    rewrite (groups_get x Hx). cbn [bind].
    rewrite flat_map_app. cbn [flat_map]. rewrite app_nil_r. unfold block_cells at 2.
    set (W0 := flat_map (fun letter => block_cells R (colsL letter)) pre) in *.
    destruct (len (colsL x) =? 1) eqn:E.
    - apply Z.eqb_eq in E. destruct (singleton_of_len _ E) as [col Ecol].
      assert (Hcol : 0 <= col < Z.of_nat (List.length key)).
      { apply (colsL_range x). rewrite Ecol. now left. }
      rewrite Ecol. rewrite (getitem_nth _ _ 0) by (unfold len; cbn; lia).
      cbn [bind nth Z.to_nat]. rewrite (Hgc x Hx). cbn [bind].
      unfold letter_block. rewrite Ecol.
      match goal with
      | |- context [foldM ?f ?l M1] =>
          destruct (foldM_invariant f
                      (fun rpre M' =>
                         good (fun x => [x]) [] R (List.length key) M
                              (W0 ++ flat_map (fun r => map (fun c => (r, c)) [col]) rpre)
                              M')
                      l M1) as [M2 [E3 HG3]]
      end.
      + cbn [flat_map]. rewrite app_nil_r. exact HG1.
      + intros rpre r rpost M3 Er HG3.
        destruct (range_split _ _ _ _ _ Er) as [_ Hr].
        rewrite (getitem_column col r) by lia. cbn [bind].
        destruct (good_write (fun x => [x]) [] R (List.length key) M _ M3 r col HG3)
          as [M4 [E4 HG4]]; [lia|exact Hcol|].
        cbv beta in E4. rewrite E4. exists M4. split; [reflexivity|].
        rewrite flat_map_app. cbn [flat_map map]. rewrite app_nil_r, app_assoc.
        exact HG4.
      + exists M2. split; [exact E3 | exact HG3].
    - rewrite (Hgc x Hx). cbn [bind]. cbv zeta.
      match goal with
      | |- context [foldM ?f ?l M1] =>
          destruct (foldM_invariant f
                      (fun rpre M' =>
                         good (fun x => [x]) [] R (List.length key) M
                              (W0 ++ flat_map (fun r => map (fun c => (r, c)) (colsL x))
                                              rpre)
                              M')
                      l M1) as [M2 [E3 HG3]]
      end.
      + cbn [flat_map]. rewrite app_nil_r. exact HG1.
      + intros rpre r rpost M3 Er HG3.
        destruct (range_split _ _ _ _ _ Er) as [_ Hr].
        unfold letter_block. rewrite (chunk_of_block (colsL x) r) by lia.
        pose (F := fun (s : list (list (list Z))) (v col : Z) => mset s r col [v]).
        rewrite (foldM_ext _ (fun s (ic : Z * Z) =>
                                v <- getitem (map (fun col => cell 0 M r col) (colsL x))
                                             (fst ic) ;;
                                F s v (snd ic))).
        2:{ intros s [j col] _. reflexivity. }
        rewrite foldM_enumerate_getitem by apply length_map.
        unfold F. clear F. rewrite combine_map_l, foldM_map. cbn [fst snd].
        destruct (write_row r (colsL x) ltac:(lia) (colsL_range x) _ M3 HG3)
          as [M4 [E4 HG4]].
        rewrite E4. exists M4. split; [reflexivity|].
        rewrite flat_map_app. cbn [flat_map]. rewrite app_nil_r, app_assoc.
        exact HG4.
      + exists M2. split; [exact E3 | exact HG3]. }
  rewrite E2. cbn [bind].
  rewrite (good_full (fun x => [x]) [] R (List.length key) M HM _ M' HG).
  - rewrite concat_rows. reflexivity.
  - intros r col Hr Hcol.
    destruct (key_letters key) as [_ [Hcov _]]. cbv zeta in Hcov.
    destruct (Hcov col ltac:(unfold len; lia)) as [letter [Hl Hc]].
    apply in_flat_map. exists letter. split; [exact Hl|].
    unfold block_cells. apply in_flat_map. exists r. split; [apply in_range; lia|].
    apply in_map_iff. exists col. split; [reflexivity | exact Hc].
Qed.
End Myszkowski.

Lemma myszkowski_roundtrip (text key : list Z) :
  key <> [] -> no_trailing_X text ->
  exists c,
    myszkowski_encrypt text key = Ok c /\ myszkowski_decrypt c key = Ok text.
Proof.
  intros Hk Hx.
  assert (HC : 0 < len key).
  { destruct key; [congruence|]. rewrite len_cons. pose proof (len_nonneg key). lia. }
  set (q := (len text + len key - 1) / len key).
  destruct (padded_grid text key q Hk eq_refl) as [M [HM [EM EB]]].
  destruct (grid_rows (len text) (len key) (len_nonneg text) HC) as [Hq _]. fold q in Hq.
  exists (concat (map (letter_block M key) (sorted_letters key))).
  split.
  - unfold myszkowski_encrypt, floordiv.
    replace (len key =? 0) with false by (symmetry; apply Z.eqb_neq; lia).
    cbn [bind]. fold q. cbv zeta. rewrite EB. cbn [bind].
    pose proof (myszkowski_encrypt_loop key (Z.to_nat q) M HM
                  (sorted_letters key) (fun _ H => H) []) as G.
    rewrite Z2Nat.id in G by exact Hq. exact G.
  - rewrite (myszkowski_decrypt_grid key (Z.to_nat q) M HM Hk).
    rewrite EM, rstrip_pad by exact Hx. reflexivity.
Qed.

Ltac zb :=
  repeat match goal with
    | H : (_ && _) = true |- _ => apply andb_true_iff in H; destruct H
    | H : (_ || _) = false |- _ => apply orb_false_iff in H; destruct H
    | H : negb _ = true |- _ => apply negb_true_iff in H
    | H : negb _ = false |- _ => apply negb_false_iff in H
    | H : (_ <=? _) = true |- _ => apply Z.leb_le in H
    | H : (_ <=? _) = false |- _ => apply Z.leb_gt in H
    | H : (_ <? _) = true |- _ => apply Z.ltb_lt in H
    | H : (_ <? _) = false |- _ => apply Z.ltb_ge in H
    | H : (_ =? _) = true |- _ => apply Z.eqb_eq in H
    | H : (_ =? _) = false |- _ => apply Z.eqb_neq in H
    end.

(** Decide the comparisons of the goal one after the other. *)
Ltac zcases :=
  repeat match goal with
    | |- context [?a <=? ?b] => destruct (Z.leb_spec a b); cbn [andb orb negb]
    | |- context [?a <? ?b] => destruct (Z.ltb_spec a b); cbn [andb orb negb]
    | |- context [?a =? ?b] => destruct (Z.eqb_spec a b); cbn [andb orb negb]
    end.

(** *** Case mapping on ASCII text *)

Lemma upper_char_ascii (c : Z) : 0 <= c < 128 -> upper_char c = [up c].
Proof. intros H. unfold upper_char, up. zcases; try reflexivity; lia. Qed.

Lemma upper_ascii (t : list Z) : is_ascii t -> upper t = map up t.
Proof.
  unfold upper. induction 1 as [|c t Hc Ht IH]; [reflexivity|].
  cbn [flat_map map]. rewrite upper_char_ascii, IH by exact Hc. reflexivity.
Qed.

Lemma up_range (c : Z) : 0 <= c < 128 -> 0 <= up c < 128 /\ ~ (97 <= up c <= 122).
Proof. intros H. unfold up. zcases; lia. Qed.

Lemma is_ascii_map (f : Z -> Z) (t : list Z) :
  (forall c, 0 <= c < 128 -> 0 <= f c < 128) -> is_ascii t -> is_ascii (map f t).
Proof.
  intros Hf. unfold is_ascii. induction 1; cbn; constructor; auto.
Qed.

(** *** The letter-by-letter loop *)

Lemma subst_loop (P : Z -> bool) (g : Z -> Z) (text acc : list Z) :
  fold_left (fun res c => if P c then res ++ [g c] else res ++ [c]) text acc
  = acc ++ map (fun c => if P c then g c else c) text.
Proof.
  revert acc. induction text as [|c text IH]; intros acc; cbn [fold_left map].
  - now rewrite app_nil_r.
  - destruct (P c); rewrite IH, <- app_assoc; reflexivity.
Qed.

Lemma sub_point (g h : Z -> Z) (c : Z) :
  (forall u, 65 <= u <= 90 -> 65 <= g u <= 90 /\ h (g u) = u) ->
  0 <= c < 128 ->
  0 <= sub g (up c) < 128 /\ sub h (up (sub g (up c))) = up c.
Proof.
  intros Hgh Hc. destruct (up_range c Hc) as [Hu Hnl].
  unfold sub, is_AZ. change (ord "A") with 65. change (ord "Z") with 90.
  destruct ((65 <=? up c) && (up c <=? 90)) eqn:E; zb.
  - destruct (Hgh (up c) ltac:(lia)) as [Hg Hh].
    assert (Eu : up (g (up c)) = g (up c)) by (unfold up at 1; zcases; lia).
    rewrite Eu.
    replace ((65 <=? g (up c)) && (g (up c) <=? 90)) with true
      by (symmetry; apply andb_true_iff; rewrite !Z.leb_le; lia).
    split; [lia | exact Hh].
  - assert (Eu : up (up c) = up c) by (unfold up at 1; zcases; lia).
    rewrite Eu, E. split; [lia | reflexivity].
Qed.

Lemma subst_roundtrip (g h : Z -> Z) (text : list Z) :
  is_ascii text ->
  (forall u, 65 <= u <= 90 -> 65 <= g u <= 90 /\ h (g u) = u) ->
  map (sub h) (upper (map (sub g) (upper text))) = upper text.
Proof.
  intros Ha Hgh. rewrite (upper_ascii text Ha).
  assert (Ha' : is_ascii (map (sub g) (map up text))).
  { rewrite map_map. unfold is_ascii in *. rewrite Forall_forall in *.
    intros x Hx. apply in_map_iff in Hx. destruct Hx as [c [<- Hc]].
    apply (sub_point g h c Hgh (Ha c Hc)). }
  rewrite (upper_ascii _ Ha'), !map_map.
  apply map_ext_in. intros c Hc.
  unfold is_ascii in Ha. rewrite Forall_forall in Ha.
  apply (sub_point g h c Hgh (Ha c Hc)).
Qed.

(** *** Additive, multiplicative and affine ciphers *)

Lemma additive_encrypt_map (text : list Z) (key : Z) :
  additive_encrypt text key
  = map (sub (fun c => (c - 65 + key) mod 26 + 65)) (upper text).
Proof. exact (subst_loop _ _ (upper text) []). Qed.

Lemma additive_roundtrip (text : list Z) (key : Z) :
  is_ascii text -> additive_decrypt (additive_encrypt text key) key = upper text.
Proof.
  intros Ha. unfold additive_decrypt. rewrite (additive_encrypt_map _ (- key)).
  rewrite additive_encrypt_map. apply subst_roundtrip; [exact Ha|].
  intros u Hu. pose proof (Z.mod_pos_bound (u - 65 + key) 26 ltac:(lia)).
  split; [lia|].
  replace ((u - 65 + key) mod 26 + 65 - 65 + - key) with ((u - 65 + key) mod 26 - key) by lia.
  rewrite Zminus_mod_idemp_l. replace (u - 65 + key - key) with (u - 65) by lia.
  rewrite Z.mod_small by lia. lia.
Qed.

Lemma mul_inverse_point (key inverse u : Z) :
  (key * inverse) mod 26 = 1 -> 65 <= u <= 90 ->
  65 <= ((u - 65) * key) mod 26 + 65 <= 90
  /\ ((((u - 65) * key) mod 26 + 65 - 65) * inverse) mod 26 + 65 = u.
Proof.
  intros Hinv Hu. pose proof (Z.mod_pos_bound ((u - 65) * key) 26 ltac:(lia)).
  split; [lia|].
  replace (((u - 65) * key) mod 26 + 65 - 65) with (((u - 65) * key) mod 26) by lia.
  rewrite Z.mul_mod_idemp_l by lia.
  replace ((u - 65) * key * inverse) with ((u - 65) * (key * inverse)) by ring.
  rewrite <- Z.mul_mod_idemp_r, Hinv, Z.mul_1_r, Z.mod_small by lia. lia.
Qed.

Lemma multiplicative_roundtrip (text : list Z) (key : Z) :
  is_ascii text -> Z.gcd key 26 = 1 ->
  multiplicative_decrypt (snd (multiplicative_encrypt text key)) key
  = ([], Ok (upper text)).
Proof.
  intros Ha Hg. unfold multiplicative_encrypt, multiplicative_decrypt.
  rewrite Hg. cbn [Z.eqb Pos.eqb negb snd].
  destruct (mod_inv_some key 26 ltac:(lia) Hg) as [inverse [E [_ Hinv]]].
  rewrite E. cbv zeta. do 2 f_equal.
  change (ord "A") with 65.
  rewrite (subst_loop is_AZ (fun c => ((c - 65) * key) mod 26 + 65) (upper text) []).
  rewrite (subst_loop is_AZ (fun c => ((c - 65) * inverse) mod 26 + 65) _ []).
  cbn [app].
  apply (subst_roundtrip (fun c => ((c - 65) * key) mod 26 + 65)
                         (fun c => ((c - 65) * inverse) mod 26 + 65)); [exact Ha|].
  intros u Hu. now apply mul_inverse_point.
Qed.

Lemma affine_inverse_point (a b inverse u : Z) :
  (a * inverse) mod 26 = 1 -> 65 <= u <= 90 ->
  65 <= (a * (u - 65) + b) mod 26 + 65 <= 90
  /\ (inverse * ((a * (u - 65) + b) mod 26 + 65 - 65 - b)) mod 26 + 65 = u.
Proof.
  intros Hinv Hu. pose proof (Z.mod_pos_bound (a * (u - 65) + b) 26 ltac:(lia)).
  split; [lia|].
  replace ((a * (u - 65) + b) mod 26 + 65 - 65 - b)
    with ((a * (u - 65) + b) mod 26 - b) by lia.
  rewrite <- Z.mul_mod_idemp_r, Zminus_mod_idemp_l by lia.
  replace (a * (u - 65) + b - b) with (a * (u - 65)) by lia.
  rewrite Z.mul_mod_idemp_r by lia.
  replace (inverse * (a * (u - 65))) with ((u - 65) * (a * inverse)) by ring.
  rewrite <- Z.mul_mod_idemp_r, Hinv, Z.mul_1_r, Z.mod_small by lia. lia.
Qed.

Lemma affine_roundtrip (text : list Z) (a b : Z) :
  is_ascii text -> Z.gcd a 26 = 1 ->
  affine_decrypt (snd (affine_encrypt text a b)) a b = ([], Ok (upper text)).
Proof.
  intros Ha Hg. unfold affine_encrypt, affine_decrypt.
  rewrite Hg. cbn [Z.eqb Pos.eqb negb snd].
  destruct (mod_inv_some a 26 ltac:(lia) Hg) as [inverse [E [_ Hinv]]].
  rewrite E. cbv zeta. do 2 f_equal.
  rewrite (subst_loop is_AZ (fun c => (a * (c - 65) + b) mod 26 + 65) (upper text) []).
  rewrite (subst_loop is_AZ (fun c => (inverse * (c - 65 - b)) mod 26 + 65) _ []).
  cbn [app].
  apply (subst_roundtrip (fun c => (a * (c - 65) + b) mod 26 + 65)
                         (fun c => (inverse * (c - 65 - b)) mod 26 + 65)); [exact Ha|].
  intros u Hu. now apply affine_inverse_point.
Qed.

(** *** Hill cipher *)

Lemma range2_nil (a b : Z) : b <= a -> range2 a b = [].
Proof.
  intros H. unfold range2.
  assert ((b - a + 1) / 2 <= 0).
  { apply Z.lt_succ_r. apply Z.div_lt_upper_bound; lia. }
  replace (Z.to_nat ((b - a + 1) / 2)) with 0%nat by lia. reflexivity.
Qed.

Lemma range2_cons (a b : Z) : a < b -> range2 a b = a :: range2 (a + 2) b.
Proof.
  intros H. unfold range2.
  replace (b - a + 1) with ((b - (a + 2) + 1) + 1 * 2) by lia.
  rewrite Z.div_add by lia.
  assert (0 <= (b - (a + 2) + 1) / 2) by (apply Z.div_pos; lia).
  replace (Z.to_nat ((b - (a + 2) + 1) / 2 + 1))
    with (S (Z.to_nat ((b - (a + 2) + 1) / 2))) by lia.
  cbn [seq map]. f_equal; [lia|].
  rewrite <- seq_shift, map_map. apply map_ext. intros k. lia.
Qed.

Lemma mget_2x2 (m00 m01 m10 m11 : Z) :
  mget [[m00; m01]; [m10; m11]] 0 0 = Ok m00
  /\ mget [[m00; m01]; [m10; m11]] 0 1 = Ok m01
  /\ mget [[m00; m01]; [m10; m11]] 1 0 = Ok m10
  /\ mget [[m00; m01]; [m10; m11]] 1 1 = Ok m11.
Proof. repeat split. Qed.

Lemma hill_pairs_map (m00 m01 m10 m11 : Z) (text : list Z) (n : nat) :
  forall (suf pre res : list Z),
    text = pre ++ suf -> List.length suf = (2 * n)%nat ->
    foldM (fun res i =>
             let pair := slice text i (i + 2) in
             p0 <- getitem pair 0 ;;
             p1 <- getitem pair 1 ;;
             let v0 := p0 - 65 in
             let v1 := p1 - 65 in
             k00 <- mget [[m00; m01]; [m10; m11]] 0 0 ;;
             k01 <- mget [[m00; m01]; [m10; m11]] 0 1 ;;
             let num1 := (k00 * v0 + k01 * v1) mod 26 in
             k10 <- mget [[m00; m01]; [m10; m11]] 1 0 ;;
             k11 <- mget [[m00; m01]; [m10; m11]] 1 1 ;;
             let num2 := (k10 * v0 + k11 * v1) mod 26 in
             Ok (res ++ [num1 + 65] ++ [num2 + 65]))
          (range2 (len pre) (len text)) res
    = Ok (res ++ hill_map m00 m01 m10 m11 suf).
Proof.
  match goal with |- context [foldM ?f _ _] => set (body := f) end.
  induction n as [|n IH]; intros suf pre res Et Hl.
  - destruct suf; [|cbn in Hl; lia].
    rewrite range2_nil by (rewrite Et, app_nil_r; lia). cbn. now rewrite app_nil_r.
  - destruct suf as [|a [|b suf]]; cbn in Hl; try lia.
    rewrite range2_cons
      by (rewrite Et, len_app, !len_cons; pose proof (len_nonneg suf); lia).
    cbn [foldM]. unfold body at 1. cbv beta zeta.
    assert (Es : slice text (len pre) (len pre + 2) = [a; b]).
    { rewrite Et. apply (slice_mid pre [a; b] suf); reflexivity. }
    rewrite Es.
    change (getitem [a; b] 0) with (Ok a). change (getitem [a; b] 1) with (Ok b).
    cbn [bind].
    destruct (mget_2x2 m00 m01 m10 m11) as [G00 [G01 [G10 G11]]].
    rewrite G00. cbn [bind]. rewrite G01. cbn [bind].
    rewrite G10. cbn [bind]. rewrite G11. cbn [bind].
    specialize (IH suf (pre ++ [a; b])
                   (res ++ [(m00 * (a - 65) + m01 * (b - 65)) mod 26 + 65]
                        ++ [(m10 * (a - 65) + m11 * (b - 65)) mod 26 + 65])).
    replace (len (pre ++ [a; b])) with (len pre + 2) in IH
      by (rewrite len_app; reflexivity).
    rewrite IH.
    + cbn [hill_map]. rewrite <- !app_assoc. reflexivity.
    + rewrite Et, <- app_assoc. reflexivity.
    + lia.
Qed.

Lemma hill_pairs_even (m00 m01 m10 m11 : Z) (t : list Z) :
  Z.even (len t) = true ->
  hill_pairs [[m00; m01]; [m10; m11]] t = Ok (hill_map m00 m01 m10 m11 t).
Proof.
  intros He. apply Z.even_spec in He. destruct He as [k Hk].
  exact (hill_pairs_map m00 m01 m10 m11 t (Z.to_nat k) t [] [] eq_refl
                        ltac:(unfold len in Hk; lia)).
Qed.

Lemma hill_map_even (m00 m01 m10 m11 : Z) (n : nat) :
  forall t, List.length t = (2 * n)%nat ->
            List.length (hill_map m00 m01 m10 m11 t) = (2 * n)%nat
            /\ Forall (fun c => 65 <= c <= 90) (hill_map m00 m01 m10 m11 t).
Proof.
  induction n as [|n IH]; intros t Hl.
  - destruct t; [|cbn in Hl; lia]. cbn. auto.
  - destruct t as [|a [|b t]]; cbn in Hl; try lia.
    destruct (IH t ltac:(lia)) as [IH1 IH2]. cbn [hill_map List.length].
    split; [lia|].
    pose proof (Z.mod_pos_bound (m00 * (a - 65) + m01 * (b - 65)) 26 ltac:(lia)).
    pose proof (Z.mod_pos_bound (m10 * (a - 65) + m11 * (b - 65)) 26 ltac:(lia)).
    repeat constructor; try lia. exact IH2.
Qed.

(** The adjugate times the inverse of the determinant undoes the matrix. *)
Lemma hill_inverse_point (k00 k01 k10 k11 inv_det v0 v1 : Z) :
  (((k00 * k11 - k01 * k10) mod 26) * inv_det) mod 26 = 1 ->
  0 <= v0 < 26 -> 0 <= v1 < 26 ->
  (((k11 * inv_det) mod 26) * ((k00 * v0 + k01 * v1) mod 26)
   + ((- k01 * inv_det) mod 26) * ((k10 * v0 + k11 * v1) mod 26)) mod 26 = v0
  /\ (((- k10 * inv_det) mod 26) * ((k00 * v0 + k01 * v1) mod 26)
      + ((k00 * inv_det) mod 26) * ((k10 * v0 + k11 * v1) mod 26)) mod 26 = v1.
Proof.
  intros Hinv H0 H1. rewrite Z.mul_mod_idemp_l in Hinv by lia.
  split.
  - rewrite Z.add_mod, <- !Z.mul_mod, <- Z.add_mod by lia.
    replace (k11 * inv_det * (k00 * v0 + k01 * v1)
             + - k01 * inv_det * (k10 * v0 + k11 * v1))
      with (v0 * ((k00 * k11 - k01 * k10) * inv_det)) by ring.
    rewrite <- Z.mul_mod_idemp_r, Hinv, Z.mul_1_r by lia. apply Z.mod_small. lia.
  - rewrite Z.add_mod, <- !Z.mul_mod, <- Z.add_mod by lia.
    replace (- k10 * inv_det * (k00 * v0 + k01 * v1)
             + k00 * inv_det * (k10 * v0 + k11 * v1))
      with (v1 * ((k00 * k11 - k01 * k10) * inv_det)) by ring.
    rewrite <- Z.mul_mod_idemp_r, Hinv, Z.mul_1_r by lia. apply Z.mod_small. lia.
Qed.

Lemma hill_map_inverse (k00 k01 k10 k11 inv_det : Z) (n : nat) :
  (((k00 * k11 - k01 * k10) mod 26) * inv_det) mod 26 = 1 ->
  forall t, List.length t = (2 * n)%nat -> Forall (fun c => 65 <= c <= 90) t ->
            hill_map ((k11 * inv_det) mod 26) ((- k01 * inv_det) mod 26)
                     ((- k10 * inv_det) mod 26) ((k00 * inv_det) mod 26)
                     (hill_map k00 k01 k10 k11 t) = t.
Proof.
  intros Hinv. induction n as [|n IH]; intros t Hl Hf.
  - destruct t; [reflexivity|cbn in Hl; lia].
  - destruct t as [|a [|b t]]; cbn in Hl; try lia.
    inversion Hf as [|? ? Ha Hf1]; subst. inversion Hf1 as [|? ? Hb Hf2]; subst.
    cbn [hill_map]. rewrite (IH t) by (auto; lia).
    replace ((k00 * (a - 65) + k01 * (b - 65)) mod 26 + 65 - 65)
      with ((k00 * (a - 65) + k01 * (b - 65)) mod 26) by lia.
    replace ((k10 * (a - 65) + k11 * (b - 65)) mod 26 + 65 - 65)
      with ((k10 * (a - 65) + k11 * (b - 65)) mod 26) by lia.
    destruct (hill_inverse_point k00 k01 k10 k11 inv_det (a - 65) (b - 65) Hinv
                ltac:(lia) ltac:(lia)) as [E0 E1].
    rewrite E0, E1. f_equal; [lia|]. f_equal. lia.
Qed.

Lemma isalpha_upper_AZ (c : Z) :
  0 <= c < 128 -> isalpha (up c) = true -> 65 <= up c <= 90.
Proof.
  intros Hc. destruct (up_range c Hc) as [Hu Hn]. unfold isalpha.
  intros H. repeat (apply orb_true_iff in H; destruct H as [H|H]); zb; lia.
Qed.

Lemma filter_upper_AZ (t : list Z) :
  Forall (fun c => 65 <= c <= 90) t -> filter isalpha (upper t) = t.
Proof.
  intros H.
  assert (Ha : is_ascii t).
  { eapply Forall_impl; [|exact H]. intros c Hc. cbv beta in Hc. lia. }
  rewrite (upper_ascii t Ha). induction H as [|c t Hc Ht IH]; [reflexivity|].
  inversion Ha; subst. cbn [map filter].
  assert (Eu : up c = c) by (unfold up; zcases; lia).
  rewrite Eu.
  assert (Ei : isalpha c = true).
  { unfold isalpha. replace ((65 <=? c) && (c <=? 90)) with true; [reflexivity|].
    symmetry. apply andb_true_iff. rewrite !Z.leb_le. lia. }
  rewrite Ei, IH by assumption. reflexivity.
Qed.

Lemma hill_text_facts (text : list Z) :
  is_ascii text ->
  Z.even (len (hill_text text)) = true
  /\ Forall (fun c => 65 <= c <= 90) (hill_text text).
Proof.
  intros Ha. unfold hill_text. cbv zeta.
  assert (Hf : Forall (fun c => 65 <= c <= 90) (filter isalpha (upper text))).
  { rewrite (upper_ascii text Ha). apply Forall_forall. intros x Hx.
    apply filter_In in Hx. destruct Hx as [Hx Hal].
    apply in_map_iff in Hx. destruct Hx as [c [<- Hc]].
    unfold is_ascii in Ha. rewrite Forall_forall in Ha.
    apply isalpha_upper_AZ; auto. }
  destruct (Z.even (len (filter isalpha (upper text)))) eqn:E.
  - auto.
  - split.
    + rewrite len_app. change (len (lit "X")) with 1.
      rewrite Z.even_add, E. reflexivity.
    + apply Forall_app. split; [exact Hf|]. change (lit "X") with [88].
      constructor; [lia|constructor].
Qed.

Lemma hill_encrypt_text (text : list Z) (K : list (list Z)) :
  hill_encrypt text K = hill_pairs K (hill_text text).
Proof.
  unfold hill_encrypt, hill_text. cbv zeta.
  rewrite Zeven_mod. destruct (len (filter isalpha (upper text)) mod 2 =? 0); reflexivity.
Qed.

Lemma hill_roundtrip (text : list Z) (k00 k01 k10 k11 : Z) :
  is_ascii text -> Z.gcd (k00 * k11 - k01 * k10) 26 = 1 ->
  exists c,
    hill_encrypt text [[k00; k01]; [k10; k11]] = Ok c
    /\ hill_decrypt c [[k00; k01]; [k10; k11]] = ([], Ok (hill_text text)).
Proof.
  intros Ha Hg. destruct (hill_text_facts text Ha) as [He Hf].
  exists (hill_map k00 k01 k10 k11 (hill_text text)). split.
  - rewrite hill_encrypt_text. now apply hill_pairs_even.
  - unfold hill_decrypt.
    change (mget [[k00; k01]; [k10; k11]] 0 0) with (Ok k00).
    change (mget [[k00; k01]; [k10; k11]] 0 1) with (Ok k01).
    change (mget [[k00; k01]; [k10; k11]] 1 0) with (Ok k10).
    change (mget [[k00; k01]; [k10; k11]] 1 1) with (Ok k11).
    cbn [bind]. cbv zeta.
    assert (Hg' : Z.gcd ((k00 * k11 - k01 * k10) mod 26) 26 = 1).
    { rewrite Z.gcd_mod by lia. rewrite Z.gcd_comm. exact Hg. }
    destruct (mod_inv_some _ 26 ltac:(lia) Hg') as [inv_det [E [_ Hinv]]].
    rewrite E. cbn [bind]. f_equal.
    pose proof He as He'. apply Z.even_spec in He'. destruct He' as [k Hk].
    destruct (hill_map_even k00 k01 k10 k11 (Z.to_nat k) (hill_text text)
                ltac:(unfold len in Hk; lia)) as [Hl Hc].
    rewrite (filter_upper_AZ _ Hc).
    rewrite hill_pairs_even.
    + f_equal. apply (hill_map_inverse k00 k01 k10 k11 inv_det (Z.to_nat k)); auto.
      unfold len in Hk. lia.
    + unfold len. rewrite Hl. rewrite Nat2Z.inj_mul. apply Z.even_mul.
Qed.

(** *** The Playfair alphabet *)

Lemma in_alphabet (c : Z) :
  In c (lit "abcdefghiklmnopqrstuvwxyz") <-> playfair_letter c.
Proof.
  change (lit "abcdefghiklmnopqrstuvwxyz")
    with (filter (fun c => negb (c =? 106)) (range 97 123)).
  rewrite filter_In, in_range. unfold playfair_letter.
  destruct (Z.eqb_spec c 106); cbn [negb]; intuition (try lia; try discriminate).
Qed.

Lemma NoDup_alphabet : NoDup (lit "abcdefghiklmnopqrstuvwxyz").
Proof.
  change (lit "abcdefghiklmnopqrstuvwxyz")
    with (filter (fun c => negb (c =? 106)) (range 97 123)).
  apply NoDup_filter, NoDup_range.
Qed.

Lemma mem_In (c : Z) (l : list Z) : mem c l = true <-> In c l.
Proof.
  unfold mem. rewrite existsb_exists. split.
  - intros [x [Hx E]]. apply Z.eqb_eq in E. now subst.
  - intros H. exists c. split; [exact H | apply Z.eqb_refl].
Qed.

Lemma replace_lower (t : list Z) :
  replace (lower t) (ord "j") (ord "i") = map fold_j t.
Proof. unfold replace, lower. rewrite map_map. reflexivity. Qed.

Lemma ascii_forall (P : Z -> bool) :
  forallb P (range 0 128) = true -> forall c, 0 <= c < 128 -> P c = true.
Proof.
  intros H c Hc. rewrite forallb_forall in H. apply H, in_range. exact Hc.
Qed.

Lemma fold_j_ascii (c : Z) :
  0 <= c < 128 ->
  isalpha (fold_j c) = isalpha c
  /\ (isalpha c = true -> playfair_letter (fold_j c)).
Proof.
  intros Hc.
  pose proof (ascii_forall
                (fun c => Bool.eqb (isalpha (fold_j c)) (isalpha c)
                          && implb (isalpha c)
                                   ((97 <=? fold_j c) && (fold_j c <=? 122)
                                    && negb (fold_j c =? 106)))
                ltac:(vm_compute; reflexivity) c Hc) as G.
  cbv beta in G. apply andb_true_iff in G. destruct G as [G1 G2].
  split; [now apply Bool.eqb_prop|].
  intros Hal. rewrite Hal in G2. cbn [implb] in G2. unfold playfair_letter. zb. lia.
Qed.

Lemma fold_j_letter (c : Z) : playfair_letter c -> fold_j c = c.
Proof.
  intros [H1 H2].
  pose proof (ascii_forall
                (fun c => implb ((97 <=? c) && (c <=? 122) && negb (c =? 106))
                                (fold_j c =? c))
                ltac:(vm_compute; reflexivity) c ltac:(lia)) as G.
  cbv beta in G.
  replace ((97 <=? c) && (c <=? 122) && negb (c =? 106)) with true in G.
  - cbn [implb] in G. now apply Z.eqb_eq.
  - symmetry. rewrite !andb_true_iff, negb_true_iff, !Z.leb_le, Z.eqb_neq. lia.
Qed.

(** *** The key table *)

Lemma key_table_fill (seen : list Z) (l table : list Z) :
  fold_left (fun table c => if negb (mem c seen) then table ++ [c] else table) l table
  = table ++ filter (fun c => negb (mem c seen)) l.
Proof.
  revert table. induction l as [|c l IH]; intros table; cbn [fold_left filter].
  - now rewrite app_nil_r.
  - rewrite IH. destruct (negb (mem c seen)); [|reflexivity].
    now rewrite <- app_assoc.
Qed.

Lemma key_table_unique (key' : list Z) :
  Forall (fun c => isalpha c = true -> playfair_letter c) key' ->
  forall seen table,
    (forall x, In x seen <-> In x table) -> NoDup table ->
    Forall playfair_letter table ->
    let st := fold_left (fun '(seen, table) c =>
                           if isalpha c && negb (mem c seen)
                           then (c :: seen, table ++ [c])
                           else (seen, table))
                        key' (seen, table) in
    (forall x, In x (fst st) <-> In x (snd st)) /\ NoDup (snd st)
    /\ Forall playfair_letter (snd st).
Proof.
  induction 1 as [|c key' Hc Hk IH]; intros seen table Hs Hn Hf; cbn [fold_left].
  - cbn. auto.
  - destruct (isalpha c && negb (mem c seen)) eqn:E.
    + apply andb_true_iff in E. destruct E as [Ea En].
      apply negb_true_iff in En.
      assert (Hnin : ~ In c table).
      { intros Hin. apply Hs in Hin. apply mem_In in Hin. congruence. }
      apply IH.
      * intros x. cbn [In]. rewrite in_app_iff, Hs. cbn. tauto.
      * apply NoDup_app; [exact Hn | repeat constructor; tauto |].
        intros x Hx [<-|[]]. tauto.
      * apply Forall_app. split; [exact Hf|]. constructor; auto.
    + apply IH; assumption.
Qed.

Lemma rows_of_25 (t : list Z) :
  List.length t = 25%nat ->
  wf 5 5 (map (fun i => slice t (i * 5) ((i + 1) * 5)) (range 0 5))
  /\ concat (map (fun i => slice t (i * 5) ((i + 1) * 5)) (range 0 5)) = t.
Proof.
  intros H.
  do 25 (destruct t as [|? t]; [cbn in H; lia|]).
  destruct t; [|cbn in H; lia].
  split; [split; [reflexivity | repeat constructor] | reflexivity].
Qed.

Lemma generate_key_table_ascii (key : list Z) :
  is_ascii key ->
  let T := generate_key_table key in
  wf 5 5 T /\ forall c, In c (concat T) <-> playfair_letter c.
Proof.
  intros Ha. unfold generate_key_table. rewrite replace_lower.
  assert (Hk : Forall (fun c => isalpha c = true -> playfair_letter c) (map fold_j key)).
  { apply Forall_map. eapply Forall_impl; [|exact Ha].
    intros c Hc. cbv beta in Hc. destruct (fold_j_ascii c Hc) as [E H].
    rewrite E. exact H. }
  pose proof (key_table_unique (map fold_j key) Hk [] [] ltac:(tauto)
                               ltac:(constructor) ltac:(constructor)) as G.
  cbv zeta in G.
  destruct (fold_left _ (map fold_j key) ([], [])) as [seen table].
  cbn [fst snd] in G. destruct G as [Hs [Hn Hf]].
  rewrite key_table_fill.
  set (tbl := table ++ filter (fun c => negb (mem c seen))
                              (lit "abcdefghiklmnopqrstuvwxyz")).
  assert (Hin : forall c, In c tbl <-> playfair_letter c).
  { intros c. unfold tbl. rewrite in_app_iff, filter_In, in_alphabet. split.
    - intros [H|[H _]]; [|exact H]. rewrite Forall_forall in Hf. auto.
    - intros H. destruct (mem c seen) eqn:E.
      + left. apply Hs. now apply mem_In.
      + right. auto. }
  assert (Hnd : NoDup tbl).
  { unfold tbl. apply NoDup_app; [exact Hn | apply NoDup_filter, NoDup_alphabet |].
    intros x Hx Hx'. apply filter_In in Hx'. destruct Hx' as [_ Hx'].
    apply negb_true_iff in Hx'. apply Hs, mem_In in Hx. congruence. }
  assert (Hlen : List.length tbl = 25%nat).
  { apply Nat.le_antisymm.
    - change 25%nat with (List.length (lit "abcdefghiklmnopqrstuvwxyz")).
      apply NoDup_incl_length; [exact Hnd|]. intros c Hc. apply in_alphabet, Hin, Hc.
    - change 25%nat with (List.length (lit "abcdefghiklmnopqrstuvwxyz")).
      apply NoDup_incl_length; [apply NoDup_alphabet|].
      intros c Hc. apply Hin, in_alphabet, Hc. }
  destruct (rows_of_25 tbl Hlen) as [Hwf Hcat].
  cbv zeta. split; [exact Hwf|]. intros c. rewrite Hcat. apply Hin.
Qed.

(** *** Finding a letter in the table *)

Lemma in_enumerate_inv {A} (l : list A) (i : Z) (x d : A) :
  In (i, x) (enumerate l) -> 0 <= i < len l /\ nth (Z.to_nat i) l d = x.
Proof.
  intros H. destruct (In_nth _ _ (0, d) H) as [k [Hk Ek]].
  rewrite length_enumerate in Hk. rewrite nth_enumerate in Ek by exact Hk.
  inversion Ek; subst. rewrite Nat2Z.id. unfold len. split; [lia|reflexivity].
Qed.

Lemma index_of_In (c : Z) (l : list Z) :
  In c l -> 0 <= index_of c l < len l /\ nth (Z.to_nat (index_of c l)) l 0 = c.
Proof.
  induction l as [|x l IH]; [intros []|].
  intros H. cbn [index_of]. rewrite len_cons. pose proof (len_nonneg l).
  destruct (Z.eqb_spec c x) as [->|Hne].
  - split; [lia|reflexivity].
  - destruct H as [H|H]; [congruence|]. destruct (IH H) as [Hr Hn].
    split; [lia|].
    replace (Z.to_nat (1 + index_of c l)) with (S (Z.to_nat (index_of c l))) by lia.
    exact Hn.
Qed.

Lemma find_position_letter (R C : nat) (T : list (list Z)) (a : Z) :
  wf R C T -> playfair_letter a -> In a (concat T) ->
  exists r c,
    find_position a T = Some (r, c)
    /\ 0 <= r < Z.of_nat R /\ 0 <= c < Z.of_nat C /\ cell 0 T r c = a.
Proof.
  intros [Hl Hf] Ha Hin. unfold find_position.
  fold (fold_j a). rewrite (fold_j_letter a Ha).
  apply in_concat in Hin. destruct Hin as [row [Hrow Harow]].
  destruct (find (fun '(_, row) => mem a row) (enumerate T)) as [[i row']|] eqn:F.
  - apply find_some in F. destruct F as [Hie Hm]. apply mem_In in Hm.
    destruct (in_enumerate_inv T i row' [] Hie) as [Hi En].
    destruct (index_of_In a row' Hm) as [Hj Ej].
    exists i, (index_of a row'). split; [reflexivity|].
    assert (Hlr : List.length row' = C).
    { rewrite Forall_forall in Hf. apply Hf. rewrite <- En. apply nth_In.
      unfold len in Hi. lia. }
    unfold len in *. repeat split; try lia.
    unfold cell. rewrite En. exact Ej.
  - exfalso. destruct (In_nth _ _ [] Hrow) as [k [Hk Ek]].
    pose proof (find_none _ _ F (Z.of_nat k, row)) as N.
    rewrite <- Ek in N at 1. specialize (N (in_enumerate T k [] Hk)).
    cbv beta iota in N. apply mem_In in Harow. congruence.
Qed.

(** *** The digraphs *)

Lemma split_digraphs_cons2 (a b : Z) (rest : list Z) :
  split_digraphs (a :: b :: rest)
  = if a =? b then [a; ord "x"] :: split_digraphs (b :: rest)
    else [a; b] :: split_digraphs rest.
Proof. reflexivity. Qed.

Lemma split_digraphs_letters (n : nat) :
  forall pt : list Z,
    (List.length pt <= n)%nat -> Forall playfair_letter pt ->
    Forall (fun d => exists a b, d = [a; b] /\ playfair_letter a /\ playfair_letter b)
           (split_digraphs pt)
    /\ (List.length pt <= 2 * List.length (split_digraphs pt))%nat.
Proof.
  assert (Hx : playfair_letter (ord "x")).
  { change (ord "x") with 120. unfold playfair_letter. lia. }
  induction n as [|n IH]; intros pt Hn Hf.
  - destruct pt; [|cbn in Hn; lia]. cbn. auto.
  - destruct pt as [|a [|b rest]].
    + cbn. auto.
    + inversion Hf; subst. cbn. split; [|lia].
      constructor; [|constructor]. eauto.
    + inversion Hf as [|? ? Ha Hf1]; subst. inversion Hf1 as [|? ? Hb Hf2]; subst.
      rewrite split_digraphs_cons2. cbn in Hn.
      destruct (a =? b).
      * destruct (IH (b :: rest) ltac:(cbn; lia) Hf1) as [G1 G2].
        split; [constructor; eauto|]. cbn [List.length] in *. lia.
      * destruct (IH rest ltac:(lia) Hf2) as [G1 G2].
        split; [constructor; eauto|]. cbn [List.length] in *. lia.
Qed.

(** *** Encryption *)

Lemma playfair_pair (T : list (list Z)) (a b : Z) (res : list Z) :
  wf 5 5 T -> (forall c, In c (concat T) <-> playfair_letter c) ->
  playfair_letter a -> playfair_letter b ->
  exists x y,
    (a' <- getitem [a; b] 0 ;;
     b' <- getitem [a; b] 1 ;;
     '(row1, col1) <- unpack (find_position a' T) ;;
     '(row2, col2) <- unpack (find_position b' T) ;;
     if row1 =? row2 then
       x <- mget T row1 ((col1 + 1) mod 5) ;;
       y <- mget T row2 ((col2 + 1) mod 5) ;;
       Ok (res ++ [x] ++ [y])
     else if col1 =? col2 then
       x <- mget T ((row1 + 1) mod 5) col1 ;;
       y <- mget T ((row2 + 1) mod 5) col2 ;;
       Ok (res ++ [x] ++ [y])
     else
       x <- mget T row1 col2 ;;
       y <- mget T row2 col1 ;;
       Ok (res ++ [x] ++ [y]))
    = Ok (res ++ [x; y])
    /\ playfair_letter x /\ playfair_letter y.
Proof.
  intros HT Hin Ha Hb.
  change (getitem [a; b] 0) with (Ok a). change (getitem [a; b] 1) with (Ok b).
  cbn [bind].
  destruct (find_position_letter 5 5 T a HT Ha (proj2 (Hin a) Ha))
    as [r1 [c1 [E1 [Hr1 [Hc1 _]]]]].
  destruct (find_position_letter 5 5 T b HT Hb (proj2 (Hin b) Hb))
    as [r2 [c2 [E2 [Hr2 [Hc2 _]]]]].
  rewrite E1, E2. cbn [unpack bind].
  assert (Hcell : forall r c, 0 <= r < 5 -> 0 <= c < 5 ->
            mget T r c = Ok (cell 0 T r c) /\ playfair_letter (cell 0 T r c)).
  { intros r c Hr Hc. split; [apply (mget_ok 0 5 5); auto; lia|].
    apply Hin. destruct HT as [Hl Hf].
    apply in_concat. exists (nth (Z.to_nat r) T []). split.
    - apply nth_In. lia.
    - unfold cell. apply nth_In. rewrite Forall_forall in Hf.
      rewrite (Hf (nth (Z.to_nat r) T [])) by (apply nth_In; lia). lia. }
  pose proof (Z.mod_pos_bound (c1 + 1) 5 ltac:(lia)).
  pose proof (Z.mod_pos_bound (c2 + 1) 5 ltac:(lia)).
  pose proof (Z.mod_pos_bound (r1 + 1) 5 ltac:(lia)).
  pose proof (Z.mod_pos_bound (r2 + 1) 5 ltac:(lia)).
  destruct (r1 =? r2); [|destruct (c1 =? c2)].
  - destruct (Hcell r1 ((c1 + 1) mod 5)) as [G1 L1]; [lia|lia|].
    destruct (Hcell r2 ((c2 + 1) mod 5)) as [G2 L2]; [lia|lia|].
    rewrite G1. cbn [bind]. rewrite G2. cbn [bind].
    do 2 eexists. split; [reflexivity | split; assumption].
  - destruct (Hcell ((r1 + 1) mod 5) c1) as [G1 L1]; [lia|lia|].
    destruct (Hcell ((r2 + 1) mod 5) c2) as [G2 L2]; [lia|lia|].
    rewrite G1. cbn [bind]. rewrite G2. cbn [bind].
    do 2 eexists. split; [reflexivity | split; assumption].
  - destruct (Hcell r1 c2) as [G1 L1]; [lia|lia|].
    destruct (Hcell r2 c1) as [G2 L2]; [lia|lia|].
    rewrite G1. cbn [bind]. rewrite G2. cbn [bind].
    do 2 eexists. split; [reflexivity | split; assumption].
Qed.

Lemma up_letter (c : Z) : playfair_letter c -> 65 <= up c <= 90 /\ up c <> 74.
Proof. unfold playfair_letter, up. intros H. zcases; lia. Qed.

Lemma playfair_encrypt_ascii (plaintext key : list Z) :
  is_ascii plaintext -> is_ascii key ->
  exists c,
    playfair_encrypt plaintext key = Ok c
    /\ Z.even (len c) = true
    /\ Forall (fun ch => 65 <= ch <= 90 /\ ch <> 74) c
    /\ len (filter isalpha plaintext) <= len c.
Proof.
  intros Hp Hk.
  destruct (generate_key_table_ascii key Hk) as [HT Hin].
  unfold playfair_encrypt. cbv zeta. rewrite replace_lower.
  set (T := generate_key_table key) in *.
  set (pt := filter isalpha (map fold_j plaintext)).
  assert (Hpt : Forall playfair_letter pt).
  { apply Forall_forall. intros c Hc. unfold pt in Hc. apply filter_In in Hc.
    destruct Hc as [Hc Hal]. apply in_map_iff in Hc. destruct Hc as [p [<- Hpin]].
    unfold is_ascii in Hp. rewrite Forall_forall in Hp.
    destruct (fold_j_ascii p (Hp p Hpin)) as [E H]. apply H. now rewrite <- E. }
  assert (Hlpt : List.length pt = List.length (filter isalpha plaintext)).
  { unfold pt. clear - Hp. induction Hp as [|p l Hpc Hl IH]; [reflexivity|].
    cbn [map filter]. destruct (fold_j_ascii p Hpc) as [E _]. rewrite E.
    destruct (isalpha p); cbn [List.length]; now rewrite IH. }
  destruct (split_digraphs_letters (List.length pt) pt (le_n _) Hpt) as [Hd Hlen].
  match goal with
  | |- context [foldM ?f (split_digraphs pt) ?s] =>
      destruct (foldM_invariant f
                  (fun pre res =>
                     List.length res = (2 * List.length pre)%nat
                     /\ Forall playfair_letter res)
                  (split_digraphs pt) s) as [res [E [Hl Hf]]]
  end.
  { split; [reflexivity|constructor]. }
  { intros pre d post res Ed [Hl Hf].
    rewrite Forall_forall in Hd.
    destruct (Hd d) as [a [b [-> [Ha Hb]]]];
      [rewrite Ed; apply in_or_app; right; now left|].
    destruct (playfair_pair T a b res HT Hin Ha Hb) as [x [y [E [Lx Ly]]]].
    exists (res ++ [x; y]). split; [exact E|]. split.
    - rewrite !length_app. cbn [List.length]. lia.
    - apply Forall_app. split; [exact Hf|].
      constructor; [exact Lx|]. constructor; [exact Ly|constructor]. }
  rewrite E. cbn [bind].
  assert (Ha : is_ascii res).
  { eapply Forall_impl; [|exact Hf]. unfold playfair_letter. intros c Hc. lia. }
  rewrite (upper_ascii res Ha).
  exists (map up res). split; [reflexivity|]. split; [|split].
  - unfold len. rewrite length_map, Hl, Nat2Z.inj_mul. apply Z.even_mul.
  - apply Forall_map. eapply Forall_impl; [|exact Hf].
    intros c Hc. now apply up_letter.
  - unfold len. rewrite length_map, Hl, <- Hlpt. lia.
Qed.

(** *** Deciding the side conditions on a given text *)

Lemma is_ascii_forallb (t : list Z) :
  forallb (fun c => (0 <=? c) && (c <? 128)) t = true -> is_ascii t.
Proof.
  intros H. rewrite forallb_forall in H. apply Forall_forall. intros c Hc.
  specialize (H c Hc). zb. lia.
Qed.

Lemma no_trailing_X_last (t : list Z) :
  last t 0 <> ord "X" -> no_trailing_X t.
Proof.
  intros H t' E. apply H. rewrite E. apply last_last.
Qed.

(** *** Keys that are not coprime to 26 *)


Lemma multiplicative_decrypt_invalid (text : list Z) (key : Z) :
  Z.gcd key 26 <> 1 ->
  multiplicative_decrypt text key
  = (["Error: The key must be coprime with 26."%string], Ok []).
Proof.
  intros Hkey. unfold multiplicative_decrypt.
  destruct (Z.eqb_spec (Z.gcd key 26) 1) as [E|E]; [contradiction|reflexivity].
Qed.


Lemma affine_decrypt_invalid (text : list Z) (a b : Z) :
  Z.gcd a 26 <> 1 ->
  affine_decrypt text a b
  = (["Error: Key 'a' must be coprime with 26."%string], Ok []).
Proof.
  intros Ha. unfold affine_decrypt.
  destruct (Z.eqb_spec (Z.gcd a 26) 1) as [E|E]; [contradiction|reflexivity].
Qed.

Lemma hill_key (k00 k01 k10 k11 : Z) :
  (a00 <- mget [[k00; k01]; [k10; k11]] 0 0 ;;
   a11 <- mget [[k00; k01]; [k10; k11]] 1 1 ;;
   a01 <- mget [[k00; k01]; [k10; k11]] 0 1 ;;
   a10 <- mget [[k00; k01]; [k10; k11]] 1 0 ;;
   let det := a00 * a11 - a01 * a10 in
   let det := det mod 26 in
   inv_det <- mod_inv det 26 ;;
   Ok (a00, a01, a10, a11, inv_det))
  = (inv_det <- mod_inv ((k00 * k11 - k01 * k10) mod 26) 26 ;;
     Ok (k00, k01, k10, k11, inv_det)).
Proof. reflexivity. Qed.


(** ** Lemmas for the further properties *)

(** *** The modular inverse, again *)

Lemma mod_inv_found (a m x : Z) :
  2 <= m -> mod_inv a m = Ok (Some x) -> 1 <= x < m /\ (a * x) mod m = 1.
Proof.
  intros Hm. unfold mod_inv, pymod.
  replace (m =? 0) with false by (symmetry; apply Z.eqb_neq; lia).
  cbn [bind]. intros E. injection E as E.
  apply find_some in E. destruct E as [Hin Hx].
  apply in_range in Hin. apply Z.eqb_eq in Hx.
  rewrite Z.mul_mod_idemp_l in Hx by lia. auto.
Qed.

Lemma mod_inv_inverse (a m x : Z) :
  2 <= m -> mod_inv a m = Ok (Some x) -> mod_inv x m = Ok (Some (a mod m)).
Proof.
  intros Hm E. destruct (mod_inv_found a m x Hm E) as [Hx Ex].
  assert (Ex' : (x * a) mod m = 1) by (rewrite Z.mul_comm; exact Ex).
  destruct (mod_inv_some x m Hm (mod_inv_gcd x m a Hm Ex')) as [y [Ey [Hy Exy]]].
  rewrite Ey. do 2 f_equal.
  apply (mod_inv_unique x m); try lia.
  - apply Z.mod_pos_bound. lia.
  - rewrite Z.mul_mod_idemp_r by lia. exact Ex'.
Qed.

(** *** Rail-Fence: the shape of the zigzag *)

(** Until the zigzag first reaches the last rail it walks down the rails one
    by one. *)
Lemma pattern_from_ramp (n : Z) (k : nat) :
  forall a d,
    (d = 1 /\ 0 <= a /\ a + Z.of_nat k <= n) \/ (k <= 1)%nat ->
    pattern_from n (a, d) k = range a (a + Z.of_nat k).
Proof.
  induction k as [|k IH]; intros a d H.
  - rewrite range_nil by lia. reflexivity.
  - cbn [pattern_from fst]. rewrite (range_cons a) by lia. f_equal.
    replace (a + Z.of_nat (S k)) with (a + 1 + Z.of_nat k) by lia.
    destruct k as [|k].
    + rewrite range_nil by lia. reflexivity.
    + destruct H as [[-> [Ha Hk]]|H]; [|lia].
      unfold zigzag.
      replace (a + 1 =? 0) with false by (symmetry; apply Z.eqb_neq; lia).
      destruct (Z.eqb_spec (a + 1) (n - 1)) as [E|N]; cbn [orb]; apply IH.
      * right. lia.
      * left. lia.
Qed.

Lemma concat_map_nil {A B} (l : list A) : concat (map (fun _ => @nil B) l) = [].
Proof. induction l as [|x l IH]; cbn; auto. Qed.

Lemma sel_absent (r : Z) (pat : list Z) :
  forall txt : list Z, ~ In r pat -> sel r pat txt = [].
Proof.
  induction pat as [|p pat IH]; intros [|x txt] H; try reflexivity.
  rewrite sel_cons.
  destruct (Z.eqb_spec p r) as [->|N].
  - exfalso. apply H. now left.
  - apply IH. intros Hin. apply H. now right.
Qed.

Lemma rails_of_ramp (txt : list Z) :
  forall a b,
    a + len txt <= b ->
    concat (map (fun r => sel r (range a (a + len txt)) txt) (range a b)) = txt.
Proof.
  induction txt as [|x txt IH]; intros a b H.
  - rewrite (map_ext _ (fun _ => [])) by (intros r; apply sel_nil_r).
    apply concat_map_nil.
  - rewrite len_cons in *. pose proof (len_nonneg txt) as Hl.
    rewrite (range_cons a b) by lia.
    rewrite (range_cons a (a + (1 + len txt))) by lia.
    cbn [map concat]. rewrite sel_cons, Z.eqb_refl.
    rewrite sel_absent by (rewrite in_range; lia).
    cbn [app]. f_equal.
    rewrite (map_ext_in _ (fun r => sel r (range (a + 1) (a + 1 + len txt)) txt)).
    + apply IH. lia.
    + intros r Hr. apply in_range in Hr. rewrite sel_cons.
      replace (a =? r) with false by (symmetry; apply Z.eqb_neq; lia).
      f_equal. f_equal. lia.
Qed.

Lemma rail_fence_short (text : list Z) (n : Z) :
  len text <= n ->
  rail_fence_encrypt text n = Ok text /\ rail_fence_decrypt text n = Ok text.
Proof.
  intros H. destruct (Z.leb_spec n 1) as [Hn|Hn].
  - unfold rail_fence_encrypt, rail_fence_decrypt.
    replace (n <=? 1) with true by (symmetry; apply Z.leb_le; lia). auto.
  - assert (E : rail_fence_encrypt text n = Ok text).
    { rewrite rail_fence_encrypt_rails by lia.
      rewrite pattern_from_ramp by (left; unfold len in H; lia).
      f_equal. apply (rails_of_ramp text 0 n). lia. }
    split; [exact E|].
    destruct (rail_fence_roundtrip text n ltac:(lia)) as [c [Ec [_ Dc]]].
    rewrite E in Ec. injection Ec as <-. exact Dc.
Qed.

(** *** Rail-Fence: the ciphertext is a rearrangement *)

Lemma sel_map (f : Z -> Z) (r : Z) (pat : list Z) :
  forall txt : list Z, sel r pat (map f txt) = map f (sel r pat txt).
Proof.
  induction pat as [|p pat IH]; intros [|x txt]; try reflexivity.
  cbn [map]. rewrite !sel_cons. destruct (p =? r); cbn [map]; now rewrite IH.
Qed.

Lemma rails_perm (rs : list Z) :
  NoDup rs ->
  forall (pat : list Z) (txt : list Z),
    Forall (fun p => In p rs) pat -> List.length pat = List.length txt ->
    Permutation (concat (map (fun r => sel r pat txt) rs)) txt.
Proof.
  intros Hnd. induction pat as [|p pat IH]; intros [|x txt] Hp Hl;
    cbn [List.length] in Hl; try lia.
  - cbn [sel]. rewrite concat_map_nil. constructor.
  - inversion Hp as [|? ? Hin Hp']; subst.
    destruct (in_split _ _ Hin) as [l1 [l2 ->]].
    apply NoDup_remove_2 in Hnd as Hnot.
    specialize (IH txt Hp' ltac:(lia)).
    rewrite map_app, concat_app in *. cbn [map concat] in *.
    rewrite sel_cons, Z.eqb_refl.
    rewrite (map_ext_in _ (fun r => sel r pat txt) l1).
    2:{ intros r Hr. rewrite sel_cons.
        destruct (Z.eqb_spec p r) as [->|N]; [|reflexivity].
        exfalso. apply Hnot. apply in_or_app. now left. }
    rewrite (map_ext_in _ (fun r => sel r pat txt) l2).
    2:{ intros r Hr. rewrite sel_cons.
        destruct (Z.eqb_spec p r) as [->|N]; [|reflexivity].
        exfalso. apply Hnot. apply in_or_app. now right. }
    cbn [app].
    etransitivity; [symmetry; apply Permutation_middle|].
    apply perm_skip. exact IH.
Qed.

Lemma rail_fence_perm (text : list Z) (n : Z) :
  exists c, rail_fence_encrypt text n = Ok c /\ Permutation text c.
Proof.
  destruct (Z.leb_spec n 1) as [Hn|Hn].
  - exists text. unfold rail_fence_encrypt.
    replace (n <=? 1) with true by (symmetry; apply Z.leb_le; lia). auto.
  - rewrite rail_fence_encrypt_rails by lia. eexists. split; [reflexivity|].
    symmetry. apply rails_perm.
    + apply NoDup_range.
    + eapply Forall_impl; [|apply (pattern_from_range n _ (0, 1)); [lia|]].
      * intros p Hp. cbv beta in Hp. apply in_range. lia.
      * unfold zz_ok. cbn. lia.
    + apply length_pattern_from.
Qed.

(** *** Rail-Fence: every string is a ciphertext *)

Lemma index_of_nonneg (c : Z) (l : list Z) : 0 <= index_of c l.
Proof. induction l as [|x l IH]; cbn [index_of]; [lia|]. destruct (c =? x); lia. Qed.

Lemma index_of_lookup (s : list Z) :
  NoDup s ->
  forall c : list Z,
    List.length s = List.length c ->
    map (fun i => nth (Z.to_nat (index_of i s)) c 0) s = c.
Proof.
  induction 1 as [|a s Hnot Hnd IH]; intros [|x c] Hl; cbn [List.length] in Hl;
    try lia; [reflexivity|].
  cbn [map]. f_equal.
  - cbn [index_of]. rewrite Z.eqb_refl. reflexivity.
  - transitivity (map (fun i => nth (Z.to_nat (index_of i s)) c 0) s);
      [|apply IH; lia].
    apply map_ext_in. intros i Hi.
    cbn [index_of].
    destruct (Z.eqb_spec i a) as [->|N]; [contradiction|].
    pose proof (index_of_nonneg i s).
    replace (Z.to_nat (1 + index_of i s)) with (S (Z.to_nat (index_of i s))) by lia.
    reflexivity.
Qed.

Lemma rail_fence_onto (c : list Z) (n : Z) :
  2 <= n ->
  exists t, List.length t = List.length c /\ rail_fence_encrypt t n = Ok c.
Proof.
  intros Hn.
  set (k := List.length c).
  set (pat := pattern_from n (0, 1) k).
  set (ids := range 0 (Z.of_nat k)).
  set (s := concat (map (fun r => sel r pat ids) (range 0 n))).
  assert (Hids : List.length ids = k).
  { unfold ids. rewrite length_range. lia. }
  assert (Hs : Permutation s ids).
  { apply rails_perm.
    - apply NoDup_range.
    - eapply Forall_impl; [|apply (pattern_from_range n k (0, 1)); [lia|]].
      + intros p Hp. cbv beta in Hp. apply in_range. lia.
      + unfold zz_ok. cbn. lia.
    - unfold pat. now rewrite length_pattern_from. }
  assert (Hnd : NoDup s).
  { apply (Permutation_NoDup (Permutation_sym Hs)). apply NoDup_range. }
  assert (Hls : List.length s = List.length c).
  { rewrite (Permutation_length Hs). exact Hids. }
  set (g := fun i => nth (Z.to_nat (index_of i s)) c 0).
  exists (map g ids). split; [now rewrite length_map|].
  rewrite rail_fence_encrypt_rails by exact Hn.
  rewrite length_map, Hids. fold pat. f_equal.
  rewrite (map_ext _ (fun r => map g (sel r pat ids))) by (intros r; apply sel_map).
  rewrite <- map_map, <- concat_map. fold s.
  apply index_of_lookup; assumption.
Qed.

Lemma rail_fence_decrypt_onto (c : list Z) (n : Z) :
  exists t,
    rail_fence_decrypt c n = Ok t /\ len t = len c /\ rail_fence_encrypt t n = Ok c.
Proof.
  destruct (Z.leb_spec n 1) as [Hn|Hn].
  - exists c. unfold rail_fence_encrypt, rail_fence_decrypt.
    replace (n <=? 1) with true by (symmetry; apply Z.leb_le; lia). auto.
  - destruct (rail_fence_onto c n ltac:(lia)) as [t [Hl E]].
    destruct (rail_fence_roundtrip t n ltac:(lia)) as [c' [Ec [_ Dc]]].
    rewrite E in Ec. injection Ec as <-.
    exists t. repeat split; try assumption. unfold len. now rewrite Hl.
Qed.

(** *** Disruptive: the ciphertext is a rearrangement *)

Lemma list_as_nth (t : list Z) :
  t = map (fun i => nth i t 0) (seq 0 (List.length t)).
Proof.
  apply (nth_ext _ _ 0 (nth 0 t 0)).
  - now rewrite length_map, length_seq.
  - intros i Hi.
    rewrite (map_nth (fun i => nth i t 0)), seq_nth by exact Hi. reflexivity.
Qed.

Lemma range_as_seq (n : nat) : range 0 (Z.of_nat n) = map Z.of_nat (seq 0 n).
Proof.
  unfold range. replace (Z.to_nat (Z.of_nat n - 0)) with n by lia.
  apply map_ext. intros k. lia.
Qed.

Lemma moved_perm (p t c : list Z) :
  Permutation (range 0 (len t)) p -> List.length c = List.length t ->
  (forall i, (i < List.length t)%nat ->
             nth (Z.to_nat (nth i p 0)) c 0 = nth i t 0) ->
  Permutation t c.
Proof.
  intros Hp Hc H.
  assert (Hlp : List.length p = List.length t).
  { rewrite <- (Permutation_length Hp), length_range. unfold len. lia. }
  set (G := fun z => nth (Z.to_nat z) c 0).
  assert (Et : t = map G p).
  { transitivity (map (fun i => nth i t 0) (seq 0 (List.length t)));
      [apply list_as_nth|].
    transitivity (map G (map (fun i => nth i p 0) (seq 0 (List.length p))));
      [|f_equal; symmetry; apply list_as_nth].
    rewrite map_map, Hlp. apply map_ext_in. intros i Hi. apply in_seq in Hi.
    symmetry. apply H. lia. }
  assert (Ec : c = map G (range 0 (len t))).
  { unfold len. rewrite range_as_seq, map_map.
    transitivity (map (fun i => nth i c 0) (seq 0 (List.length c)));
      [apply list_as_nth|].
    rewrite Hc. apply map_ext. intros i. unfold G. now rewrite Nat2Z.id. }
  assert (Hperm : Permutation (map G (range 0 (len t))) (map G p))
    by now apply Permutation_map.
  rewrite <- Et, <- Ec in Hperm. symmetry. exact Hperm.
Qed.

Section DisruptiveFacts.
Variable shuffle : Z -> list Z -> list Z.
Hypothesis shuffle_perm : forall seed l, Permutation l (shuffle seed l).

Lemma disruptive_perm (text key : list Z) :
  exists c,
    disruptive_transposition_encrypt shuffle text key = Ok c /\ Permutation text c.
Proof.
  destruct (disruptive_encrypt_cells shuffle shuffle_perm text key)
    as [c [E [Hl H]]].
  exists c. split; [exact E|].
  apply (moved_perm (shuffled shuffle (key_seed key) (List.length text)));
    [apply shuffle_perm | exact Hl | exact H].
Qed.

Lemma disruptive_same_seed (text key key' : list Z) :
  key_seed key = key_seed key' ->
  exists c,
    disruptive_transposition_encrypt shuffle text key = Ok c
    /\ disruptive_transposition_decrypt shuffle c key' = Ok text.
Proof.
  intros Hs.
  destruct (disruptive_roundtrip shuffle shuffle_perm text key) as [c [E [_ Dc]]].
  exists c. split; [exact E|].
  unfold disruptive_transposition_decrypt in *. rewrite <- Hs. exact Dc.
Qed.
End DisruptiveFacts.

(** *** Columnar and Myszkowski: texts that end in the filler *)

Lemma key_len_pos (key : list Z) : key <> [] -> 0 < len key.
Proof.
  intros Hk. destruct key; [congruence|]. rewrite len_cons.
  pose proof (len_nonneg key). lia.
Qed.

Lemma rstrip_app_pad (t : list Z) (x : Z) (k : nat) :
  rstrip (t ++ repeat x k) x = rstrip t x.
Proof.
  induction t as [|y t IH].
  - cbn [app]. now rewrite rstrip_repeat.
  - cbn [app rstrip]. now rewrite IH.
Qed.

Lemma columnar_roundtrip_strip (text key : list Z) :
  key <> [] ->
  exists c,
    columnar_transposition_encrypt text key = Ok c
    /\ columnar_transposition_decrypt c key = Ok (rstrip text (ord "X")).
Proof.
  intros Hk.
  destruct (columnar_encrypt_columns text key Hk) as [R [M [HM [EM E]]]].
  eexists. split; [exact E|].
  rewrite <- (app_nil_r (concat _)).
  rewrite (columnar_decrypt_columns R M key [] Hk HM), EM, rstrip_app_pad; auto.
  pose proof (key_len_pos key Hk). change (len (@nil Z)) with 0. lia.
Qed.

Lemma myszkowski_encrypt_grid (text key : list Z) (q : Z) (M : list (list Z)) :
  key <> [] -> q = (len text + len key - 1) / len key ->
  wf (Z.to_nat q) (List.length key) M ->
  build_matrix (ljust text (q * len key) (ord "X")) q (len key) = Ok M ->
  myszkowski_encrypt text key
  = Ok (concat (map (letter_block M key) (sorted_letters key))).
Proof.
  intros Hk Eq HM EB.
  pose proof (key_len_pos key Hk) as HC.
  destruct (grid_rows (len text) (len key) (len_nonneg text) HC) as [Hq _].
  rewrite <- Eq in Hq.
  unfold myszkowski_encrypt, floordiv.
  replace (len key =? 0) with false by (symmetry; apply Z.eqb_neq; lia).
  cbn [bind]. rewrite <- Eq. cbv zeta. rewrite EB. cbn [bind].
  pose proof (myszkowski_encrypt_loop key (Z.to_nat q) M HM
                (sorted_letters key) (fun _ H => H) []) as G.
  rewrite Z2Nat.id in G by exact Hq. exact G.
Qed.

Lemma myszkowski_roundtrip_strip (text key : list Z) :
  key <> [] ->
  exists c,
    myszkowski_encrypt text key = Ok c
    /\ myszkowski_decrypt c key = Ok (rstrip text (ord "X")).
Proof.
  intros Hk.
  set (q := (len text + len key - 1) / len key).
  destruct (padded_grid text key q Hk eq_refl) as [M [HM [EM EB]]].
  exists (concat (map (letter_block M key) (sorted_letters key))).
  split.
  - now apply (myszkowski_encrypt_grid text key q M).
  - rewrite (myszkowski_decrypt_grid key (Z.to_nat q) M HM Hk).
    rewrite EM, rstrip_app_pad. reflexivity.
Qed.

(** *** Columnar: the ciphertext is the padded text, rearranged *)

Lemma concat_cons_perm {A B} (f : A -> B) (g : A -> list B) (js : list A) :
  Permutation (concat (map (fun j => f j :: g j) js))
              (map f js ++ concat (map g js)).
Proof.
  induction js as [|j js IH]; [constructor|].
  cbn [map concat app]. apply perm_skip.
  etransitivity; [apply Permutation_app_head; exact IH|].
  apply Permutation_app_swap_app.
Qed.

Lemma row_as_nth (row : list Z) :
  map (fun col => nth (Z.to_nat col) row 0) (range 0 (len row)) = row.
Proof.
  unfold len. rewrite range_as_seq, map_map. symmetry.
  etransitivity; [apply list_as_nth|].
  apply map_ext. intros i. now rewrite Nat2Z.id.
Qed.

Lemma columns_perm (C : nat) (M : list (list Z)) :
  Forall (fun row => List.length row = C) M ->
  Permutation
    (concat (map (fun col => map (fun row => nth (Z.to_nat col) row 0) M)
                 (range 0 (Z.of_nat C))))
    (concat M).
Proof.
  induction 1 as [|row M Hrow HM IH].
  - cbn [map]. rewrite concat_map_nil. constructor.
  - cbn [map concat].
    etransitivity;
      [apply (concat_cons_perm (fun col => nth (Z.to_nat col) row 0))|].
    replace (Z.of_nat C) with (len row) at 1 by (unfold len; now rewrite Hrow).
    rewrite row_as_nth. apply Permutation_app_head. exact IH.
Qed.

Lemma columnar_columns_perm (R : nat) (M : list (list Z)) (key : list Z) :
  wf R (List.length key) M ->
  Permutation (concat M) (concat (map (column M) (map fst (key_order key)))).
Proof.
  intros HM. symmetry. rewrite <- flat_map_concat_map.
  etransitivity; [apply Permutation_flat_map; apply key_order_perm|].
  rewrite flat_map_concat_map.
  rewrite (map_ext _ (fun col => map (fun row => nth (Z.to_nat col) row 0) M))
    by (intros col; symmetry; apply (column_rows R (List.length key)); exact HM).
  apply columns_perm. apply HM.
Qed.

Lemma columnar_encrypt_grid (text key : list Z) (q : Z) (M : list (list Z)) :
  key <> [] -> q = (len text + len key - 1) / len key ->
  wf (Z.to_nat q) (List.length key) M ->
  build_matrix (ljust text (q * len key) (ord "X")) q (len key) = Ok M ->
  columnar_transposition_encrypt text key
  = Ok (concat (map (column M) (map fst (key_order key)))).
Proof.
  intros Hk Eq HM EB.
  pose proof (key_len_pos key Hk) as HC.
  unfold columnar_transposition_encrypt, floordiv.
  replace (len key =? 0) with false by (symmetry; apply Z.eqb_neq; lia).
  cbn [bind]. rewrite <- Eq. cbv zeta. rewrite EB. cbn [bind].
  rewrite (read_columns (Z.to_nat q) (List.length key)); [reflexivity|exact HM|].
  intros col Hcol.
  apply (Permutation_in _ (key_order_perm key)) in Hcol. apply in_range in Hcol.
  unfold len in Hcol. lia.
Qed.

Lemma columnar_encrypt_shape (text key : list Z) :
  key <> [] ->
  exists c,
    columnar_transposition_encrypt text key = Ok c
    /\ len c = (len text + len key - 1) / len key * len key
    /\ Permutation
         (ljust text ((len text + len key - 1) / len key * len key) (ord "X")) c.
Proof.
  intros Hk.
  pose proof (key_len_pos key Hk) as HC.
  set (q := (len text + len key - 1) / len key).
  destruct (padded_grid text key q Hk eq_refl) as [M [HM [EM EB]]].
  destruct (grid_rows (len text) (len key) (len_nonneg text) HC) as [Hq _].
  fold q in Hq.
  eexists. split; [now apply (columnar_encrypt_grid text key q M)|]. split.
  - rewrite (len_columns (Z.to_nat q)) by exact HM. lia.
  - unfold ljust. rewrite <- EM. now apply (columnar_columns_perm (Z.to_nat q)).
Qed.

(** *** Double transposition: when the round trip is exact *)

Lemma exact_rows (n k : Z) : 0 < k -> n mod k = 0 -> (n + k - 1) / k * k = n.
Proof.
  intros Hk Hm. pose proof (Z.div_mod n k ltac:(lia)) as D. rewrite Hm in D.
  replace (n + k - 1) with (n / k * k + (k - 1)) by lia.
  rewrite Z.div_add_l by lia. rewrite (Z.div_small (k - 1)) by lia. lia.
Qed.

Lemma no_X_no_trailing_X (t : list Z) : ~ In (ord "X") t -> no_trailing_X t.
Proof.
  intros H t' E. apply H. rewrite E. apply in_or_app. right. now left.
Qed.

Lemma double_roundtrip_exact (text key1 key2 : list Z) :
  key1 <> [] -> key2 <> [] -> ~ In (ord "X") text -> len text mod len key1 = 0 ->
  exists c,
    double_transposition_encrypt text key1 key2 = Ok c
    /\ double_transposition_decrypt c key1 key2 = Ok text.
Proof.
  intros H1 H2 Hx Hd.
  destruct (columnar_encrypt_shape text key1 H1) as [c1 [E1 [_ P1]]].
  rewrite (exact_rows _ _ (key_len_pos key1 H1) Hd) in P1.
  unfold ljust in P1. rewrite Z.sub_diag in P1. cbn [Z.to_nat repeat] in P1.
  rewrite app_nil_r in P1.
  assert (Hx1 : no_trailing_X c1).
  { apply no_X_no_trailing_X. intros Hin. apply Hx.
    apply (Permutation_in _ (Permutation_sym P1)). exact Hin. }
  destruct (columnar_roundtrip text key1 H1 (no_X_no_trailing_X text Hx))
    as [c1' [E1' D1]].
  rewrite E1 in E1'. injection E1' as <-.
  destruct (columnar_roundtrip c1 key2 H2 Hx1) as [c2 [E2 D2]].
  exists c2. unfold double_transposition_encrypt, double_transposition_decrypt.
  rewrite E1. cbn [bind]. rewrite E2, D2. cbn [bind]. auto.
Qed.

(** *** Myszkowski with a key without repeated letters *)

Lemma keys_dict_set_new {V} (d : dict V) (k : Z) (v : V) :
  ~ In k (keys d) -> keys (dict_set d k v) = keys d ++ [k].
Proof.
  induction d as [|[k' v'] d IH]; intros H; [reflexivity|].
  cbn [dict_set]. destruct (Z.eqb_spec k k') as [->|N].
  - exfalso. apply H. now left.
  - unfold keys in *. cbn [map fst app]. f_equal. apply IH.
    intros Hin. apply H. now right.
Qed.

Lemma key_groups_keys (key : list Z) : NoDup key -> keys (key_groups key) = key.
Proof.
  intros Hnd. unfold key_groups.
  rewrite <- (map_snd_enumerate key) at 2.
  rewrite <- (map_snd_enumerate key) in Hnd.
  apply (fold_left_invariant _ (fun done g => keys g = map snd done)).
  - reflexivity.
  - intros pre [idx letter] post g E Hg.
    rewrite E, map_app in Hnd. cbn [map snd] in Hnd.
    apply NoDup_remove_2 in Hnd.
    rewrite keys_dict_set_new.
    + rewrite Hg, map_app. reflexivity.
    + rewrite Hg. intros Hin. apply Hnd. apply in_or_app. now left.
Qed.

Lemma insert_sorted_snd (x : Z * Z) (s : list (Z * Z)) :
  ~ In (snd x) (map snd s) ->
  map snd (insert_sorted order_leb x s) = insert_sorted Z.leb (snd x) (map snd s).
Proof.
  induction s as [|y s IH]; intros H; [reflexivity|].
  cbn [insert_sorted map].
  assert (N : snd x <> snd y) by (intros E; apply H; left; auto).
  replace (order_leb x y) with (snd x <=? snd y).
  - destruct (snd x <=? snd y); cbn [map]; [reflexivity|].
    f_equal. apply IH. intros Hin. apply H. now right.
  - unfold order_leb.
    replace (snd x =? snd y) with false by (symmetry; apply Z.eqb_neq; exact N).
    cbn [andb]. rewrite orb_false_r.
    destruct (Z.leb_spec (snd x) (snd y)), (Z.ltb_spec (snd x) (snd y)); auto; lia.
Qed.

Lemma sorted_snd (l : list (Z * Z)) :
  NoDup (map snd l) -> map snd (sorted order_leb l) = sorted Z.leb (map snd l).
Proof.
  induction l as [|x l IH]; intros Hnd; [reflexivity|].
  cbn [map] in Hnd. apply NoDup_cons_iff in Hnd. destruct Hnd as [Hx Hnd].
  unfold sorted in *. cbn [map fold_right]. rewrite <- IH by exact Hnd.
  apply insert_sorted_snd. intros Hin. apply Hx.
  apply (Permutation_in (l := map snd (fold_right (insert_sorted order_leb) [] l)));
    [|exact Hin].
  apply Permutation_map. apply (sorted_perm order_leb).
Qed.

Lemma filter_none {A} (f : A -> bool) (l : list A) :
  (forall x, In x l -> f x = false) -> filter f l = [].
Proof.
  induction l as [|x l IH]; intros H; [reflexivity|].
  cbn [filter]. rewrite (H x) by now left. apply IH. intros y Hy. apply H. now right.
Qed.

Lemma filter_unique (l : list (Z * Z)) (p : Z * Z) :
  NoDup (map snd l) -> In p l -> filter (fun q => snd q =? snd p) l = [p].
Proof.
  induction l as [|y l IH]; intros Hnd Hin; [contradiction|].
  cbn [map] in Hnd. apply NoDup_cons_iff in Hnd. destruct Hnd as [Hy Hnd].
  cbn [filter]. destruct Hin as [->|Hin].
  - rewrite Z.eqb_refl. f_equal.
    apply filter_none. intros q Hq. apply Z.eqb_neq.
    intros E. apply Hy. rewrite <- E. now apply in_map.
  - destruct (Z.eqb_spec (snd y) (snd p)) as [E|N].
    + exfalso. apply Hy. rewrite E. now apply in_map.
    + now apply IH.
Qed.

Lemma block_single (M : list (list Z)) (col : Z) : block M [col] = column M col.
Proof.
  unfold block, column.
  induction (range 0 (len M)) as [|r rs IH]; [reflexivity|].
  cbn [flat_map map app]. now f_equal.
Qed.

Lemma myszkowski_blocks_columns (M : list (list Z)) (key : list Z) :
  NoDup key ->
  concat (map (letter_block M key) (sorted_letters key))
  = concat (map (column M) (map fst (key_order key))).
Proof.
  intros Hnd. f_equal.
  assert (Hsnd : NoDup (map snd (enumerate key))) by now rewrite map_snd_enumerate.
  unfold sorted_letters. rewrite key_groups_keys by exact Hnd.
  replace (sorted Z.leb key) with (sorted Z.leb (map snd (enumerate key)))
    by now rewrite map_snd_enumerate.
  rewrite <- sorted_snd by exact Hsnd. fold (key_order key).
  rewrite !map_map. apply map_ext_in. intros p Hp.
  apply (Permutation_in _ (sorted_perm order_leb (enumerate key))) in Hp.
  unfold letter_block, letter_cols, idxs.
  rewrite filter_unique by assumption. cbn [map]. apply block_single.
Qed.

Lemma myszkowski_columnar_agree (text key : list Z) :
  NoDup key -> myszkowski_encrypt text key = columnar_transposition_encrypt text key.
Proof.
  intros Hnd. destruct key as [|k0 key0] eqn:Ek; [reflexivity|]. rewrite <- Ek in *.
  assert (Hk : key <> []) by (rewrite Ek; discriminate).
  set (q := (len text + len key - 1) / len key).
  destruct (padded_grid text key q Hk eq_refl) as [M [HM [_ EB]]].
  rewrite (myszkowski_encrypt_grid text key q M), (columnar_encrypt_grid text key q M)
    by auto.
  f_equal. now apply myszkowski_blocks_columns.
Qed.

(** *** Columnar decryption never raises *)

Lemma getitem_out {A} (l : list A) (i : Z) : len l <= i -> getitem l i = Raise IndexError.
Proof.
  intros H. pose proof (len_nonneg l). unfold getitem, norm_index.
  replace (i <? len l) with false by (symmetry; apply Z.ltb_ge; lia).
  replace (i <? 0) with false by (symmetry; apply Z.ltb_ge; lia).
  rewrite !andb_false_r. reflexivity.
Qed.

Lemma columnar_decrypt_total (ciphertext key : list Z) :
  key <> [] -> exists t, columnar_transposition_decrypt ciphertext key = Ok t.
Proof.
  intros Hk. pose proof (key_len_pos key Hk) as HC.
  unfold columnar_transposition_decrypt, floordiv.
  replace (len key =? 0) with false by (symmetry; apply Z.eqb_neq; lia).
  cbn [bind].
  set (q := len ciphertext / len key).
  assert (Hq : 0 <= q) by (apply Z.div_pos; [apply len_nonneg | lia]).
  assert (Hqc : q * len key <= len ciphertext).
  { rewrite Z.mul_comm. apply Z.mul_div_le. lia. }
  set (R := Z.to_nat q). set (C := List.length key).
  assert (Hord : forall pre x post, key_order key = pre ++ x :: post ->
                                    0 <= fst x < Z.of_nat C /\ len pre < len key).
  { intros pre x post E. split.
    - assert (Hin : In (fst x) (map fst (key_order key))).
      { rewrite E, map_app. apply in_or_app. right. now left. }
      apply (Permutation_in _ (key_order_perm key)) in Hin. apply in_range in Hin.
      unfold C, len in *. lia.
    - pose proof (Permutation_length (key_order_perm key)) as Hl.
      rewrite length_map, length_range, E, length_app in Hl. cbn [List.length] in Hl.
      unfold len in *. lia. }
  destruct (foldM_invariant
              (fun st '(col_index, _) =>
                 foldM (fun '(matrix, index) r =>
                          x <- getitem ciphertext index ;;
                          matrix <- mset matrix r col_index [x] ;;
                          Ok (matrix, index + 1))
                       (range 0 q) st)
              (fun done st => wf R C (fst st) /\ snd st = len done * q)
              (key_order key)
              (repeat (repeat ([] : list Z) C) R, 0))
    as [[matrix index] [E _]].
  - split; [apply wf_repeat | reflexivity].
  - intros pre [col letter] post [matrix index] Eo [Hwf Hidx].
    cbn [fst snd] in Hwf, Hidx.
    destruct (Hord pre (col, letter) post Eo) as [Hcol Hpre]. cbn [fst] in Hcol.
    destruct (foldM_invariant
                (fun '(matrix, index) r =>
                   x <- getitem ciphertext index ;;
                   matrix <- mset matrix r col [x] ;;
                   Ok (matrix, index + 1))
                (fun done st => wf R C (fst st) /\ snd st = index + len done)
                (range 0 q) (matrix, index))
      as [[matrix' index'] [E' [Hwf' Hidx']]].
    + split; [exact Hwf | cbn [snd]; change (len (@nil Z)) with 0; lia].
    + intros pre' r post' [m i] Er [Hm Hi]. cbn [fst snd] in Hm, Hi.
      destruct (range_split 0 q r pre' post' Er) as [Hr Hrq].
      pose proof (len_nonneg pre') as Hp'. pose proof (len_nonneg pre) as Hp.
      assert (Hi' : 0 <= i < len ciphertext) by nia.
      rewrite (getitem_nth _ _ 0) by exact Hi'. cbn [bind].
      destruct (mset_ok [] R C m r col [nth (Z.to_nat i) ciphertext 0] Hm)
        as [m' [Em [Hm' _]]]; [unfold R; lia | exact Hcol |].
      rewrite Em. cbn [bind]. eexists. split; [reflexivity|].
      cbn [fst snd]. split; [exact Hm'|]. rewrite len_app, len_cons, len_nil. lia.
    + exists (matrix', index'). split; [exact E'|]. cbn [fst snd] in *.
      split; [exact Hwf'|].
      assert (Hlr : len (range 0 q) = q) by (unfold len; rewrite length_range; lia).
      rewrite len_app. change (len [(col, letter)]) with 1. lia.
  - fold R. replace (Z.to_nat (len key)) with C by (unfold C, len; now rewrite Nat2Z.id).
    rewrite E. cbn [bind]. eexists. reflexivity.
Qed.

Lemma columnar_encrypt_total (text key : list Z) :
  key <> [] -> exists c, columnar_transposition_encrypt text key = Ok c.
Proof.
  intros Hk. destruct (columnar_encrypt_columns text key Hk) as [R [M [_ [_ E]]]].
  eauto.
Qed.

Lemma empty_key_zero_division (text key1 key2 : list Z) :
  key1 = [] \/ key2 = [] ->
  columnar_transposition_encrypt text [] = Raise ZeroDivisionError
  /\ columnar_transposition_decrypt text [] = Raise ZeroDivisionError
  /\ myszkowski_encrypt text [] = Raise ZeroDivisionError
  /\ myszkowski_decrypt text [] = Raise ZeroDivisionError
  /\ double_transposition_encrypt text key1 key2 = Raise ZeroDivisionError
  /\ double_transposition_decrypt text key1 key2 = Raise ZeroDivisionError.
Proof.
  intros H. do 4 (split; [reflexivity|]).
  unfold double_transposition_encrypt, double_transposition_decrypt. split.
  - destruct key1 as [|k key1]; [reflexivity|].
    destruct H as [H|H]; [discriminate|subst key2].
    destruct (columnar_encrypt_total text (k :: key1)) as [c E]; [discriminate|].
    rewrite E. reflexivity.
  - destruct key2 as [|k key2]; [reflexivity|].
    destruct H as [H|H]; [subst key1|discriminate].
    destruct (columnar_decrypt_total text (k :: key2)) as [c E]; [discriminate|].
    rewrite E. reflexivity.
Qed.

Lemma double_decrypt_total (ciphertext key1 key2 : list Z) :
  key1 <> [] -> key2 <> [] ->
  (exists t, columnar_transposition_decrypt ciphertext key1 = Ok t)
  /\ (exists t, double_transposition_decrypt ciphertext key1 key2 = Ok t).
Proof.
  intros H1 H2. split; [now apply columnar_decrypt_total|].
  unfold double_transposition_decrypt.
  destruct (columnar_decrypt_total ciphertext key2 H2) as [t E]. rewrite E. cbn [bind].
  now apply columnar_decrypt_total.
Qed.

(** *** Route: degenerate grids, long plaintexts and short ciphertexts *)

Lemma spiral_done {S} (visit : Z -> Z -> S -> result S) (fuel : nat)
      (top bottom left right : Z) (s : S) :
  (top <=? bottom) && (left <=? right) = false ->
  spiral visit fuel top bottom left right s = Ok s.
Proof. intros H. destruct fuel; cbn [spiral]; now rewrite H. Qed.

Lemma build_matrix_no_columns (text : list Z) (rows cols : Z) :
  cols <= 0 -> exists M, build_matrix text rows cols = Ok M.
Proof.
  intros Hc. unfold build_matrix. rewrite (range_nil 0 cols) by lia. cbn [mapM bind].
  assert (G : forall (l : list Z) (m : list (list Z)) (i : Z),
             exists st, foldM (fun '(matrix, index) (_ : Z) =>
                                 Ok (matrix ++ [[]], index + cols)) l (m, i) = Ok st).
  { induction l as [|x l IH]; intros m i; cbn [foldM bind]; eauto. }
  destruct (G (range 0 rows) [] 0) as [[M i] E]. rewrite E. cbn [bind]. eauto.
Qed.

Lemma join_cells_empty_rows (n : nat) : join_cells (repeat [] n) = Ok [].
Proof.
  unfold join_cells.
  rewrite (mapM_ok _ (fun _ => [])) by (intros row Hr; apply repeat_spec in Hr;
                                        now subst row).
  cbn [bind]. now rewrite concat_map_nil.
Qed.

Lemma route_degenerate (text : list Z) (rows cols : Z) :
  rows <= 0 \/ cols <= 0 ->
  route_cipher_encrypt text rows cols = Ok []
  /\ route_cipher_decrypt text rows cols = Ok [].
Proof.
  intros H.
  assert (Hcond : (0 <=? rows - 1) && (0 <=? cols - 1) = false).
  { apply andb_false_iff.
    destruct H; [left | right]; apply Z.leb_gt; lia. }
  split.
  - unfold route_cipher_encrypt. cbv zeta.
    assert (HB : exists M, build_matrix (ljust text (rows * cols) (ord "X")) rows cols
                           = Ok M).
    { destruct (Z.leb_spec cols 0) as [Hc|Hc];
        [now apply build_matrix_no_columns|].
      destruct H as [Hr|Hc']; [|lia].
      unfold build_matrix. rewrite (range_nil 0 rows) by lia. cbn. eauto. }
    destruct HB as [M ->]. cbn [bind]. now apply spiral_done.
  - unfold route_cipher_decrypt. cbv zeta.
    rewrite spiral_done by exact Hcond. cbn [bind].
    destruct (Z.leb_spec cols 0) as [Hc|Hc].
    + replace (Z.to_nat cols) with 0%nat by lia. cbn [repeat].
      apply join_cells_empty_rows.
    + destruct H as [Hr|Hc']; [|lia].
      replace (Z.to_nat rows) with 0%nat by lia. reflexivity.
Qed.

Lemma route_long_text (text extra : list Z) (rows cols : Z) :
  1 <= rows -> 1 <= cols -> len text = rows * cols ->
  route_cipher_encrypt (text ++ extra) rows cols = route_cipher_encrypt text rows cols.
Proof.
  intros Hr Hc Hl.
  destruct (chunk_exists (Z.to_nat cols) (Z.to_nat rows) text) as [M [HM EM]].
  { unfold len in Hl. nia. }
  assert (E1 : build_matrix (text ++ extra) rows cols = Ok M).
  { rewrite <- EM.
    replace rows with (Z.of_nat (Z.to_nat rows)) at 1 by lia.
    replace cols with (Z.of_nat (Z.to_nat cols)) at 1 by lia.
    now apply build_matrix_concat. }
  assert (E2 : build_matrix text rows cols = Ok M).
  { rewrite <- (app_nil_r text). rewrite <- EM at 1.
    replace rows with (Z.of_nat (Z.to_nat rows)) at 1 by lia.
    replace cols with (Z.of_nat (Z.to_nat cols)) at 1 by lia.
    now apply build_matrix_concat. }
  pose proof (len_nonneg extra) as He.
  unfold route_cipher_encrypt, ljust. cbv zeta. rewrite len_app.
  replace (Z.to_nat (rows * cols - (len text + len extra))) with 0%nat by lia.
  replace (Z.to_nat (rows * cols - len text)) with 0%nat by lia.
  cbn [repeat]. rewrite !app_nil_r, E1, E2. reflexivity.
Qed.

Lemma NoDup_cells (rs cs : list Z) :
  NoDup rs -> NoDup cs -> NoDup (list_prod rs cs).
Proof.
  intros Hr Hc. induction Hr as [|r rs Hnot Hr IH]; cbn [list_prod]; [constructor|].
  apply NoDup_app.
  - apply Injective_map_NoDup; [|exact Hc]. intros x y E. now inversion E.
  - exact IH.
  - intros [i j] Hin Hin'. apply in_map_iff in Hin. destruct Hin as [c [E _]].
    inversion E; subst. apply in_prod_iff in Hin'. tauto.
Qed.

Lemma spiral_cells_count (rows cols : Z) :
  1 <= rows -> 1 <= cols ->
  rows * cols <= len (spiral_cells (laps rows) 0 (rows - 1) 0 (cols - 1)).
Proof.
  intros Hr Hc.
  pose proof (NoDup_incl_length
                (NoDup_cells _ _ (NoDup_range 0 rows) (NoDup_range 0 cols))
                (l' := spiral_cells (laps rows) 0 (rows - 1) 0 (cols - 1))) as H.
  rewrite length_prod, !length_range in H. unfold len.
  assert (Hincl : incl (list_prod (range 0 rows) (range 0 cols))
                       (spiral_cells (laps rows) 0 (rows - 1) 0 (cols - 1))).
  { intros [i j] Hin. apply in_prod_iff in Hin. rewrite !in_range in Hin.
    apply spiral_cells_cover; unfold laps; lia. }
  specialize (H Hincl). nia.
Qed.

Lemma write_short (c : list Z) (R C : nat) (ps : list (Z * Z)) :
  forall (M' : list (list (option Z))) (i : Z),
    (forall p, In p ps -> 0 <= fst p < Z.of_nat R /\ 0 <= snd p < Z.of_nat C) ->
    wf R C M' -> 0 <= i <= len c -> len c < i + len ps ->
    foldM (fun st p =>
             x <- getitem c (snd st) ;;
             matrix <- mset (fst st) (fst p) (snd p) (Some x) ;;
             Ok (matrix, snd st + 1))
          ps (M', i)
    = Raise IndexError.
Proof.
  induction ps as [|p ps IH]; intros M' i Hps Hwf Hi Hl.
  - change (len (@nil (Z * Z))) with 0 in Hl. lia.
  - cbn [foldM fst snd]. rewrite len_cons in Hl.
    destruct (Z.eq_dec i (len c)) as [->|N].
    + rewrite getitem_out by lia. reflexivity.
    + rewrite (getitem_nth _ _ 0) by lia. cbn [bind].
      destruct (Hps p (or_introl eq_refl)) as [Hp1 Hp2].
      destruct (mset_ok None R C M' (fst p) (snd p)
                        (Some (nth (Z.to_nat i) c 0)) Hwf Hp1 Hp2)
        as [M'' [Em [Hwf' _]]].
      rewrite Em. cbn [bind]. apply IH; auto; try lia.
      intros q Hq. apply Hps. now right.
Qed.

Lemma route_decrypt_short (ciphertext : list Z) (rows cols : Z) :
  1 <= rows -> 1 <= cols -> len ciphertext < rows * cols ->
  route_cipher_decrypt ciphertext rows cols = Raise IndexError.
Proof.
  intros Hr Hc Hl. unfold route_cipher_decrypt. cbv zeta.
  rewrite (spiral_foldM
             (fun r c '(matrix, index) =>
                x <- getitem ciphertext index ;;
                matrix <- mset matrix r c (Some x) ;;
                Ok (matrix, index + 1)))
    by (unfold laps; lia).
  rewrite (foldM_ext _ (fun st p =>
             x <- getitem ciphertext (snd st) ;;
             matrix <- mset (fst st) (fst p) (snd p) (Some x) ;;
             Ok (matrix, snd st + 1))).
  2:{ intros [matrix index] p _. reflexivity. }
  rewrite (write_short ciphertext (Z.to_nat rows) (Z.to_nat cols)); [reflexivity| | | |].
  - intros [i j] Hin. apply spiral_cells_inside in Hin. cbn [fst snd]. lia.
  - apply wf_repeat.
  - pose proof (len_nonneg ciphertext). lia.
  - pose proof (spiral_cells_count rows cols Hr Hc). lia.
Qed.

Lemma no_X_forallb (t : list Z) :
  forallb (fun c => negb (c =? ord "X")) t = true -> ~ In (ord "X") t.
Proof.
  intros H Hin. rewrite forallb_forall in H. specialize (H _ Hin).
  rewrite Z.eqb_refl in H. discriminate.
Qed.

Lemma NoDup_distinct (l : list Z) : distinct l = true -> NoDup l.
Proof.
  induction l as [|x l IH]; intros H; [constructor|].
  cbn [distinct] in H. apply andb_true_iff in H. destruct H as [Hx Hl].
  constructor; [|now apply IH].
  intros Hin. apply mem_In in Hin. rewrite Hin in Hx. discriminate.
Qed.

(** *** Substitution ciphers: composing two passes *)

Lemma sub_ext (f g : Z -> Z) (c : Z) :
  (forall u, 65 <= u <= 90 -> f u = g u) -> sub f c = sub g c.
Proof.
  intros H. unfold sub, is_AZ. change (ord "A") with 65. change (ord "Z") with 90.
  destruct ((65 <=? c) && (c <=? 90)) eqn:E; [|reflexivity]. zb. apply H. lia.
Qed.

Lemma sub_compose_point (g h : Z -> Z) (c : Z) :
  (forall u, 65 <= u <= 90 -> 65 <= g u <= 90) -> 0 <= c < 128 ->
  0 <= sub g (up c) < 128
  /\ sub h (up (sub g (up c))) = sub (fun u => h (g u)) (up c).
Proof.
  intros Hg Hc. destruct (up_range c Hc) as [Hu Hnl].
  unfold sub, is_AZ. change (ord "A") with 65. change (ord "Z") with 90.
  destruct ((65 <=? up c) && (up c <=? 90)) eqn:E; zb.
  - specialize (Hg (up c) ltac:(lia)).
    assert (Eu : up (g (up c)) = g (up c)) by (unfold up at 1; zcases; lia).
    rewrite Eu.
    replace ((65 <=? g (up c)) && (g (up c) <=? 90)) with true
      by (symmetry; apply andb_true_iff; rewrite !Z.leb_le; lia).
    split; [lia | reflexivity].
  - assert (Eu : up (up c) = up c) by (unfold up at 1; zcases; lia).
    rewrite Eu, E. split; [lia | reflexivity].
Qed.

Lemma subst_compose (g h : Z -> Z) (text : list Z) :
  is_ascii text -> (forall u, 65 <= u <= 90 -> 65 <= g u <= 90) ->
  map (sub h) (upper (map (sub g) (upper text)))
  = map (sub (fun u => h (g u))) (upper text).
Proof.
  intros Ha Hg. rewrite (upper_ascii text Ha).
  assert (Ha' : is_ascii (map (sub g) (map up text))).
  { rewrite map_map. unfold is_ascii in *. rewrite Forall_forall in *.
    intros x Hx. apply in_map_iff in Hx. destruct Hx as [c [<- Hc]].
    apply (sub_compose_point g h c Hg (Ha c Hc)). }
  rewrite (upper_ascii _ Ha'), !map_map.
  apply map_ext_in. intros c Hc.
  unfold is_ascii in Ha. rewrite Forall_forall in Ha.
  apply (sub_compose_point g h c Hg (Ha c Hc)).
Qed.

Lemma mod26_letter (x : Z) : 65 <= x mod 26 + 65 <= 90.
Proof. pose proof (Z.mod_pos_bound x 26 ltac:(lia)). lia. Qed.

Lemma additive_compose (text : list Z) (k1 k2 : Z) :
  is_ascii text ->
  additive_encrypt (additive_encrypt text k1) k2 = additive_encrypt text (k1 + k2).
Proof.
  intros Ha. rewrite !additive_encrypt_map.
  rewrite subst_compose by (auto; intros; apply mod26_letter).
  apply map_ext. intros c. apply sub_ext. intros u Hu.
  replace ((u - 65 + k1) mod 26 + 65 - 65 + k2) with ((u - 65 + k1) mod 26 + k2) by lia.
  rewrite Zplus_mod_idemp_l. do 2 f_equal. lia.
Qed.

Lemma additive_period (text : list Z) (k j : Z) :
  additive_encrypt text (k + 26 * j) = additive_encrypt text k.
Proof.
  rewrite !additive_encrypt_map. apply map_ext. intros c. apply sub_ext. intros u _.
  replace (u - 65 + (k + 26 * j)) with (u - 65 + k + j * 26) by lia.
  now rewrite Z.mod_add by lia.
Qed.

Lemma additive_zero (text : list Z) : additive_encrypt text 0 = upper text.
Proof.
  rewrite additive_encrypt_map. rewrite <- (map_id (upper text)) at 2.
  apply map_ext. intros c. unfold sub, is_AZ.
  change (ord "A") with 65. change (ord "Z") with 90.
  destruct ((65 <=? c) && (c <=? 90)) eqn:E; [|reflexivity]. zb.
  rewrite Z.add_0_r, Z.mod_small by lia. lia.
Qed.

Lemma affine_split (text : list Z) (a b : Z) :
  is_ascii text -> Z.gcd a 26 = 1 ->
  affine_encrypt text a b
  = ([], additive_encrypt (snd (multiplicative_encrypt text a)) b)
  /\ affine_decrypt text a b = multiplicative_decrypt (additive_decrypt text b) a.
Proof.
  intros Ha Hg.
  unfold affine_encrypt, affine_decrypt, multiplicative_encrypt, multiplicative_decrypt,
    additive_decrypt.
  rewrite Hg. cbn [Z.eqb Pos.eqb negb snd].
  destruct (mod_inv_some a 26 ltac:(lia) Hg) as [inverse [E _]].
  rewrite E. cbv zeta. change (ord "A") with 65.
  rewrite !additive_encrypt_map.
  rewrite (subst_loop is_AZ (fun c => (a * (c - 65) + b) mod 26 + 65) (upper text) []).
  rewrite (subst_loop is_AZ (fun c => ((c - 65) * a) mod 26 + 65) (upper text) []).
  rewrite (subst_loop is_AZ (fun c => (inverse * (c - 65 - b)) mod 26 + 65) (upper text) []).
  rewrite (subst_loop is_AZ (fun c => ((c - 65) * inverse) mod 26 + 65) _ []).
  cbn [app].
  assert (E1 : map (sub (fun c => (c - 65 + b) mod 26 + 65))
                   (upper (map (sub (fun c => ((c - 65) * a) mod 26 + 65)) (upper text)))
               = map (sub (fun c => (a * (c - 65) + b) mod 26 + 65)) (upper text)).
  { rewrite subst_compose by (auto; intros; apply mod26_letter).
    apply map_ext. intros c. apply sub_ext. intros u Hu.
    replace (((u - 65) * a) mod 26 + 65 - 65 + b) with (((u - 65) * a) mod 26 + b) by lia.
    rewrite Zplus_mod_idemp_l. do 2 f_equal. lia. }
  assert (E2 : map (sub (fun c => ((c - 65) * inverse) mod 26 + 65))
                   (upper (map (sub (fun c => (c - 65 + - b) mod 26 + 65)) (upper text)))
               = map (sub (fun c => (inverse * (c - 65 - b)) mod 26 + 65)) (upper text)).
  { rewrite subst_compose by (auto; intros; apply mod26_letter).
    apply map_ext. intros c. apply sub_ext. intros u Hu.
    replace ((u - 65 + - b) mod 26 + 65 - 65) with ((u - 65 + - b) mod 26) by lia.
    rewrite Z.mul_mod_idemp_l by lia. do 2 f_equal. lia. }
  split.
  - f_equal. symmetry. exact E1.
  - f_equal. f_equal. symmetry. exact E2.
Qed.

(** *** Substitution ciphers: what a pass changes *)

Lemma isalpha_ascii (c : Z) : 0 <= c < 128 -> isalpha c = is_AZ (up c).
Proof.
  intros Hc. apply eqb_prop.
  apply (ascii_forall (fun c => Bool.eqb (isalpha c) (is_AZ (up c)))); [|exact Hc].
  vm_compute. reflexivity.
Qed.

Lemma subst_shape (g : Z -> Z) (text : list Z) :
  is_ascii text -> (forall u, 65 <= u <= 90 -> 65 <= g u <= 90) ->
  keeps_shape text (map (sub g) (upper text)).
Proof.
  intros Ha Hg. rewrite (upper_ascii text Ha), map_map. unfold keeps_shape.
  induction Ha as [|c text Hc Ht IH]; cbn [map]; constructor; [|exact IH].
  rewrite (isalpha_ascii c Hc). unfold sub.
  destruct (is_AZ (up c)) eqn:E.
  - apply Hg. unfold is_AZ in E. change (ord "A") with 65 in E.
    change (ord "Z") with 90 in E. zb. lia.
  - unfold is_AZ in E. change (ord "A") with 65 in E. change (ord "Z") with 90 in E.
    unfold up in *. destruct ((97 <=? c) && (c <=? 122)) eqn:E'; [|reflexivity].
    zb. apply andb_false_iff in E. destruct E; zb; lia.
Qed.

Lemma substitution_shapes (text : list Z) (key mkey a b : Z) :
  is_ascii text -> Z.gcd mkey 26 = 1 -> Z.gcd a 26 = 1 ->
  keeps_shape text (additive_encrypt text key)
  /\ keeps_shape text (snd (multiplicative_encrypt text mkey))
  /\ keeps_shape text (snd (affine_encrypt text a b)).
Proof.
  intros Ha Hm Hg. split; [|split].
  - rewrite additive_encrypt_map. apply subst_shape; [exact Ha|].
    intros; apply mod26_letter.
  - unfold multiplicative_encrypt. rewrite Hm. cbn [Z.eqb Pos.eqb negb snd].
    change (ord "A") with 65.
    rewrite (subst_loop is_AZ (fun c => ((c - 65) * mkey) mod 26 + 65) (upper text) []).
    apply subst_shape; [exact Ha|]. intros; apply mod26_letter.
  - unfold affine_encrypt. rewrite Hg. cbn [Z.eqb Pos.eqb negb snd].
    rewrite (subst_loop is_AZ (fun c => (a * (c - 65) + b) mod 26 + 65) (upper text) []).
    apply subst_shape; [exact Ha|]. intros; apply mod26_letter.
Qed.

(** *** The second error branch of the decryptions *)

Lemma multiplicative_decrypt_log (text : list Z) (key : Z) :
  fst (multiplicative_decrypt text key)
  <> ["Error: No modular inverse for this key!"%string]
  /\ exists s, snd (multiplicative_decrypt text key) = Ok s.
Proof.
  destruct (Z.eq_dec (Z.gcd key 26) 1) as [Hg|Hg].
  - unfold multiplicative_decrypt. rewrite Hg. cbn [Z.eqb Pos.eqb negb].
    destruct (mod_inv_some key 26 ltac:(lia) Hg) as [inverse [E _]]. rewrite E.
    cbn [fst snd]. split; [discriminate | eauto].
  - rewrite multiplicative_decrypt_invalid by exact Hg.
    cbn [fst snd]. split; [discriminate | eauto].
Qed.

Lemma affine_decrypt_log (text : list Z) (a b : Z) :
  fst (affine_decrypt text a b)
  <> ["Error: No modular inverse found for 'a'."%string]
  /\ exists s, snd (affine_decrypt text a b) = Ok s.
Proof.
  destruct (Z.eq_dec (Z.gcd a 26) 1) as [Hg|Hg].
  - unfold affine_decrypt. rewrite Hg. cbn [Z.eqb Pos.eqb negb].
    destruct (mod_inv_some a 26 ltac:(lia) Hg) as [inverse [E _]]. rewrite E.
    cbn [fst snd]. split; [discriminate | eauto].
  - rewrite affine_decrypt_invalid by exact Hg.
    cbn [fst snd]. split; [discriminate | eauto].
Qed.

(** *** Hill: the shape of the ciphertext *)

Lemma hill_encrypt_shape (text : list Z) (k00 k01 k10 k11 : Z) :
  is_ascii text ->
  exists c,
    hill_encrypt text [[k00; k01]; [k10; k11]] = Ok c
    /\ Forall (fun ch => 65 <= ch <= 90) c
    /\ len c = len (filter isalpha (upper text))
               + len (filter isalpha (upper text)) mod 2.
Proof.
  intros Ha. destruct (hill_text_facts text Ha) as [He Hf].
  pose proof He as He'. apply Z.even_spec in He'. destruct He' as [k Hk].
  destruct (hill_map_even k00 k01 k10 k11 (Z.to_nat k) (hill_text text)
              ltac:(unfold len in Hk; lia)) as [Hl Hc].
  exists (hill_map k00 k01 k10 k11 (hill_text text)). split; [|split].
  - rewrite hill_encrypt_text. now apply hill_pairs_even.
  - exact Hc.
  - unfold len at 1. rewrite Hl.
    replace (Z.of_nat (2 * Z.to_nat k)) with (len (hill_text text))
      by (unfold len in *; lia).
    unfold hill_text. cbv zeta. rewrite Zeven_mod.
    pose proof (Z.mod_pos_bound (len (filter isalpha (upper text))) 2 ltac:(lia)) as Hb.
    destruct (Z.eqb_spec (len (filter isalpha (upper text)) mod 2) 0) as [E|N].
    + lia.
    + rewrite len_app. change (len (lit "X")) with 1. lia.
Qed.

(** *** Hill: an odd number of letters *)

Lemma slice_clamp {A} (l : list A) (a b : Z) :
  len l <= b -> slice l a b = slice l a (len l).
Proof.
  intros H. pose proof (len_nonneg l) as Hl. unfold slice. cbv zeta.
  assert (E : clamp (len l) b = clamp (len l) (len l)).
  { unfold clamp.
    replace (b <? 0) with false by (symmetry; apply Z.ltb_ge; lia).
    replace (len l <? 0) with false by (symmetry; apply Z.ltb_ge; lia). lia. }
  now rewrite E.
Qed.

Lemma hill_pairs_odd (m00 m01 m10 m11 : Z) (text : list Z) (n : nat) :
  forall (suf pre res : list Z),
    text = pre ++ suf -> List.length suf = (2 * n + 1)%nat ->
    foldM (fun res i =>
             let pair := slice text i (i + 2) in
             p0 <- getitem pair 0 ;;
             p1 <- getitem pair 1 ;;
             let v0 := p0 - 65 in
             let v1 := p1 - 65 in
             k00 <- mget [[m00; m01]; [m10; m11]] 0 0 ;;
             k01 <- mget [[m00; m01]; [m10; m11]] 0 1 ;;
             let num1 := (k00 * v0 + k01 * v1) mod 26 in
             k10 <- mget [[m00; m01]; [m10; m11]] 1 0 ;;
             k11 <- mget [[m00; m01]; [m10; m11]] 1 1 ;;
             let num2 := (k10 * v0 + k11 * v1) mod 26 in
             Ok (res ++ [num1 + 65] ++ [num2 + 65]))
          (range2 (len pre) (len text)) res
    = Raise IndexError.
Proof.
  match goal with |- context [foldM ?f _ _] => set (body := f) end.
  induction n as [|n IH]; intros suf pre res Et Hl.
  - destruct suf as [|a [|b suf]]; cbn in Hl; try lia.
    rewrite range2_cons by (rewrite Et, len_app, len_cons; cbn; lia).
    cbn [foldM]. unfold body at 1. cbv beta zeta.
    assert (Es : slice text (len pre) (len pre + 2) = [a]).
    { rewrite slice_clamp by (rewrite Et, len_app; cbn; lia).
      rewrite Et. apply slice_suffix; reflexivity. }
    rewrite Es. reflexivity.
  - destruct suf as [|a [|b suf]]; cbn in Hl; try lia.
    rewrite range2_cons
      by (rewrite Et, len_app, !len_cons; pose proof (len_nonneg suf); lia).
    cbn [foldM]. unfold body at 1. cbv beta zeta.
    assert (Es : slice text (len pre) (len pre + 2) = [a; b]).
    { rewrite Et. apply (slice_mid pre [a; b] suf); reflexivity. }
    rewrite Es.
    change (getitem [a; b] 0) with (Ok a). change (getitem [a; b] 1) with (Ok b).
    cbn [bind].
    destruct (mget_2x2 m00 m01 m10 m11) as [G00 [G01 [G10 G11]]].
    rewrite G00. cbn [bind]. rewrite G01. cbn [bind].
    rewrite G10. cbn [bind]. rewrite G11. cbn [bind].
    specialize (IH suf (pre ++ [a; b])
                   (res ++ [(m00 * (a - 65) + m01 * (b - 65)) mod 26 + 65]
                        ++ [(m10 * (a - 65) + m11 * (b - 65)) mod 26 + 65])).
    replace (len (pre ++ [a; b])) with (len pre + 2) in IH
      by (rewrite len_app; reflexivity).
    apply IH.
    + rewrite Et, <- app_assoc. reflexivity.
    + lia.
Qed.

Lemma hill_decrypt_odd (ciphertext : list Z) (k00 k01 k10 k11 : Z) :
  Z.gcd (k00 * k11 - k01 * k10) 26 = 1 ->
  Z.odd (len (filter isalpha (upper ciphertext))) = true ->
  hill_decrypt ciphertext [[k00; k01]; [k10; k11]] = ([], Raise IndexError).
Proof.
  intros Hg Ho. unfold hill_decrypt. rewrite hill_key.
  assert (Hg' : Z.gcd ((k00 * k11 - k01 * k10) mod 26) 26 = 1).
  { rewrite Z.gcd_mod by lia. rewrite Z.gcd_comm. exact Hg. }
  destruct (mod_inv_some _ 26 ltac:(lia) Hg') as [inv_det [E _]].
  rewrite E. cbn [bind]. cbv zeta. f_equal.
  apply Z.odd_spec in Ho. destruct Ho as [k Hk].
  pose proof (len_nonneg (filter isalpha (upper ciphertext))) as Hn.
  unfold hill_pairs.
  apply (hill_pairs_odd _ _ _ _ (filter isalpha (upper ciphertext)) (Z.to_nat k)
                        (filter isalpha (upper ciphertext)) [] []); [reflexivity|].
  unfold len in Hk. lia.
Qed.

(** *** Hill: two passes are one pass with the product matrix *)

Lemma hill_product_point (m00 m01 k00 k01 k10 k11 v0 v1 : Z) :
  (m00 * ((k00 * v0 + k01 * v1) mod 26 + 65 - 65)
   + m01 * ((k10 * v0 + k11 * v1) mod 26 + 65 - 65)) mod 26
  = ((m00 * k00 + m01 * k10) * v0 + (m00 * k01 + m01 * k11) * v1) mod 26.
Proof.
  replace ((k00 * v0 + k01 * v1) mod 26 + 65 - 65)
    with ((k00 * v0 + k01 * v1) mod 26) by lia.
  replace ((k10 * v0 + k11 * v1) mod 26 + 65 - 65)
    with ((k10 * v0 + k11 * v1) mod 26) by lia.
  rewrite Z.add_mod, !Z.mul_mod_idemp_r, <- Z.add_mod by lia.
  f_equal. ring.
Qed.

Lemma hill_map_product (m00 m01 m10 m11 k00 k01 k10 k11 : Z) (n : nat) :
  forall t,
    List.length t = (2 * n)%nat ->
    hill_map m00 m01 m10 m11 (hill_map k00 k01 k10 k11 t)
    = hill_map (m00 * k00 + m01 * k10) (m00 * k01 + m01 * k11)
               (m10 * k00 + m11 * k10) (m10 * k01 + m11 * k11) t.
Proof.
  induction n as [|n IH]; intros t Hl.
  - destruct t; [reflexivity | cbn in Hl; lia].
  - destruct t as [|a [|b t]]; cbn in Hl; try lia.
    cbn [hill_map]. rewrite (IH t) by lia.
    rewrite !hill_product_point. reflexivity.
Qed.

Lemma hill_compose (text : list Z) (m00 m01 m10 m11 k00 k01 k10 k11 : Z) :
  is_ascii text ->
  exists c,
    hill_encrypt text [[k00; k01]; [k10; k11]] = Ok c
    /\ hill_encrypt c [[m00; m01]; [m10; m11]]
       = hill_encrypt text [[m00 * k00 + m01 * k10; m00 * k01 + m01 * k11];
                            [m10 * k00 + m11 * k10; m10 * k01 + m11 * k11]].
Proof.
  intros Ha. destruct (hill_text_facts text Ha) as [He Hf].
  pose proof He as He'. apply Z.even_spec in He'. destruct He' as [k Hk].
  assert (Hlen : List.length (hill_text text) = (2 * Z.to_nat k)%nat)
    by (unfold len in Hk; lia).
  destruct (hill_map_even k00 k01 k10 k11 (Z.to_nat k) (hill_text text) Hlen)
    as [Hl Hc].
  set (c := hill_map k00 k01 k10 k11 (hill_text text)) in *.
  assert (Hec : Z.even (len c) = true).
  { unfold len. rewrite Hl, Nat2Z.inj_mul. apply Z.even_mul. }
  exists c. split.
  - rewrite hill_encrypt_text. now apply hill_pairs_even.
  - rewrite !hill_encrypt_text.
    assert (Et : hill_text c = c).
    { unfold hill_text. cbv zeta. rewrite (filter_upper_AZ c Hc), Hec. reflexivity. }
    rewrite Et, !hill_pairs_even by assumption.
    f_equal. apply (hill_map_product _ _ _ _ _ _ _ _ (Z.to_nat k)). exact Hlen.
Qed.

(** *** Hill: a key matrix with fewer than two rows *)


(** *** Playfair: the rule on positions *)

Lemma grid_forall (P : Z -> Z -> Z -> Z -> bool) :
  forallb (fun r1 =>
    forallb (fun c1 =>
      forallb (fun r2 =>
        forallb (fun c2 => P r1 c1 r2 c2) (range 0 5)) (range 0 5)) (range 0 5))
    (range 0 5) = true ->
  forall r1 c1 r2 c2,
    0 <= r1 < 5 -> 0 <= c1 < 5 -> 0 <= r2 < 5 -> 0 <= c2 < 5 -> P r1 c1 r2 c2 = true.
Proof.
  intros H r1 c1 r2 c2 H1 H2 H3 H4.
  rewrite forallb_forall in H. specialize (H r1 (proj2 (in_range 0 5 r1) H1)).
  rewrite forallb_forall in H. specialize (H c1 (proj2 (in_range 0 5 c1) H2)).
  rewrite forallb_forall in H. specialize (H r2 (proj2 (in_range 0 5 r2) H3)).
  rewrite forallb_forall in H. exact (H c2 (proj2 (in_range 0 5 c2) H4)).
Qed.

Lemma playfair_rule_range (d : Z) (r1 c1 r2 c2 : Z) :
  0 <= r1 < 5 -> 0 <= c1 < 5 -> 0 <= r2 < 5 -> 0 <= c2 < 5 ->
  (0 <= fst (fst (playfair_rule d (r1, c1) (r2, c2))) < 5
   /\ 0 <= snd (fst (playfair_rule d (r1, c1) (r2, c2))) < 5)
  /\ (0 <= fst (snd (playfair_rule d (r1, c1) (r2, c2))) < 5
      /\ 0 <= snd (snd (playfair_rule d (r1, c1) (r2, c2))) < 5).
Proof.
  intros H1 H2 H3 H4. unfold playfair_rule.
  pose proof (Z.mod_pos_bound (c1 + d) 5 ltac:(lia)).
  pose proof (Z.mod_pos_bound (c2 + d) 5 ltac:(lia)).
  pose proof (Z.mod_pos_bound (r1 + d) 5 ltac:(lia)).
  pose proof (Z.mod_pos_bound (r2 + d) 5 ltac:(lia)).
  destruct (r1 =? r2); [|destruct (c1 =? c2)]; cbn [fst snd]; lia.
Qed.

Lemma playfair_rule_inverse (r1 c1 r2 c2 : Z) :
  0 <= r1 < 5 -> 0 <= c1 < 5 -> 0 <= r2 < 5 -> 0 <= c2 < 5 ->
  playfair_rule (-1) (fst (playfair_rule 1 (r1, c1) (r2, c2)))
                     (snd (playfair_rule 1 (r1, c1) (r2, c2)))
  = ((r1, c1), (r2, c2)).
Proof.
  intros H1 H2 H3 H4.
  pose proof (grid_forall
                (fun r1 c1 r2 c2 =>
                   let q := playfair_rule 1 (r1, c1) (r2, c2) in
                   let p := playfair_rule (-1) (fst q) (snd q) in
                   (fst (fst p) =? r1) && (snd (fst p) =? c1)
                   && (fst (snd p) =? r2) && (snd (snd p) =? c2))
                ltac:(vm_compute; reflexivity) r1 c1 r2 c2 H1 H2 H3 H4) as G.
  cbv beta zeta in G.
  destruct (playfair_rule (-1) _ _) as [[a b] [c d]]. cbn [fst snd] in G.
  zb. congruence.
Qed.

(** *** Playfair: the table as a list of 25 distinct letters *)

Lemma cell_concat {A} (d : A) (C : nat) (M : list (list A)) :
  Forall (fun row => List.length row = C) M ->
  forall r c : nat,
    (r < List.length M)%nat -> (c < C)%nat ->
    nth c (nth r M []) d = nth (r * C + c) (concat M) d.
Proof.
  induction 1 as [|row M Hrow HM IH]; intros r c Hr Hc; [cbn in Hr; lia|].
  destruct r as [|r]; cbn [nth concat].
  - rewrite app_nth1 by lia. reflexivity.
  - rewrite app_nth2 by lia. rewrite IH by (cbn in Hr; lia). f_equal. lia.
Qed.

Lemma find_none_all {A} (f : A -> bool) (l : list A) :
  (forall x, In x l -> f x = false) -> find f l = None.
Proof.
  induction l as [|x l IH]; intros H; [reflexivity|].
  cbn [find]. rewrite (H x) by now left. apply IH. intros y Hy. apply H. now right.
Qed.

Section PlayfairTable.
Variable T : list (list Z).
Hypothesis HT : wf 5 5 T.
Hypothesis Hin : forall c, In c (concat T) <-> playfair_letter c.

Lemma table_length : List.length (concat T) = 25%nat.
Proof.
  destruct HT as [Hl Hf]. rewrite <- (map_id T).
  rewrite (length_concat_uniform (fun row => row) 5); [lia|].
  intros row Hrow. rewrite Forall_forall in Hf. now apply Hf.
Qed.

Lemma table_NoDup : NoDup (concat T).
Proof.
  apply NoDup_incl_NoDup with (l := lit "abcdefghiklmnopqrstuvwxyz").
  - apply NoDup_alphabet.
  - rewrite table_length. apply Nat.le_refl.
  - intros c Hc. apply Hin, in_alphabet, Hc.
Qed.

Lemma table_cell (r c : Z) :
  0 <= r < 5 -> 0 <= c < 5 ->
  mget T r c = Ok (cell 0 T r c) /\ playfair_letter (cell 0 T r c).
Proof.
  intros Hr Hc. split; [apply (mget_ok 0 5 5); auto; lia|].
  apply Hin. destruct HT as [Hl Hf].
  apply in_concat. exists (nth (Z.to_nat r) T []). split.
  - apply nth_In. lia.
  - unfold cell. apply nth_In. rewrite Forall_forall in Hf.
    rewrite (Hf (nth (Z.to_nat r) T [])) by (apply nth_In; lia). lia.
Qed.

Lemma find_cell (r c : Z) :
  0 <= r < 5 -> 0 <= c < 5 -> find_position (cell 0 T r c) T = Some (r, c).
Proof.
  intros Hr Hc. destruct (table_cell r c Hr Hc) as [_ Hl].
  destruct (find_position_letter 5 5 T _ HT Hl (proj2 (Hin _) Hl))
    as [r' [c' [E [Hr' [Hc' Ec]]]]].
  assert (Hrc : (Z.to_nat r' * 5 + Z.to_nat c' = Z.to_nat r * 5 + Z.to_nat c)%nat).
  { destruct HT as [HlT Hf]. unfold cell in Ec.
    rewrite (cell_concat 0 5 T Hf (Z.to_nat r') (Z.to_nat c')) in Ec by lia.
    rewrite (cell_concat 0 5 T Hf (Z.to_nat r) (Z.to_nat c)) in Ec by lia.
    apply (proj1 (NoDup_nth (concat T) 0) table_NoDup) in Ec;
      rewrite ?table_length; lia. }
  rewrite E. do 2 f_equal; lia.
Qed.

Lemma find_letter (a : Z) :
  playfair_letter a ->
  exists r c, find_position a T = Some (r, c) /\ 0 <= r < 5 /\ 0 <= c < 5
              /\ mget T r c = Ok a.
Proof.
  intros Ha.
  destruct (find_position_letter 5 5 T a HT Ha (proj2 (Hin a) Ha))
    as [r [c [E [Hr [Hc Ec]]]]].
  exists r, c. repeat split; try lia; [exact E|].
  destruct (table_cell r c ltac:(lia) ltac:(lia)) as [Em _].
  rewrite Em, Ec. reflexivity.
Qed.

Lemma find_no_letter (c : Z) : ~ playfair_letter (fold_j c) -> find_position c T = None.
Proof.
  intros Hc. unfold find_position. fold (fold_j c).
  rewrite find_none_all; [reflexivity|].
  intros [i row] Hrow. destruct (mem (fold_j c) row) eqn:E; [|reflexivity].
  exfalso. apply Hc, Hin. apply mem_In in E.
  apply in_concat. exists row. split; [|exact E].
  apply (in_map snd) in Hrow. now rewrite map_snd_enumerate in Hrow.
Qed.

(** One turn of the loop of [playfair_encrypt] or [playfair_decrypt]. *)
Lemma playfair_step (d a b : Z) (res : list Z) :
  playfair_letter a -> playfair_letter b ->
  (a' <- getitem [a; b] 0 ;;
   b' <- getitem [a; b] 1 ;;
   '(row1, col1) <- unpack (find_position a' T) ;;
   '(row2, col2) <- unpack (find_position b' T) ;;
   if row1 =? row2 then
     x <- mget T row1 ((col1 + d) mod 5) ;;
     y <- mget T row2 ((col2 + d) mod 5) ;;
     Ok (res ++ [x] ++ [y])
   else if col1 =? col2 then
     x <- mget T ((row1 + d) mod 5) col1 ;;
     y <- mget T ((row2 + d) mod 5) col2 ;;
     Ok (res ++ [x] ++ [y])
   else
     x <- mget T row1 col2 ;;
     y <- mget T row2 col1 ;;
     Ok (res ++ [x] ++ [y]))
  = Ok (res ++ playfair_digraph d T [a; b])
  /\ exists x y, playfair_digraph d T [a; b] = [x; y]
                 /\ playfair_letter x /\ playfair_letter y.
Proof.
  intros Ha Hb.
  change (getitem [a; b] 0) with (Ok a). change (getitem [a; b] 1) with (Ok b).
  cbn [bind].
  destruct (find_letter a Ha) as [r1 [c1 [E1 [Hr1 [Hc1 _]]]]].
  destruct (find_letter b Hb) as [r2 [c2 [E2 [Hr2 [Hc2 _]]]]].
  unfold playfair_digraph. rewrite E1, E2. cbn [unpack bind].
  pose proof (playfair_rule_range d r1 c1 r2 c2 Hr1 Hc1 Hr2 Hc2) as [[G1 G2] [G3 G4]].
  destruct (table_cell _ _ G1 G2) as [M1 L1].
  destruct (table_cell _ _ G3 G4) as [M2 L2].
  split; [|eauto].
  revert M1 M2. unfold playfair_rule.
  destruct (r1 =? r2); [|destruct (c1 =? c2)]; cbn [fst snd]; intros M1 M2;
    rewrite M1; cbn [bind]; rewrite M2; reflexivity.
Qed.

Lemma playfair_digraph_inverse (a b : Z) :
  playfair_letter a -> playfair_letter b ->
  playfair_digraph (-1) T (playfair_digraph 1 T [a; b]) = [a; b].
Proof.
  intros Ha Hb.
  destruct (find_position_letter 5 5 T a HT Ha (proj2 (Hin a) Ha))
    as [r1 [c1 [E1 [Hr1 [Hc1 Ea]]]]].
  destruct (find_position_letter 5 5 T b HT Hb (proj2 (Hin b) Hb))
    as [r2 [c2 [E2 [Hr2 [Hc2 Eb]]]]].
  unfold playfair_digraph at 2. rewrite E1, E2.
  pose proof (playfair_rule_range 1 r1 c1 r2 c2 ltac:(lia) ltac:(lia)
                                  ltac:(lia) ltac:(lia)) as [[G1 G2] [G3 G4]].
  unfold playfair_digraph.
  rewrite (find_cell _ _ G1 G2), (find_cell _ _ G3 G4).
  rewrite <- !surjective_pairing.
  rewrite (playfair_rule_inverse r1 c1 r2 c2) by lia.
  cbn [fst snd]. now rewrite Ea, Eb.
Qed.

Lemma playfair_loop (d : Z) (ds : list (list Z)) :
  Forall (fun p => exists a b, p = [a; b] /\ playfair_letter a /\ playfair_letter b)
         ds ->
  forall res,
    foldM (fun res pair =>
             a <- getitem pair 0 ;;
             b <- getitem pair 1 ;;
             '(row1, col1) <- unpack (find_position a T) ;;
             '(row2, col2) <- unpack (find_position b T) ;;
             if row1 =? row2 then
               x <- mget T row1 ((col1 + d) mod 5) ;;
               y <- mget T row2 ((col2 + d) mod 5) ;;
               Ok (res ++ [x] ++ [y])
             else if col1 =? col2 then
               x <- mget T ((row1 + d) mod 5) col1 ;;
               y <- mget T ((row2 + d) mod 5) col2 ;;
               Ok (res ++ [x] ++ [y])
             else
               x <- mget T row1 col2 ;;
               y <- mget T row2 col1 ;;
               Ok (res ++ [x] ++ [y]))
          ds res
    = Ok (res ++ concat (map (playfair_digraph d T) ds)).
Proof.
  induction 1 as [|p ds [a [b [-> [Ha Hb]]]] Hds IH]; intros res.
  - cbn. now rewrite app_nil_r.
  - cbn [foldM map concat].
    destruct (playfair_step d a b res Ha Hb) as [E _]. rewrite E. cbn [bind].
    rewrite IH, <- app_assoc. reflexivity.
Qed.

Lemma playfair_digraphs_letters (d : Z) (ds : list (list Z)) :
  Forall (fun p => exists a b, p = [a; b] /\ playfair_letter a /\ playfair_letter b)
         ds ->
  Forall (fun p => exists a b, p = [a; b] /\ playfair_letter a /\ playfair_letter b)
         (map (playfair_digraph d T) ds).
Proof.
  induction 1 as [|p ds [a [b [-> [Ha Hb]]]] Hds IH]; cbn [map]; constructor; auto.
  destruct (playfair_step d a b [] Ha Hb) as [_ [x [y [E [Hx Hy]]]]].
  rewrite E. eauto.
Qed.
End PlayfairTable.

(** *** Playfair: cutting a text into digraphs *)

Lemma chunks_of_pairs (t tail : list Z) (ps : list (list Z)) :
  Forall (fun p => List.length p = 2%nat) ps -> (List.length tail <= 1)%nat ->
  forall pre,
    t = pre ++ concat ps ++ tail ->
    map (fun i => slice t i (i + 2)) (range2 (len pre) (len t))
    = ps ++ match tail with [] => [] | _ => [tail] end.
Proof.
  intros Hps Htail. induction Hps as [|p ps Hp Hps IH]; intros pre Et.
  - cbn [concat app] in Et. destruct tail as [|x [|y tail]]; cbn in Htail; try lia.
    + rewrite range2_nil by (rewrite Et, app_nil_r; lia). reflexivity.
    + rewrite range2_cons by (rewrite Et, len_app, len_cons; cbn; lia).
      rewrite range2_nil by (rewrite Et, len_app, len_cons; cbn; lia).
      cbn [map app]. f_equal.
      rewrite slice_clamp by (rewrite Et, len_app, len_cons; cbn; lia).
      rewrite Et. apply slice_suffix; reflexivity.
  - destruct p as [|a [|b [|c p]]]; cbn in Hp; try lia.
    cbn [concat] in Et. rewrite <- !app_assoc in Et.
    rewrite range2_cons.
    2:{ rewrite Et, !len_app. change (len [a; b]) with 2.
        pose proof (len_nonneg (concat ps)). pose proof (len_nonneg tail). lia. }
    cbn [map app]. f_equal.
    + rewrite Et. apply (slice_mid pre [a; b]); reflexivity.
    + specialize (IH (pre ++ [a; b])).
      replace (len (pre ++ [a; b])) with (len pre + 2) in IH
        by (rewrite len_app; reflexivity).
      apply IH. rewrite Et, <- app_assoc. reflexivity.
Qed.

Lemma pairs_and_rest (P : Z -> Prop) (n : nat) :
  forall l : list Z,
    List.length l = (2 * n + 1)%nat -> Forall P l ->
    exists ps x,
      l = concat ps ++ [x]
      /\ Forall (fun p => exists a b, p = [a; b] /\ P a /\ P b) ps.
Proof.
  induction n as [|n IH]; intros l Hl Hf.
  - destruct l as [|x [|y l]]; cbn in Hl; try lia. exists [], x. split; [reflexivity|].
    constructor.
  - destruct l as [|a [|b l]]; cbn in Hl; try lia.
    inversion Hf as [|? ? Ha Hf1]; subst. inversion Hf1 as [|? ? Hb Hf2]; subst.
    destruct (IH l ltac:(lia) Hf2) as [ps [x [-> Hps]]].
    exists ([a; b] :: ps), x. split; [reflexivity|]. constructor; eauto.
Qed.

Lemma pairs_length (P : Z -> Prop) (ps : list (list Z)) :
  Forall (fun p => exists a b, p = [a; b] /\ P a /\ P b) ps ->
  Forall (fun p => List.length p = 2%nat) ps /\ Forall P (concat ps).
Proof.
  induction 1 as [|p ps [a [b [-> [Ha Hb]]]] Hps [IH1 IH2]]; cbn [concat].
  - split; constructor.
  - split; [constructor; auto|]. cbn [app]. auto.
Qed.

(** *** Playfair: reading a ciphertext back *)

Lemma playfair_letter_point (c : Z) :
  playfair_letter c -> fold_j (up c) = c /\ isalpha c = true.
Proof.
  intros [H1 H2].
  pose proof (ascii_forall
                (fun c => implb ((97 <=? c) && (c <=? 122) && negb (c =? 106))
                                ((fold_j (up c) =? c) && isalpha c))
                ltac:(vm_compute; reflexivity) c ltac:(lia)) as G.
  cbv beta in G.
  replace ((97 <=? c) && (c <=? 122) && negb (c =? 106)) with true in G.
  - cbn [implb] in G. apply andb_true_iff in G. destruct G as [G1 G2].
    split; [now apply Z.eqb_eq | exact G2].
  - symmetry. rewrite !andb_true_iff, negb_true_iff, !Z.leb_le, Z.eqb_neq. lia.
Qed.

Lemma playfair_letters_ascii (res : list Z) : Forall playfair_letter res -> is_ascii res.
Proof.
  intros H. eapply Forall_impl; [|exact H]. unfold playfair_letter. intros c Hc. lia.
Qed.

Lemma playfair_normal (res : list Z) :
  Forall playfair_letter res -> filter isalpha (map fold_j (upper res)) = res.
Proof.
  intros H. rewrite (upper_ascii res (playfair_letters_ascii res H)), map_map.
  induction H as [|c res Hc Hres IH]; [reflexivity|].
  cbn [map filter]. destruct (playfair_letter_point c Hc) as [E1 E2].
  rewrite E1, E2, IH. reflexivity.
Qed.

Lemma prepared_letters (text : list Z) :
  is_ascii text ->
  Forall playfair_letter (filter isalpha (map fold_j text))
  /\ List.length (filter isalpha (map fold_j text))
     = List.length (filter isalpha text).
Proof.
  intros Ha. split.
  - apply Forall_forall. intros c Hc. apply filter_In in Hc.
    destruct Hc as [Hc Hal]. apply in_map_iff in Hc. destruct Hc as [p [<- Hpin]].
    unfold is_ascii in Ha. rewrite Forall_forall in Ha.
    destruct (fold_j_ascii p (Ha p Hpin)) as [E H]. apply H. now rewrite <- E.
  - induction Ha as [|p l Hpc Hl IH]; [reflexivity|].
    cbn [map filter]. destruct (fold_j_ascii p Hpc) as [E _]. rewrite E.
    destruct (isalpha p); cbn [List.length]; now rewrite IH.
Qed.

Lemma playfair_roundtrip (plaintext key : list Z) :
  is_ascii plaintext -> is_ascii key ->
  exists c,
    playfair_encrypt plaintext key = Ok c
    /\ playfair_decrypt c key
       = Ok (upper (concat (split_digraphs
                              (filter isalpha
                                      (replace (lower plaintext) (ord "j") (ord "i")))))).
Proof.
  intros Hp Hk.
  destruct (generate_key_table_ascii key Hk) as [HT Hin].
  unfold playfair_encrypt, playfair_decrypt. cbv zeta. rewrite !replace_lower.
  set (T := generate_key_table key) in *.
  set (pt := filter isalpha (map fold_j plaintext)).
  destruct (prepared_letters plaintext Hp) as [Hpt _]. fold pt in Hpt.
  destruct (split_digraphs_letters (List.length pt) pt (le_n _) Hpt) as [Hd _].
  set (ds := split_digraphs pt) in *.
  pose proof (playfair_digraphs_letters T HT Hin 1 ds Hd) as He.
  destruct (pairs_length _ _ He) as [He2 Hres].
  set (res := concat (map (playfair_digraph 1 T) ds)) in *.
  rewrite (playfair_loop T HT Hin 1 ds Hd []). cbn [bind app].
  fold res. exists (upper res). split; [reflexivity|].
  rewrite replace_lower, (playfair_normal res Hres).
  pose proof (chunks_of_pairs res [] (map (playfair_digraph 1 T) ds) He2
                              ltac:(cbn; lia) []) as Hc.
  cbn [app] in Hc. rewrite !app_nil_r in Hc.
  change (len (@nil Z)) with 0 in Hc. rewrite (Hc eq_refl). clear Hc.
  match goal with
  | |- context [foldM ?f ?l ?s] =>
      assert (EL : foldM f l s = Ok (s ++ concat (map (playfair_digraph (-1) T) l)))
        by exact (playfair_loop T HT Hin (-1) l He s)
  end.
  rewrite EL. cbn [bind app]. do 2 f_equal.
  rewrite map_map. f_equal.
  rewrite <- (map_id ds) at 2. apply map_ext_in. intros d Hdin.
  rewrite Forall_forall in Hd. destruct (Hd d Hdin) as [a [b [-> [Ha Hb]]]].
  now apply playfair_digraph_inverse.
Qed.

Lemma playfair_decrypt_odd (ciphertext key : list Z) :
  is_ascii ciphertext -> is_ascii key ->
  Z.odd (len (filter isalpha ciphertext)) = true ->
  playfair_decrypt ciphertext key = Raise IndexError.
Proof.
  intros Hc Hk Ho.
  destruct (generate_key_table_ascii key Hk) as [HT Hin].
  unfold playfair_decrypt. cbv zeta. rewrite replace_lower.
  set (T := generate_key_table key) in *.
  set (ct := filter isalpha (map fold_j ciphertext)).
  destruct (prepared_letters ciphertext Hc) as [Hct Hl]. fold ct in Hct, Hl.
  apply Z.odd_spec in Ho. destruct Ho as [k Hk'].
  destruct (pairs_and_rest playfair_letter (Z.to_nat k) ct
              ltac:(unfold len in Hk'; lia) Hct) as [ps [x [Ect Hps]]].
  destruct (pairs_length _ _ Hps) as [Hps2 _].
  pose proof (chunks_of_pairs ct [x] ps Hps2 ltac:(cbn; lia) []) as Hch.
  cbn [app] in Hch. change (len (@nil Z)) with 0 in Hch. rewrite (Hch Ect). clear Hch.
  rewrite foldM_app.
  match goal with
  | |- context [foldM ?f ps ?s] =>
      assert (EL : foldM f ps s = Ok (s ++ concat (map (playfair_digraph (-1) T) ps)))
        by exact (playfair_loop T HT Hin (-1) ps Hps s)
  end.
  rewrite EL. reflexivity.
Qed.

Lemma playfair_letter_isalpha (c : Z) : playfair_letter c -> isalpha c = true.
Proof. intros H. now destruct (playfair_letter_point c H). Qed.

Lemma find_position_fold (T : list (list Z)) (c : Z) :
  playfair_letter (fold_j c) -> find_position c T = find_position (fold_j c) T.
Proof.
  intros H. unfold find_position. fold (fold_j c). fold (fold_j (fold_j c)).
  now rewrite (fold_j_letter _ H).
Qed.

Lemma playfair_table_facts (key : list Z) :
  is_ascii key ->
  wf 5 5 (generate_key_table key)
  /\ NoDup (concat (generate_key_table key))
  /\ (forall c, In c (concat (generate_key_table key)) <-> playfair_letter c)
  /\ (forall r c, 0 <= r < 5 -> 0 <= c < 5 ->
        exists x, mget (generate_key_table key) r c = Ok x
                  /\ find_position x (generate_key_table key) = Some (r, c))
  /\ (forall c, 0 <= c < 128 ->
        if isalpha c
        then exists r col,
            find_position c (generate_key_table key) = Some (r, col)
            /\ mget (generate_key_table key) r col = Ok (fold_j c)
        else find_position c (generate_key_table key) = None).
Proof.
  intros Hk. destruct (generate_key_table_ascii key Hk) as [HT Hin].
  set (T := generate_key_table key) in *.
  split; [exact HT|]. split; [now apply table_NoDup|]. split; [exact Hin|]. split.
  - intros r c Hr Hc. exists (cell 0 T r c). split.
    + now apply table_cell.
    + now apply find_cell.
  - intros c Hc. destruct (fold_j_ascii c Hc) as [E H].
    destruct (isalpha c) eqn:Ea.
    + specialize (H eq_refl).
      destruct (find_letter T HT Hin (fold_j c) H) as [r [col [Ef [_ [_ Em]]]]].
      exists r, col. split; [|exact Em]. now rewrite find_position_fold.
    + apply (find_no_letter T Hin). intros Hl.
      apply playfair_letter_isalpha in Hl. congruence.
Qed.

Lemma pairs_only (P : Z -> Prop) (n : nat) :
  forall l : list Z,
    List.length l = (2 * n)%nat -> Forall P l ->
    exists ps,
      l = concat ps
      /\ Forall (fun p => exists a b, p = [a; b] /\ P a /\ P b) ps.
Proof.
  induction n as [|n IH]; intros l Hl Hf.
  - destruct l; cbn in Hl; try lia. exists []. split; [reflexivity|constructor].
  - destruct l as [|a [|b l]]; cbn in Hl; try lia.
    inversion Hf as [|? ? Ha Hf1]; subst. inversion Hf1 as [|? ? Hb Hf2]; subst.
    destruct (IH l ltac:(lia) Hf2) as [ps [-> Hps]].
    exists ([a; b] :: ps). split; [reflexivity|]. constructor; eauto.
Qed.

Lemma length_concat_pairs (ps : list (list Z)) :
  Forall (fun p => List.length p = 2%nat) ps ->
  List.length (concat ps) = (2 * List.length ps)%nat.
Proof.
  induction 1 as [|p ps Hp Hps IH]; [reflexivity|].
  cbn [concat List.length]. rewrite length_app, IH, Hp. lia.
Qed.

Lemma playfair_decrypt_even (ciphertext key : list Z) :
  is_ascii ciphertext -> is_ascii key ->
  Z.even (len (filter isalpha ciphertext)) = true ->
  exists p,
    playfair_decrypt ciphertext key = Ok p
    /\ len p = len (filter isalpha ciphertext)
    /\ Forall (fun ch => 65 <= ch <= 90 /\ ch <> 74) p.
Proof.
  intros Hc Hk He.
  destruct (generate_key_table_ascii key Hk) as [HT Hin].
  unfold playfair_decrypt. cbv zeta. rewrite replace_lower.
  set (T := generate_key_table key) in *.
  set (ct := filter isalpha (map fold_j ciphertext)).
  destruct (prepared_letters ciphertext Hc) as [Hct Hl]. fold ct in Hct, Hl.
  apply Z.even_spec in He. destruct He as [k Hk'].
  destruct (pairs_only playfair_letter (Z.to_nat k) ct
              ltac:(unfold len in Hk'; lia) Hct) as [ps [Ect Hps]].
  destruct (pairs_length _ _ Hps) as [Hps2 _].
  pose proof (chunks_of_pairs ct [] ps Hps2 ltac:(cbn; lia) []) as Hch.
  cbn [app] in Hch. rewrite !app_nil_r in Hch.
  change (len (@nil Z)) with 0 in Hch. rewrite (Hch Ect). clear Hch.
  match goal with
  | |- context [foldM ?f ps ?s] =>
      assert (EL : foldM f ps s = Ok (s ++ concat (map (playfair_digraph (-1) T) ps)))
        by exact (playfair_loop T HT Hin (-1) ps Hps s)
  end.
  rewrite EL. cbn [bind app].
  pose proof (playfair_digraphs_letters T HT Hin (-1) ps Hps) as Hd.
  destruct (pairs_length _ _ Hd) as [Hd2 Hres].
  rewrite (upper_ascii _ (playfair_letters_ascii _ Hres)).
  eexists. split; [reflexivity|]. split.
  - unfold len. rewrite length_map, (length_concat_pairs _ Hd2), length_map, <- Hl.
    rewrite Ect, (length_concat_pairs _ Hps2). reflexivity.
  - apply Forall_map. eapply Forall_impl; [|exact Hres].
    intros c Hcl. now apply up_letter.
Qed.

(** *** Route: the spiral visits every cell exactly once *)

Lemma NoDup_range_down (a b : Z) : NoDup (range_down a b).
Proof.
  unfold range_down. apply Injective_map_NoDup; [|apply seq_NoDup].
  intros x y. lia.
Qed.

Ltac cells :=
  repeat match goal with
    | H : In _ (_ ++ _) |- _ => apply in_app_or in H; destruct H as [H|H]
    | H : In _ (map _ _) |- _ =>
        let k := fresh "k" in
        let E := fresh "E" in
        apply in_map_iff in H; destruct H as [k [E H]]
    | H : In _ (range _ _) |- _ => apply in_range in H
    | H : In _ (range_down _ _) |- _ => apply in_range_down in H
    | H : In _ [] |- _ => destruct H
    | H : In (_, _) (spiral_cells _ _ _ _ _) |- _ => apply spiral_cells_inside in H
    | H : (_, _) = (_, _) |- _ => inversion H; clear H; subst
    end.

Ltac side :=
  first [ apply Injective_map_NoDup;
          [ intros ? ? Exy; inversion Exy; reflexivity
          | first [apply NoDup_range | apply NoDup_range_down] ]
        | constructor ].

Lemma spiral_cells_NoDup (fuel : nat) :
  forall top bottom left right : Z, NoDup (spiral_cells fuel top bottom left right).
Proof.
  induction fuel as [|fuel IH]; intros top bottom left right; cbn [spiral_cells].
  - destruct ((top <=? bottom) && (left <=? right)); constructor.
  - destruct ((top <=? bottom) && (left <=? right)) eqn:E; [|constructor].
    cbv zeta. zb.
    destruct (top + 1 <=? bottom) eqn:E1; destruct (left <=? right - 1) eqn:E2; zb;
      repeat (apply NoDup_app; [side | | intros [i j] H1 H2; cells; lia]);
      apply IH.
Qed.

Lemma route_cells (rows cols : Z) :
  1 <= rows -> 1 <= cols ->
  Permutation (spiral_cells (laps rows) 0 (rows - 1) 0 (cols - 1))
              (list_prod (range 0 rows) (range 0 cols)).
Proof.
  intros Hr Hc. apply NoDup_Permutation.
  - apply spiral_cells_NoDup.
  - apply NoDup_cells; apply NoDup_range.
  - intros [i j]. rewrite in_prod_iff, !in_range. split.
    + intros H. apply spiral_cells_inside in H. lia.
    + intros H. apply spiral_cells_cover; unfold laps; lia.
Qed.

Lemma rows_cells (C : nat) (M : list (list Z)) :
  Forall (fun row => List.length row = C) M ->
  forall pre : list (list Z),
    map (fun p => cell 0 (pre ++ M) (fst p) (snd p))
        (list_prod (range (len pre) (len pre + len M)) (range 0 (Z.of_nat C)))
    = concat M.
Proof.
  induction 1 as [|row M Hrow HM IH]; intros pre.
  - rewrite range_nil by (change (len (@nil (list Z))) with 0; lia). reflexivity.
  - rewrite len_cons. pose proof (len_nonneg M).
    rewrite range_cons by lia. cbn [list_prod concat]. rewrite map_app, map_map.
    cbn [fst snd]. f_equal.
    + rewrite (map_ext _ (fun col => nth (Z.to_nat col) row 0)).
      * replace (Z.of_nat C) with (len row) by (unfold len; now rewrite Hrow).
        apply row_as_nth.
      * intros col. unfold cell, len. rewrite Nat2Z.id, app_nth2, Nat.sub_diag by lia.
        reflexivity.
    + specialize (IH (pre ++ [row])). rewrite <- app_assoc in IH. cbn [app] in IH.
      rewrite len_app in IH. change (len [row]) with 1 in IH.
      replace (len pre + 1 + len M) with (len pre + (1 + len M)) in IH by lia.
      exact IH.
Qed.

Lemma route_encrypt_grid (R C : nat) (M : list (list Z)) :
  (1 <= R)%nat -> (1 <= C)%nat -> wf R C M ->
  route_cipher_encrypt (concat M) (Z.of_nat R) (Z.of_nat C)
  = Ok (map (fun p => cell 0 M (fst p) (snd p))
            (spiral_cells (laps (Z.of_nat R)) 0 (Z.of_nat R - 1) 0 (Z.of_nat C - 1))).
Proof.
  intros HR HC HM.
  assert (Hl : len (concat M) = Z.of_nat R * Z.of_nat C).
  { destruct HM as [Hl Hf]. unfold len. rewrite <- (map_id M).
    rewrite (length_concat_uniform (fun row => row) C), Hl; [lia|].
    intros row Hrow. rewrite Forall_forall in Hf. now apply Hf. }
  unfold route_cipher_encrypt, ljust. cbv zeta. rewrite Hl, Z.sub_diag.
  cbn [Z.to_nat repeat]. rewrite build_matrix_concat by exact HM. cbn [bind].
  rewrite spiral_foldM by (unfold laps; lia).
  rewrite (read_cells R C) by
    (auto; intros [i j] Hin; apply spiral_cells_inside in Hin; cbn [fst snd]; lia).
  reflexivity.
Qed.

Lemma route_encrypt_shape (text : list Z) (rows cols : Z) :
  1 <= rows -> 1 <= cols -> len text <= rows * cols ->
  exists c,
    route_cipher_encrypt text rows cols = Ok c
    /\ len c = rows * cols
    /\ Permutation (ljust text (rows * cols) (ord "X")) c.
Proof.
  intros Hr Hc Hl.
  set (R := Z.to_nat rows). set (C := Z.to_nat cols).
  set (padded := ljust text (rows * cols) (ord "X")).
  assert (Hlp : List.length padded = (R * C)%nat).
  { unfold padded, ljust. rewrite length_app, repeat_length. unfold len in *. nia. }
  destruct (chunk_exists C R padded Hlp) as [M [HM EM]].
  assert (Hpp : ljust padded (rows * cols) (ord "X") = padded).
  { unfold ljust at 1. replace (Z.to_nat (rows * cols - len padded)) with 0%nat
      by (unfold len; nia). apply app_nil_r. }
  assert (E : route_cipher_encrypt text rows cols
              = Ok (map (fun p => cell 0 M (fst p) (snd p))
                        (spiral_cells (laps rows) 0 (rows - 1) 0 (cols - 1)))).
  { pose proof (route_encrypt_grid R C M ltac:(lia) ltac:(lia) HM) as G.
    rewrite EM in G. unfold R, C in G. rewrite !Z2Nat.id in G by lia.
    rewrite <- G. unfold route_cipher_encrypt. cbv zeta. fold padded.
    now rewrite Hpp. }
  eexists. split; [exact E|].
  pose proof (route_cells rows cols Hr Hc) as P.
  split.
  - unfold len. rewrite length_map, (Permutation_length P), length_prod, !length_range.
    nia.
  - rewrite <- EM.
    pose proof (rows_cells C M (proj2 HM) []) as G. cbn [app] in G.
    change (len (@nil (list Z))) with 0 in G.
    destruct HM as [HlM _].
    replace (0 + len M) with rows in G by (unfold len; lia).
    replace (Z.of_nat C) with cols in G by lia.
    rewrite <- G. symmetry. now apply Permutation_map.
Qed.

(** *** Route: every string of the size of the grid is a ciphertext *)

Lemma nth_map_range (f : Z -> Z) (n i : Z) :
  0 <= i < n -> nth (Z.to_nat i) (map f (range 0 n)) 0 = f i.
Proof.
  intros H. rewrite (nth_indep _ 0 (f 0)) by (rewrite length_map, length_range; lia).
  rewrite (map_nth f), nth_range by lia. f_equal. lia.
Qed.

Lemma route_onto (c : list Z) (rows cols : Z) :
  1 <= rows -> 1 <= cols -> len c = rows * cols ->
  exists t, len t = rows * cols /\ route_cipher_encrypt t rows cols = Ok c.
Proof.
  intros Hr Hc Hl.
  set (R := Z.to_nat rows). set (C := Z.to_nat cols).
  set (ps := spiral_cells (laps rows) 0 (rows - 1) 0 (cols - 1)).
  set (idx := fun p : Z * Z => fst p * cols + snd p).
  set (s := map idx ps).
  pose proof (route_cells rows cols Hr Hc) as P. fold ps in P.
  assert (Hps : forall p, In p ps -> 0 <= fst p < rows /\ 0 <= snd p < cols).
  { intros [i j] Hin. apply spiral_cells_inside in Hin. cbn [fst snd]. lia. }
  assert (Hs : NoDup s).
  { apply Injective_map_NoDup_in; [|apply spiral_cells_NoDup].
    intros [i j] [i' j'] H1 H2 E. apply Hps in H1, H2. unfold idx in E.
    cbn [fst snd] in *. assert (i = i') by nia. subst i'. f_equal. lia. }
  assert (Hls : List.length s = List.length c).
  { unfold s. rewrite length_map, (Permutation_length P), length_prod, !length_range.
    unfold len in Hl. nia. }
  assert (Hin : forall i, In i s -> 0 <= i < rows * cols).
  { intros i Hi. apply in_map_iff in Hi. destruct Hi as [p [<- Hp]].
    apply Hps in Hp. unfold idx. nia. }
  set (t := map (fun i => nth (Z.to_nat (index_of i s)) c 0) (range 0 (rows * cols))).
  assert (Hlt : List.length t = (R * C)%nat).
  { unfold t. rewrite length_map, length_range. nia. }
  destruct (chunk_exists C R t Hlt) as [M [HM EM]].
  exists t. split; [unfold len; rewrite Hlt; nia|].
  pose proof (route_encrypt_grid R C M ltac:(lia) ltac:(lia) HM) as G.
  rewrite EM in G. unfold R, C in G. rewrite !Z2Nat.id in G by lia. rewrite G.
  fold ps. f_equal.
  rewrite (map_ext_in _ (fun p => nth (Z.to_nat (index_of (idx p) s)) c 0)).
  - rewrite <- (map_map idx (fun i => nth (Z.to_nat (index_of i s)) c 0)).
    fold s. now apply index_of_lookup.
  - intros p Hp. destruct (Hps p Hp) as [H1 H2]. destruct HM as [HlM Hf].
    unfold cell.
    rewrite (cell_concat 0 C M Hf) by lia. rewrite EM.
    replace (Z.to_nat (fst p) * C + Z.to_nat (snd p))%nat with (Z.to_nat (idx p))
      by (unfold idx; nia).
    unfold t.
    apply (nth_map_range (fun i => nth (Z.to_nat (index_of i s)) c 0)).
    unfold idx. nia.
Qed.

Lemma route_decrypt_onto (c : list Z) (rows cols : Z) :
  1 <= rows -> 1 <= cols -> len c = rows * cols ->
  exists t,
    route_cipher_decrypt c rows cols = Ok t /\ len t = rows * cols
    /\ route_cipher_encrypt t rows cols = Ok c.
Proof.
  intros Hr Hc Hl.
  destruct (route_onto c rows cols Hr Hc Hl) as [t [Hlt E]].
  destruct (route_roundtrip t rows cols Hr Hc ltac:(lia)) as [c' [Ec [Dc _]]].
  rewrite E in Ec. injection Ec as <-.
  exists t. repeat split; try assumption.
  rewrite Dc. f_equal. unfold ljust.
  replace (Z.to_nat (rows * cols - len t)) with 0%nat by lia. apply app_nil_r.
Qed.

(** *** Columnar: every string of whole rows is a ciphertext *)





(** *** Columnar decryption reads whole rows only *)



(** C6: for a modulus [m >= 2], [mod_inv a m] is the unique inverse of [a] in
    [[1, m)] when [gcd a m = 1], and [None] when [gcd a m <> 1]. *)
Theorem mod_inv_spec (a m : Z) (Hm : 2 <= m) :
  (Z.gcd a m = 1 ->
   exists x, mod_inv a m = Ok (Some x) /\ 1 <= x < m /\ (a * x) mod m = 1 /\
             forall y, 1 <= y < m -> (a * y) mod m = 1 -> y = x)
  /\ (Z.gcd a m <> 1 -> mod_inv a m = Ok None).
Proof.
  split.
  - intros Hg. destruct (mod_inv_some a m Hm Hg) as [x [E [Hx Ex]]].
    exists x. repeat split; try assumption; try lia.
    intros y Hy Ey. apply (mod_inv_unique a m); lia.
  - now apply mod_inv_none.
Qed.

Lemma mod_inv_spec_witness :
  2 <= 26 /\
  ((Z.gcd 3 26 = 1 ->
    exists x, mod_inv 3 26 = Ok (Some x) /\ 1 <= x < 26 /\ (3 * x) mod 26 = 1 /\
              forall y, 1 <= y < 26 -> (3 * y) mod 26 = 1 -> y = x)
   /\ (Z.gcd 3 26 <> 1 -> mod_inv 3 26 = Ok None)).
Proof.
  split; [lia | apply (mod_inv_spec 3 26); lia].
Defined.

(** * The claims *)

(** C1: Rail-Fence and Disruptive decryption undo encryption exactly, with no
    padding: for every text and every number of rails (two or more, or at
    most one, where both directions are the identity), and for every key of
    the Disruptive cipher, whose shuffle is any function that permutes its
    argument. *)
Theorem rail_fence_disruptive_roundtrip
        (shuffle : Z -> list Z -> list Z)
        (Hshuffle : forall seed l, Permutation l (shuffle seed l))
        (text key : list Z) (num_rails : Z) :
  (exists c, rail_fence_encrypt text num_rails = Ok c /\ len c = len text
             /\ rail_fence_decrypt c num_rails = Ok text)
  /\ (num_rails <= 1 ->
      rail_fence_encrypt text num_rails = Ok text
      /\ rail_fence_decrypt text num_rails = Ok text)
  /\ (exists c, disruptive_transposition_encrypt shuffle text key = Ok c
                /\ len c = len text
                /\ disruptive_transposition_decrypt shuffle c key = Ok text).
Proof.
  assert (Hid : num_rails <= 1 ->
                rail_fence_encrypt text num_rails = Ok text
                /\ rail_fence_decrypt text num_rails = Ok text).
  { intros H. unfold rail_fence_encrypt, rail_fence_decrypt.
    replace (num_rails <=? 1) with true by (symmetry; apply Z.leb_le; lia). auto. }
  split; [|split].
  - destruct (Z_le_gt_dec num_rails 1) as [H|H].
    + exists text. destruct (Hid H) as [E1 E2]. auto.
    + apply rail_fence_roundtrip. lia.
  - exact Hid.
  - now apply disruptive_roundtrip.
Qed.

Lemma rail_fence_disruptive_roundtrip_witness :
  (forall (seed : Z) (l : list Z), Permutation l (rev l))
  /\ (exists c, rail_fence_encrypt (lit "WEAREDISCOVEREDFLEEATONCE") 3 = Ok c
                /\ len c = len (lit "WEAREDISCOVEREDFLEEATONCE")
                /\ rail_fence_decrypt c 3 = Ok (lit "WEAREDISCOVEREDFLEEATONCE"))
  /\ (exists c, disruptive_transposition_encrypt (fun _ l => rev l)
                  (lit "WEAREDISCOVEREDFLEEATONCE") (lit "KEY") = Ok c
                /\ len c = len (lit "WEAREDISCOVEREDFLEEATONCE")
                /\ disruptive_transposition_decrypt (fun _ l => rev l) c (lit "KEY")
                   = Ok (lit "WEAREDISCOVEREDFLEEATONCE")).
Proof.
  split; [intros; apply Permutation_rev|].
  destruct (rail_fence_disruptive_roundtrip
              (fun _ l => rev l) (fun _ l => Permutation_rev l)
              (lit "WEAREDISCOVEREDFLEEATONCE") (lit "KEY") 3) as [H1 [_ H3]].
  split; [exact H1 | exact H3].
Defined.

(** C2: with a non-empty key and a text that does not end in ['X'], Columnar
    and Myszkowski decryption give back the plaintext: the filler of the
    padded grid is all that is stripped. *)
Theorem columnar_myszkowski_roundtrip (text key : list Z)
        (Hkey : key <> []) (Htext : no_trailing_X text) :
  (exists c, columnar_transposition_encrypt text key = Ok c
             /\ columnar_transposition_decrypt c key = Ok text)
  /\ (exists c, myszkowski_encrypt text key = Ok c
                /\ myszkowski_decrypt c key = Ok text).
Proof.
  split; [now apply columnar_roundtrip | now apply myszkowski_roundtrip].
Qed.

Lemma columnar_myszkowski_roundtrip_witness :
  lit "TOMATO" <> [] /\ no_trailing_X (lit "WEAREDISCOVERED")
  /\ (exists c, columnar_transposition_encrypt (lit "WEAREDISCOVERED") (lit "TOMATO") = Ok c
                /\ columnar_transposition_decrypt c (lit "TOMATO")
                   = Ok (lit "WEAREDISCOVERED"))
  /\ (exists c, myszkowski_encrypt (lit "WEAREDISCOVERED") (lit "TOMATO") = Ok c
                /\ myszkowski_decrypt c (lit "TOMATO") = Ok (lit "WEAREDISCOVERED")).
Proof.
  assert (H1 : lit "TOMATO" <> []) by discriminate.
  assert (H2 : no_trailing_X (lit "WEAREDISCOVERED")).
  { apply no_trailing_X_last. vm_compute. discriminate. }
  split; [exact H1|]. split; [exact H2|].
  apply (columnar_myszkowski_roundtrip (lit "WEAREDISCOVERED") (lit "TOMATO") H1 H2).
Defined.

(** C3: the Double Columnar round trip fails on the text ["A"] with the keys
    ["AB"] and ["C"]: the first pass is ["AX"], the inner decryption strips
    its last letter, and the outer decryption of ["A"] has no whole row left
    and returns the empty string. *)
Theorem double_transposition_loses_text :
  double_transposition_encrypt (lit "A") (lit "AB") (lit "C") = Ok (lit "AX")
  /\ columnar_transposition_decrypt (lit "AX") (lit "C") = Ok (lit "A")
  /\ double_transposition_decrypt (lit "AX") (lit "AB") (lit "C") = Ok [].
Proof. repeat split. Qed.

(** C4: for [rows >= 1], [cols >= 1] and a text of at most [rows * cols]
    characters, Route decryption of the ciphertext is the text padded with
    ['X'] to exactly [rows * cols] characters: the filler is not stripped. *)
Theorem route_roundtrip_padded (text : list Z) (rows cols : Z)
        (Hrows : 1 <= rows) (Hcols : 1 <= cols) (Hlen : len text <= rows * cols) :
  exists c,
    route_cipher_encrypt text rows cols = Ok c
    /\ route_cipher_decrypt c rows cols = Ok (ljust text (rows * cols) (ord "X"))
    /\ len (ljust text (rows * cols) (ord "X")) = rows * cols.
Proof. now apply route_roundtrip. Qed.

Lemma route_roundtrip_padded_witness :
  1 <= 3 /\ 1 <= 4 /\ len (lit "HELLOWORLD") <= 3 * 4
  /\ exists c,
      route_cipher_encrypt (lit "HELLOWORLD") 3 4 = Ok c
      /\ route_cipher_decrypt c 3 4 = Ok (ljust (lit "HELLOWORLD") (3 * 4) (ord "X"))
      /\ len (ljust (lit "HELLOWORLD") (3 * 4) (ord "X")) = 3 * 4.
Proof.
  assert (H : len (lit "HELLOWORLD") <= 3 * 4) by (vm_compute; discriminate).
  split; [lia|]. split; [lia|]. split; [exact H|].
  apply (route_roundtrip_padded (lit "HELLOWORLD") 3 4); [lia | lia | exact H].
Defined.

(** C5: on ASCII text, Additive decryption (any key), Multiplicative
    decryption (key coprime to 26) and Affine decryption ([a] coprime to 26)
    of the ciphertext give the uppercased text, other characters unchanged;
    Hill decryption (determinant coprime to 26) gives the uppercased letters
    of the text, with one ['X'] appended iff their number is odd. *)
Theorem substitution_roundtrip (text : list Z) (key mkey a b k00 k01 k10 k11 : Z)
        (Htext : is_ascii text)
        (Hmkey : Z.gcd mkey 26 = 1) (Ha : Z.gcd a 26 = 1)
        (Hdet : Z.gcd (k00 * k11 - k01 * k10) 26 = 1) :
  additive_decrypt (additive_encrypt text key) key = upper text
  /\ multiplicative_decrypt (snd (multiplicative_encrypt text mkey)) mkey
     = ([], Ok (upper text))
  /\ affine_decrypt (snd (affine_encrypt text a b)) a b = ([], Ok (upper text))
  /\ (exists c, hill_encrypt text [[k00; k01]; [k10; k11]] = Ok c
                /\ hill_decrypt c [[k00; k01]; [k10; k11]]
                   = ([], Ok (let letters := filter isalpha (upper text) in
                              if Z.even (len letters) then letters
                              else letters ++ lit "X")))
  /\ upper text = map up text.
Proof.
  split; [now apply additive_roundtrip|].
  split; [now apply multiplicative_roundtrip|].
  split; [now apply affine_roundtrip|].
  split; [now apply hill_roundtrip | now apply upper_ascii].
Qed.

Lemma substitution_roundtrip_witness :
  is_ascii (lit "Hello, World") /\ Z.gcd 7 26 = 1 /\ Z.gcd 5 26 = 1
  /\ Z.gcd (3 * 5 - 3 * 2) 26 = 1
  /\ additive_decrypt (additive_encrypt (lit "Hello, World") 3) 3
     = upper (lit "Hello, World")
  /\ multiplicative_decrypt (snd (multiplicative_encrypt (lit "Hello, World") 7)) 7
     = ([], Ok (upper (lit "Hello, World")))
  /\ affine_decrypt (snd (affine_encrypt (lit "Hello, World") 5 8)) 5 8
     = ([], Ok (upper (lit "Hello, World")))
  /\ (exists c, hill_encrypt (lit "Hello, World") [[3; 3]; [2; 5]] = Ok c
                /\ hill_decrypt c [[3; 3]; [2; 5]]
                   = ([], Ok (let letters := filter isalpha (upper (lit "Hello, World")) in
                              if Z.even (len letters) then letters
                              else letters ++ lit "X")))
  /\ upper (lit "Hello, World") = map up (lit "Hello, World").
Proof.
  assert (H1 : is_ascii (lit "Hello, World")) by (apply is_ascii_forallb; reflexivity).
  split; [exact H1|]. split; [reflexivity|]. split; [reflexivity|].
  split; [reflexivity|].
  apply (substitution_roundtrip (lit "Hello, World") 3 7 5 8 3 3 2 5 H1);
    reflexivity.
Defined.

(** C7: the Columnar worked scenario: ["HELLOWORLD"] with the key ["KEY"] is
    padded to ["HELLOWORLDXX"], laid out in the rows [HEL], [LOW], [ORL],
    [DXX], read in the column order 1, 0, 2 as ["EORXHLODLWLX"], and that
    ciphertext decrypts to ["HELLOWORLD"]. *)
Theorem columnar_worked_scenario :
  ljust (lit "HELLOWORLD") 12 (ord "X") = lit "HELLOWORLDXX"
  /\ build_matrix (lit "HELLOWORLDXX") 4 3
     = Ok [lit "HEL"; lit "LOW"; lit "ORL"; lit "DXX"]
  /\ map fst (key_order (lit "KEY")) = [1; 0; 2]
  /\ columnar_transposition_encrypt (lit "HELLOWORLD") (lit "KEY")
     = Ok (lit "EORXHLODLWLX")
  /\ columnar_transposition_decrypt (lit "EORXHLODLWLX") (lit "KEY")
     = Ok (lit "HELLOWORLD").
Proof. repeat split. Qed.

(** C8, as the code has it: with the key ["MONARCHY"] the plaintext
    ["HELLO"] is split into [he], [lx], [lo] and encrypted to ["CFSUPM"];
    decrypting ["CFSUPM"] gives ["HELXLO"], the inserted [x] still there. *)
Theorem playfair_worked_scenario :
  split_digraphs (lit "hello") = [lit "he"; lit "lx"; lit "lo"]
  /\ playfair_encrypt (lit "HELLO") (lit "MONARCHY") = Ok (lit "CFSUPM")
  /\ playfair_decrypt (lit "CFSUPM") (lit "MONARCHY") = Ok (lit "HELXLO").
Proof. repeat split. Qed.

(** The ciphertext ["ELSUPM"] is not what the code computes, nor does it
    decrypt to ["HELXLO"]. *)
Lemma playfair_scenario_not_ELSUPM :
  playfair_encrypt (lit "HELLO") (lit "MONARCHY") <> Ok (lit "ELSUPM")
  /\ playfair_decrypt (lit "ELSUPM") (lit "MONARCHY") <> Ok (lit "HELXLO").
Proof. split; vm_compute; discriminate. Qed.




(** C10, for an ASCII key: on ASCII plaintext [playfair_encrypt] returns a
    string of even length, of the letters ['A'..'Z'] without ['J'], at least
    as long as the number of letters of the plaintext. *)
Theorem playfair_encrypt_shape (plaintext key : list Z)
        (Hplain : is_ascii plaintext) (Hkey : is_ascii key) :
  exists c,
    playfair_encrypt plaintext key = Ok c
    /\ Z.even (len c) = true
    /\ Forall (fun ch => ord "A" <= ch <= ord "Z" /\ ch <> ord "J") c
    /\ len (filter isalpha plaintext) <= len c.
Proof. now apply playfair_encrypt_ascii. Qed.

Lemma playfair_encrypt_shape_witness :
  is_ascii (lit "Hello, World") /\ is_ascii (lit "MONARCHY")
  /\ exists c,
      playfair_encrypt (lit "Hello, World") (lit "MONARCHY") = Ok c
      /\ Z.even (len c) = true
      /\ Forall (fun ch => ord "A" <= ch <= ord "Z" /\ ch <> ord "J") c
      /\ len (filter isalpha (lit "Hello, World")) <= len c.
Proof.
  assert (H1 : is_ascii (lit "Hello, World")) by (apply is_ascii_forallb; reflexivity).
  assert (H2 : is_ascii (lit "MONARCHY")) by (apply is_ascii_forallb; reflexivity).
  split; [exact H1|]. split; [exact H2|].
  apply (playfair_encrypt_shape (lit "Hello, World") (lit "MONARCHY") H1 H2).
Defined.

(** A key with the letter U+00E9 pushes ['z'] out of the 5x5 table:
    encrypting ["z"] raises, and encrypting ["da"] returns U+00C9. *)
Lemma playfair_encrypt_raises_on_latin1_key :
  playfair_encrypt (lit "z") [233] = Raise TypeError
  /\ playfair_encrypt (lit "da") [233] = Ok [201; 66].
Proof. split; reflexivity. Qed.

(** * Further properties *)

(** X1: a modulus of [0] makes [mod_inv] raise [ZeroDivisionError] (from
    [a % m]); for a modulus of [1] or a negative modulus the search range
    [range(1, m)] is empty and the result is [None]. *)
Theorem mod_inv_degenerate_modulus (a m : Z) (Hm : m <= 1) :
  mod_inv a m = if m =? 0 then Raise ZeroDivisionError else Ok None.
Proof.
  unfold mod_inv, pymod. destruct (m =? 0) eqn:E; [reflexivity|].
  cbn [bind]. rewrite range_nil by lia. reflexivity.
Qed.

Lemma mod_inv_degenerate_modulus_witness :
  -3 <= 1 /\ mod_inv 5 (-3) = Ok None.
Proof.
  split; [lia | apply (mod_inv_degenerate_modulus 5 (-3)); lia].
Defined.

(** X2: the inverse of an inverse is the number itself, reduced: if
    [mod_inv a m] is [x] then [mod_inv x m] is [a mod m]. *)
Theorem mod_inv_of_inverse (a m x : Z)
        (Hm : 2 <= m) (Hx : mod_inv a m = Ok (Some x)) :
  mod_inv x m = Ok (Some (a mod m)).
Proof. exact (mod_inv_inverse a m x Hm Hx). Qed.

Lemma mod_inv_of_inverse_witness :
  2 <= 26 /\ mod_inv 29 26 = Ok (Some 9) /\ mod_inv 9 26 = Ok (Some (29 mod 26)).
Proof.
  split; [lia|]. split; [reflexivity|].
  apply (mod_inv_of_inverse 29 26 9); [lia | reflexivity].
Defined.

(** X3: with at least as many rails as characters every character sits on a
    rail of its own, and Rail-Fence encryption and decryption both return the
    text unchanged. *)
Theorem rail_fence_identity_on_short_text (text : list Z) (num_rails : Z)
        (Hlen : len text <= num_rails) :
  rail_fence_encrypt text num_rails = Ok text
  /\ rail_fence_decrypt text num_rails = Ok text.
Proof. exact (rail_fence_short text num_rails Hlen). Qed.

Lemma rail_fence_identity_on_short_text_witness :
  len (lit "HELLO") <= 5
  /\ rail_fence_encrypt (lit "HELLO") 5 = Ok (lit "HELLO")
  /\ rail_fence_decrypt (lit "HELLO") 5 = Ok (lit "HELLO").
Proof.
  split; [vm_compute; discriminate|].
  apply (rail_fence_identity_on_short_text (lit "HELLO") 5).
  vm_compute. discriminate.
Defined.

(** X4: [rail_fence_decrypt] accepts every string: it never raises, keeps
    the length, and encrypting its result gives the string back.  With the
    round trip of C1, Rail-Fence with a fixed number of rails is a bijection
    on the strings of each length. *)
Theorem rail_fence_decrypt_then_encrypt (ciphertext : list Z) (num_rails : Z) :
  exists t,
    rail_fence_decrypt ciphertext num_rails = Ok t
    /\ len t = len ciphertext
    /\ rail_fence_encrypt t num_rails = Ok ciphertext.
Proof. exact (rail_fence_decrypt_onto ciphertext num_rails). Qed.

(** X5: Rail-Fence encryption only rearranges: the ciphertext is a
    permutation of the characters of the plaintext, for every number of
    rails. *)
Theorem rail_fence_encrypt_permutes (text : list Z) (num_rails : Z) :
  exists c, rail_fence_encrypt text num_rails = Ok c /\ Permutation text c.
Proof. exact (rail_fence_perm text num_rails). Qed.

(** X6: Disruptive encryption only rearranges: whatever permutation the
    library's shuffle returns, the ciphertext is a permutation of the
    characters of the plaintext. *)
Theorem disruptive_encrypt_permutes
        (shuffle : Z -> list Z -> list Z)
        (Hshuffle : forall seed l, Permutation l (shuffle seed l))
        (text key : list Z) :
  exists c,
    disruptive_transposition_encrypt shuffle text key = Ok c /\ Permutation text c.
Proof. exact (disruptive_perm shuffle Hshuffle text key). Qed.

Lemma disruptive_encrypt_permutes_witness :
  (forall (seed : Z) (l : list Z), Permutation l (rev l))
  /\ exists c,
      disruptive_transposition_encrypt (fun _ l => rev l) (lit "ATTACK") (lit "KEY")
      = Ok c
      /\ Permutation (lit "ATTACK") c.
Proof.
  split; [intros _ l; apply Permutation_rev|].
  apply (disruptive_encrypt_permutes (fun _ l => rev l)).
  intros _ l. apply Permutation_rev.
Defined.

(** X7: the Disruptive cipher uses its key only through the sum of its
    character codes: a text encrypted under one key is decrypted by every
    key with the same sum. *)
Theorem disruptive_keys_with_equal_sum
        (shuffle : Z -> list Z -> list Z)
        (Hshuffle : forall seed l, Permutation l (shuffle seed l))
        (text key key' : list Z)
        (Hsum : key_seed key = key_seed key') :
  exists c,
    disruptive_transposition_encrypt shuffle text key = Ok c
    /\ disruptive_transposition_decrypt shuffle c key' = Ok text.
Proof. exact (disruptive_same_seed shuffle Hshuffle text key key' Hsum). Qed.

Lemma disruptive_keys_with_equal_sum_witness :
  (forall (seed : Z) (l : list Z), Permutation l (rev l))
  /\ key_seed (lit "AD") = key_seed (lit "BC")
  /\ exists c,
      disruptive_transposition_encrypt (fun _ l => rev l) (lit "ATTACK") (lit "AD")
      = Ok c
      /\ disruptive_transposition_decrypt (fun _ l => rev l) c (lit "BC")
         = Ok (lit "ATTACK").
Proof.
  split; [intros _ l; apply Permutation_rev|]. split; [reflexivity|].
  apply (disruptive_keys_with_equal_sum (fun _ l => rev l)).
  - intros _ l. apply Permutation_rev.
  - reflexivity.
Defined.

(** X8: with a non-empty key, Columnar and Myszkowski decryption of an
    encrypted text return the text without its trailing ['X'] characters,
    whatever the text: a text that itself ends in ['X'] loses them. *)
Theorem grid_ciphers_roundtrip_strips_trailing_X (text key : list Z)
        (Hkey : key <> []) :
  (exists c, columnar_transposition_encrypt text key = Ok c
             /\ columnar_transposition_decrypt c key = Ok (rstrip text (ord "X")))
  /\ (exists c, myszkowski_encrypt text key = Ok c
                /\ myszkowski_decrypt c key = Ok (rstrip text (ord "X"))).
Proof.
  split; [now apply columnar_roundtrip_strip | now apply myszkowski_roundtrip_strip].
Qed.

Lemma grid_ciphers_roundtrip_strips_trailing_X_witness :
  lit "KEY" <> []
  /\ rstrip (lit "TAXX") (ord "X") = lit "TA"
  /\ (exists c, columnar_transposition_encrypt (lit "TAXX") (lit "KEY") = Ok c
                /\ columnar_transposition_decrypt c (lit "KEY")
                   = Ok (rstrip (lit "TAXX") (ord "X")))
  /\ (exists c, myszkowski_encrypt (lit "TAXX") (lit "KEY") = Ok c
                /\ myszkowski_decrypt c (lit "KEY") = Ok (rstrip (lit "TAXX") (ord "X"))).
Proof.
  assert (H : lit "KEY" <> []) by discriminate.
  split; [exact H|]. split; [reflexivity|].
  apply (grid_ciphers_roundtrip_strips_trailing_X (lit "TAXX") (lit "KEY") H).
Defined.

(** X9: with a non-empty key, the Columnar ciphertext is a permutation of
    the plaintext padded with ['X'] to a whole number of rows; its length is
    the number of rows, [ceil(len(text) / len(key))], times the key length. *)
Theorem columnar_ciphertext_is_padded_text_rearranged (text key : list Z)
        (Hkey : key <> []) :
  exists c,
    columnar_transposition_encrypt text key = Ok c
    /\ len c = (len text + len key - 1) / len key * len key
    /\ Permutation
         (ljust text ((len text + len key - 1) / len key * len key) (ord "X")) c.
Proof. exact (columnar_encrypt_shape text key Hkey). Qed.

Lemma columnar_ciphertext_is_padded_text_rearranged_witness :
  lit "KEY" <> []
  /\ exists c,
      columnar_transposition_encrypt (lit "HELLOWORLD") (lit "KEY") = Ok c
      /\ len c = (len (lit "HELLOWORLD") + len (lit "KEY") - 1) / len (lit "KEY")
                 * len (lit "KEY")
      /\ Permutation
           (ljust (lit "HELLOWORLD")
                  ((len (lit "HELLOWORLD") + len (lit "KEY") - 1) / len (lit "KEY")
                   * len (lit "KEY")) (ord "X")) c.
Proof.
  assert (H : lit "KEY" <> []) by discriminate.
  split; [exact H|].
  apply (columnar_ciphertext_is_padded_text_rearranged (lit "HELLOWORLD") (lit "KEY") H).
Defined.

(** X10: the Double Transposition round trip is exact when both keys are
    non-empty, the text contains no ['X'] and its length is a multiple of
    the length of the first key (so that the first pass adds no filler). *)
Theorem double_transposition_roundtrip_without_filler (text key1 key2 : list Z)
        (Hkey1 : key1 <> []) (Hkey2 : key2 <> [])
        (Htext : ~ In (ord "X") text) (Hlen : len text mod len key1 = 0) :
  exists c,
    double_transposition_encrypt text key1 key2 = Ok c
    /\ double_transposition_decrypt c key1 key2 = Ok text.
Proof. exact (double_roundtrip_exact text key1 key2 Hkey1 Hkey2 Htext Hlen). Qed.

Lemma double_transposition_roundtrip_without_filler_witness :
  lit "KEY" <> [] /\ lit "LOCK" <> [] /\ ~ In (ord "X") (lit "ATTACK")
  /\ len (lit "ATTACK") mod len (lit "KEY") = 0
  /\ exists c,
      double_transposition_encrypt (lit "ATTACK") (lit "KEY") (lit "LOCK") = Ok c
      /\ double_transposition_decrypt c (lit "KEY") (lit "LOCK") = Ok (lit "ATTACK").
Proof.
  assert (H1 : lit "KEY" <> []) by discriminate.
  assert (H2 : lit "LOCK" <> []) by discriminate.
  assert (H3 : ~ In (ord "X") (lit "ATTACK")) by (apply no_X_forallb; reflexivity).
  assert (H4 : len (lit "ATTACK") mod len (lit "KEY") = 0) by reflexivity.
  split; [exact H1|]. split; [exact H2|]. split; [exact H3|]. split; [exact H4|].
  apply (double_transposition_roundtrip_without_filler
           (lit "ATTACK") (lit "KEY") (lit "LOCK") H1 H2 H3 H4).
Defined.

(** X11: when no character occurs twice in the key, Myszkowski encryption
    is Columnar encryption: every letter group is a single column, and the
    groups are read in the Columnar order. *)
Theorem myszkowski_is_columnar_without_repeats (text key : list Z)
        (Hkey : NoDup key) :
  myszkowski_encrypt text key = columnar_transposition_encrypt text key.
Proof. exact (myszkowski_columnar_agree text key Hkey). Qed.

Lemma myszkowski_is_columnar_without_repeats_witness :
  NoDup (lit "ZEBRA")
  /\ myszkowski_encrypt (lit "WEAREDISCOVERED") (lit "ZEBRA")
     = columnar_transposition_encrypt (lit "WEAREDISCOVERED") (lit "ZEBRA").
Proof.
  assert (H : NoDup (lit "ZEBRA")) by (apply NoDup_distinct; reflexivity).
  split; [exact H|].
  apply (myszkowski_is_columnar_without_repeats (lit "WEAREDISCOVERED") (lit "ZEBRA") H).
Defined.

(** X12: with non-empty keys, Columnar and Double Transposition decryption
    never raise, whatever the ciphertext and whatever its length: every
    index they use is inside the ciphertext and inside the grid. *)
Theorem columnar_decrypt_never_raises (ciphertext key1 key2 : list Z)
        (Hkey1 : key1 <> []) (Hkey2 : key2 <> []) :
  (exists t, columnar_transposition_decrypt ciphertext key1 = Ok t)
  /\ (exists t, double_transposition_decrypt ciphertext key1 key2 = Ok t).
Proof. exact (double_decrypt_total ciphertext key1 key2 Hkey1 Hkey2). Qed.

Lemma columnar_decrypt_never_raises_witness :
  lit "KEY" <> [] /\ lit "LOCK" <> []
  /\ (exists t, columnar_transposition_decrypt (lit "ANYTHING") (lit "KEY") = Ok t)
  /\ (exists t, double_transposition_decrypt (lit "ANYTHING") (lit "KEY") (lit "LOCK")
                = Ok t).
Proof.
  assert (H1 : lit "KEY" <> []) by discriminate.
  assert (H2 : lit "LOCK" <> []) by discriminate.
  split; [exact H1|]. split; [exact H2|].
  apply (columnar_decrypt_never_raises (lit "ANYTHING") (lit "KEY") (lit "LOCK") H1 H2).
Defined.

(** X13: an empty key makes the grid ciphers divide by zero: Columnar and
    Myszkowski encryption and decryption raise [ZeroDivisionError], and so
    does Double Transposition as soon as one of its two keys is empty. *)
Theorem empty_key_raises_zero_division (text key1 key2 : list Z)
        (Hkey : key1 = [] \/ key2 = []) :
  columnar_transposition_encrypt text [] = Raise ZeroDivisionError
  /\ columnar_transposition_decrypt text [] = Raise ZeroDivisionError
  /\ myszkowski_encrypt text [] = Raise ZeroDivisionError
  /\ myszkowski_decrypt text [] = Raise ZeroDivisionError
  /\ double_transposition_encrypt text key1 key2 = Raise ZeroDivisionError
  /\ double_transposition_decrypt text key1 key2 = Raise ZeroDivisionError.
Proof. exact (empty_key_zero_division text key1 key2 Hkey). Qed.

Lemma empty_key_raises_zero_division_witness :
  (lit "KEY" = [] \/ @nil Z = [])
  /\ columnar_transposition_encrypt (lit "HELLO") [] = Raise ZeroDivisionError
  /\ columnar_transposition_decrypt (lit "HELLO") [] = Raise ZeroDivisionError
  /\ myszkowski_encrypt (lit "HELLO") [] = Raise ZeroDivisionError
  /\ myszkowski_decrypt (lit "HELLO") [] = Raise ZeroDivisionError
  /\ double_transposition_encrypt (lit "HELLO") (lit "KEY") [] = Raise ZeroDivisionError
  /\ double_transposition_decrypt (lit "HELLO") (lit "KEY") [] = Raise ZeroDivisionError.
Proof.
  assert (H : lit "KEY" = [] \/ @nil Z = []) by (right; reflexivity).
  split; [exact H|].
  apply (empty_key_raises_zero_division (lit "HELLO") (lit "KEY") [] H).
Defined.

(** X14: a Route grid with no rows or no columns ([rows <= 0] or
    [cols <= 0]) is never walked: encryption and decryption return the empty
    string for every text. *)
Theorem route_degenerate_grid (text : list Z) (rows cols : Z)
        (Hgrid : rows <= 0 \/ cols <= 0) :
  route_cipher_encrypt text rows cols = Ok []
  /\ route_cipher_decrypt text rows cols = Ok [].
Proof. exact (route_degenerate text rows cols Hgrid). Qed.

Lemma route_degenerate_grid_witness :
  (3 <= 0 \/ 0 <= 0)
  /\ route_cipher_encrypt (lit "HELLO") 3 0 = Ok []
  /\ route_cipher_decrypt (lit "HELLO") 3 0 = Ok [].
Proof.
  assert (H : 3 <= 0 \/ 0 <= 0) by (right; lia).
  split; [exact H|].
  apply (route_degenerate_grid (lit "HELLO") 3 0 H).
Defined.

(** X15: Route encryption reads only the first [rows * cols] characters:
    what follows them in a longer plaintext is dropped without notice. *)
Theorem route_encrypt_drops_overflow (text extra : list Z) (rows cols : Z)
        (Hrows : 1 <= rows) (Hcols : 1 <= cols) (Hlen : len text = rows * cols) :
  route_cipher_encrypt (text ++ extra) rows cols = route_cipher_encrypt text rows cols.
Proof. exact (route_long_text text extra rows cols Hrows Hcols Hlen). Qed.

Lemma route_encrypt_drops_overflow_witness :
  1 <= 2 /\ 1 <= 3 /\ len (lit "ABCDEF") = 2 * 3
  /\ route_cipher_encrypt (lit "ABCDEF" ++ lit "GHI") 2 3
     = route_cipher_encrypt (lit "ABCDEF") 2 3.
Proof.
  split; [lia|]. split; [lia|]. split; [reflexivity|].
  apply (route_encrypt_drops_overflow (lit "ABCDEF") (lit "GHI") 2 3);
    [lia | lia | reflexivity].
Defined.

(** X16: Route decryption of a ciphertext shorter than the grid
    ([len(ciphertext) < rows * cols], with at least one row and one column)
    raises [IndexError]. *)
Theorem route_decrypt_short_ciphertext_raises (ciphertext : list Z) (rows cols : Z)
        (Hrows : 1 <= rows) (Hcols : 1 <= cols)
        (Hlen : len ciphertext < rows * cols) :
  route_cipher_decrypt ciphertext rows cols = Raise IndexError.
Proof. exact (route_decrypt_short ciphertext rows cols Hrows Hcols Hlen). Qed.

Lemma route_decrypt_short_ciphertext_raises_witness :
  1 <= 2 /\ 1 <= 3 /\ len (lit "ABCDE") < 2 * 3
  /\ route_cipher_decrypt (lit "ABCDE") 2 3 = Raise IndexError.
Proof.
  split; [lia|]. split; [lia|]. split; [reflexivity|].
  apply (route_decrypt_short_ciphertext_raises (lit "ABCDE") 2 3);
    [lia | lia | reflexivity].
Defined.

(** X17: on ASCII text two Additive passes are one pass with the sum of the
    keys; a key counts modulo 26 only, and the key [0] just uppercases. *)
Theorem additive_shifts_add_up (text : list Z) (k1 k2 j : Z)
        (Htext : is_ascii text) :
  additive_encrypt (additive_encrypt text k1) k2 = additive_encrypt text (k1 + k2)
  /\ additive_encrypt text (k1 + 26 * j) = additive_encrypt text k1
  /\ additive_encrypt text 0 = upper text.
Proof.
  split; [now apply additive_compose|].
  split; [apply additive_period | apply additive_zero].
Qed.

Lemma additive_shifts_add_up_witness :
  is_ascii (lit "Hello, World")
  /\ additive_encrypt (additive_encrypt (lit "Hello, World") 3) 30
     = additive_encrypt (lit "Hello, World") (3 + 30)
  /\ additive_encrypt (lit "Hello, World") (3 + 26 * 2)
     = additive_encrypt (lit "Hello, World") 3
  /\ additive_encrypt (lit "Hello, World") 0 = upper (lit "Hello, World").
Proof.
  assert (H : is_ascii (lit "Hello, World")) by (apply is_ascii_forallb; reflexivity).
  split; [exact H|].
  apply (additive_shifts_add_up (lit "Hello, World") 3 30 2 H).
Defined.

(** X18: on ASCII text and with [a] coprime to 26, the Affine cipher is the
    Multiplicative cipher followed by the Additive cipher, and Affine
    decryption is Additive decryption followed by Multiplicative
    decryption. *)
Theorem affine_is_multiplicative_then_additive (text : list Z) (a b : Z)
        (Htext : is_ascii text) (Ha : Z.gcd a 26 = 1) :
  affine_encrypt text a b
  = ([], additive_encrypt (snd (multiplicative_encrypt text a)) b)
  /\ affine_decrypt text a b = multiplicative_decrypt (additive_decrypt text b) a.
Proof. exact (affine_split text a b Htext Ha). Qed.

Lemma affine_is_multiplicative_then_additive_witness :
  is_ascii (lit "Hello, World") /\ Z.gcd 5 26 = 1
  /\ affine_encrypt (lit "Hello, World") 5 8
     = ([], additive_encrypt (snd (multiplicative_encrypt (lit "Hello, World") 5)) 8)
  /\ affine_decrypt (lit "Hello, World") 5 8
     = multiplicative_decrypt (additive_decrypt (lit "Hello, World") 8) 5.
Proof.
  assert (H : is_ascii (lit "Hello, World")) by (apply is_ascii_forallb; reflexivity).
  split; [exact H|]. split; [reflexivity|].
  apply (affine_is_multiplicative_then_additive (lit "Hello, World") 5 8 H).
  reflexivity.
Defined.

(** X19: on ASCII text the Additive, Multiplicative and Affine ciphers (the
    last two with a key coprime to 26) keep the length and the place of
    every character: a letter becomes an uppercase letter [A]-[Z], every
    other character is copied unchanged. *)
Theorem substitution_keeps_non_letters (text : list Z) (key mkey a b : Z)
        (Htext : is_ascii text)
        (Hmkey : Z.gcd mkey 26 = 1) (Ha : Z.gcd a 26 = 1) :
  keeps_shape text (additive_encrypt text key)
  /\ keeps_shape text (snd (multiplicative_encrypt text mkey))
  /\ keeps_shape text (snd (affine_encrypt text a b)).
Proof. exact (substitution_shapes text key mkey a b Htext Hmkey Ha). Qed.

Lemma substitution_keeps_non_letters_witness :
  is_ascii (lit "Hello, World") /\ Z.gcd 7 26 = 1 /\ Z.gcd 5 26 = 1
  /\ keeps_shape (lit "Hello, World") (additive_encrypt (lit "Hello, World") 3)
  /\ keeps_shape (lit "Hello, World")
                 (snd (multiplicative_encrypt (lit "Hello, World") 7))
  /\ keeps_shape (lit "Hello, World") (snd (affine_encrypt (lit "Hello, World") 5 8)).
Proof.
  assert (H : is_ascii (lit "Hello, World")) by (apply is_ascii_forallb; reflexivity).
  split; [exact H|]. split; [reflexivity|]. split; [reflexivity|].
  apply (substitution_keeps_non_letters (lit "Hello, World") 3 7 5 8 H); reflexivity.
Defined.

(** X20: the second error branch of [multiplicative_decrypt] and
    [affine_decrypt] is dead code: after the [gcd] test has passed,
    [mod_inv] always finds an inverse, so the message about a missing
    modular inverse is never printed, and neither function ever raises. *)
Theorem no_modular_inverse_message_is_never_printed (text : list Z) (key a b : Z) :
  fst (multiplicative_decrypt text key)
  <> ["Error: No modular inverse for this key!"%string]
  /\ (exists s, snd (multiplicative_decrypt text key) = Ok s)
  /\ fst (affine_decrypt text a b)
     <> ["Error: No modular inverse found for 'a'."%string]
  /\ (exists s, snd (affine_decrypt text a b) = Ok s).
Proof.
  destruct (multiplicative_decrypt_log text key) as [H1 H2].
  destruct (affine_decrypt_log text a b) as [H3 H4]. auto.
Qed.

(** X21: on ASCII text and with a 2x2 integer key matrix, [hill_encrypt]
    never raises; its result consists of uppercase letters [A]-[Z] only and
    has the number of letters of the text, plus one if that number is
    odd. *)
Theorem hill_encrypt_output_shape (text : list Z) (k00 k01 k10 k11 : Z)
        (Htext : is_ascii text) :
  exists c,
    hill_encrypt text [[k00; k01]; [k10; k11]] = Ok c
    /\ Forall (fun ch => ord "A" <= ch <= ord "Z") c
    /\ len c = len (filter isalpha (upper text))
               + len (filter isalpha (upper text)) mod 2.
Proof. exact (hill_encrypt_shape text k00 k01 k10 k11 Htext). Qed.

Lemma hill_encrypt_output_shape_witness :
  is_ascii (lit "Hello, World")
  /\ exists c,
      hill_encrypt (lit "Hello, World") [[3; 3]; [2; 5]] = Ok c
      /\ Forall (fun ch => ord "A" <= ch <= ord "Z") c
      /\ len c = len (filter isalpha (upper (lit "Hello, World")))
                 + len (filter isalpha (upper (lit "Hello, World"))) mod 2.
Proof.
  assert (H : is_ascii (lit "Hello, World")) by (apply is_ascii_forallb; reflexivity).
  split; [exact H|].
  apply (hill_encrypt_output_shape (lit "Hello, World") 3 3 2 5 H).
Defined.

(** X22: [hill_decrypt] does not pad: with an invertible key matrix, an
    ASCII ciphertext with an odd number of letters raises [IndexError] at its
    last, one-letter pair. *)
Theorem hill_decrypt_odd_length_raises (ciphertext : list Z) (k00 k01 k10 k11 : Z)
        (Hcipher : is_ascii ciphertext)
        (Hdet : Z.gcd (k00 * k11 - k01 * k10) 26 = 1)
        (Hodd : Z.odd (len (filter isalpha (upper ciphertext))) = true) :
  hill_decrypt ciphertext [[k00; k01]; [k10; k11]] = ([], Raise IndexError).
Proof. exact (hill_decrypt_odd ciphertext k00 k01 k10 k11 Hdet Hodd). Qed.

Lemma hill_decrypt_odd_length_raises_witness :
  is_ascii (lit "ABC")
  /\ Z.gcd (3 * 5 - 3 * 2) 26 = 1
  /\ Z.odd (len (filter isalpha (upper (lit "ABC")))) = true
  /\ hill_decrypt (lit "ABC") [[3; 3]; [2; 5]] = ([], Raise IndexError).
Proof.
  assert (H : is_ascii (lit "ABC")) by (apply is_ascii_forallb; reflexivity).
  split; [exact H|]. split; [reflexivity|]. split; [reflexivity|].
  apply (hill_decrypt_odd_length_raises (lit "ABC") 3 3 2 5 H); reflexivity.
Defined.

(** X23: on ASCII text, encrypting a Hill ciphertext again with a second
    matrix is encrypting the text once with the product of the two
    matrices. *)
Theorem hill_encrypt_twice_is_matrix_product
        (text : list Z) (m00 m01 m10 m11 k00 k01 k10 k11 : Z)
        (Htext : is_ascii text) :
  exists c,
    hill_encrypt text [[k00; k01]; [k10; k11]] = Ok c
    /\ hill_encrypt c [[m00; m01]; [m10; m11]]
       = hill_encrypt text [[m00 * k00 + m01 * k10; m00 * k01 + m01 * k11];
                            [m10 * k00 + m11 * k10; m10 * k01 + m11 * k11]].
Proof. exact (hill_compose text m00 m01 m10 m11 k00 k01 k10 k11 Htext). Qed.

Lemma hill_encrypt_twice_is_matrix_product_witness :
  is_ascii (lit "Hello, World")
  /\ exists c,
      hill_encrypt (lit "Hello, World") [[3; 3]; [2; 5]] = Ok c
      /\ hill_encrypt c [[1; 2]; [3; 5]]
         = hill_encrypt (lit "Hello, World")
                        [[1 * 3 + 2 * 2; 1 * 3 + 2 * 5]; [3 * 3 + 5 * 2; 3 * 3 + 5 * 5]].
Proof.
  assert (H : is_ascii (lit "Hello, World")) by (apply is_ascii_forallb; reflexivity).
  split; [exact H|].
  apply (hill_encrypt_twice_is_matrix_product (lit "Hello, World") 1 2 3 5 3 3 2 5 H).
Defined.



(** X25: for an ASCII key, [generate_key_table] returns 5 rows of 5
    characters holding each of the 25 letters [a]-[z] without [j] exactly
    once, and [find_position] inverts the table: it returns the position of
    every table entry, the position of the folded letter for every ASCII
    letter, and [None] for every other ASCII character. *)
Theorem playfair_key_table_and_positions (key : list Z) (Hkey : is_ascii key) :
  wf 5 5 (generate_key_table key)
  /\ NoDup (concat (generate_key_table key))
  /\ (forall c, In c (concat (generate_key_table key)) <-> playfair_letter c)
  /\ (forall r c, 0 <= r < 5 -> 0 <= c < 5 ->
        exists x, mget (generate_key_table key) r c = Ok x
                  /\ find_position x (generate_key_table key) = Some (r, c))
  /\ (forall c, 0 <= c < 128 ->
        if isalpha c
        then exists r col,
            find_position c (generate_key_table key) = Some (r, col)
            /\ mget (generate_key_table key) r col = Ok (fold_j c)
        else find_position c (generate_key_table key) = None).
Proof. exact (playfair_table_facts key Hkey). Qed.

Lemma playfair_key_table_and_positions_witness :
  is_ascii (lit "MONARCHY")
  /\ wf 5 5 (generate_key_table (lit "MONARCHY"))
  /\ NoDup (concat (generate_key_table (lit "MONARCHY")))
  /\ (forall c, In c (concat (generate_key_table (lit "MONARCHY")))
                <-> playfair_letter c)
  /\ (forall r c, 0 <= r < 5 -> 0 <= c < 5 ->
        exists x, mget (generate_key_table (lit "MONARCHY")) r c = Ok x
                  /\ find_position x (generate_key_table (lit "MONARCHY")) = Some (r, c))
  /\ (forall c, 0 <= c < 128 ->
        if isalpha c
        then exists r col,
            find_position c (generate_key_table (lit "MONARCHY")) = Some (r, col)
            /\ mget (generate_key_table (lit "MONARCHY")) r col = Ok (fold_j c)
        else find_position c (generate_key_table (lit "MONARCHY")) = None).
Proof.
  assert (H : is_ascii (lit "MONARCHY")) by (apply is_ascii_forallb; reflexivity).
  split; [exact H|].
  apply (playfair_key_table_and_positions (lit "MONARCHY") H).
Defined.

(** X26: on ASCII plaintext and key, Playfair decryption of the ciphertext
    returns the uppercased letters of the digraphs that encryption formed:
    the letters of the plaintext with [j] read as [i], an [x] after the
    first of two equal letters of a pair and after a last single letter. *)
Theorem playfair_roundtrip_up_to_separators (plaintext key : list Z)
        (Hplain : is_ascii plaintext) (Hkey : is_ascii key) :
  exists c,
    playfair_encrypt plaintext key = Ok c
    /\ playfair_decrypt c key
       = Ok (upper (concat (split_digraphs
                              (filter isalpha
                                      (replace (lower plaintext) (ord "j") (ord "i")))))).
Proof. exact (playfair_roundtrip plaintext key Hplain Hkey). Qed.

Lemma playfair_roundtrip_up_to_separators_witness :
  is_ascii (lit "Jazz ball") /\ is_ascii (lit "MONARCHY")
  /\ upper (concat (split_digraphs
                      (filter isalpha
                              (replace (lower (lit "Jazz ball")) (ord "j") (ord "i")))))
     = lit "IAZXZBALLX"
  /\ exists c,
      playfair_encrypt (lit "Jazz ball") (lit "MONARCHY") = Ok c
      /\ playfair_decrypt c (lit "MONARCHY")
         = Ok (upper (concat (split_digraphs
                                (filter isalpha
                                        (replace (lower (lit "Jazz ball"))
                                                 (ord "j") (ord "i")))))).
Proof.
  assert (H1 : is_ascii (lit "Jazz ball")) by (apply is_ascii_forallb; reflexivity).
  assert (H2 : is_ascii (lit "MONARCHY")) by (apply is_ascii_forallb; reflexivity).
  split; [exact H1|]. split; [exact H2|]. split; [reflexivity|].
  apply (playfair_roundtrip_up_to_separators (lit "Jazz ball") (lit "MONARCHY") H1 H2).
Defined.

(** X27: [playfair_decrypt] does not pad: on an ASCII ciphertext with an odd
    number of letters (and an ASCII key) it raises [IndexError] at the last,
    one-letter digraph. *)
Theorem playfair_decrypt_odd_letters_raises (ciphertext key : list Z)
        (Hcipher : is_ascii ciphertext) (Hkey : is_ascii key)
        (Hodd : Z.odd (len (filter isalpha ciphertext)) = true) :
  playfair_decrypt ciphertext key = Raise IndexError.
Proof. exact (playfair_decrypt_odd ciphertext key Hcipher Hkey Hodd). Qed.

Lemma playfair_decrypt_odd_letters_raises_witness :
  is_ascii (lit "CFSUP") /\ is_ascii (lit "MONARCHY")
  /\ Z.odd (len (filter isalpha (lit "CFSUP"))) = true
  /\ playfair_decrypt (lit "CFSUP") (lit "MONARCHY") = Raise IndexError.
Proof.
  assert (H1 : is_ascii (lit "CFSUP")) by (apply is_ascii_forallb; reflexivity).
  assert (H2 : is_ascii (lit "MONARCHY")) by (apply is_ascii_forallb; reflexivity).
  split; [exact H1|]. split; [exact H2|]. split; [reflexivity|].
  apply (playfair_decrypt_odd_letters_raises (lit "CFSUP") (lit "MONARCHY") H1 H2).
  reflexivity.
Defined.

(** X28: on an ASCII ciphertext with an even number of letters (and an ASCII
    key) [playfair_decrypt] never raises; its result has as many characters
    as the ciphertext has letters, all of them uppercase letters other than
    [J]. *)
Theorem playfair_decrypt_shape (ciphertext key : list Z)
        (Hcipher : is_ascii ciphertext) (Hkey : is_ascii key)
        (Heven : Z.even (len (filter isalpha ciphertext)) = true) :
  exists p,
    playfair_decrypt ciphertext key = Ok p
    /\ len p = len (filter isalpha ciphertext)
    /\ Forall (fun ch => ord "A" <= ch <= ord "Z" /\ ch <> ord "J") p.
Proof. exact (playfair_decrypt_even ciphertext key Hcipher Hkey Heven). Qed.

Lemma playfair_decrypt_shape_witness :
  is_ascii (lit "cf su-pm") /\ is_ascii (lit "MONARCHY")
  /\ Z.even (len (filter isalpha (lit "cf su-pm"))) = true
  /\ exists p,
      playfair_decrypt (lit "cf su-pm") (lit "MONARCHY") = Ok p
      /\ len p = len (filter isalpha (lit "cf su-pm"))
      /\ Forall (fun ch => ord "A" <= ch <= ord "Z" /\ ch <> ord "J") p.
Proof.
  assert (H1 : is_ascii (lit "cf su-pm")) by (apply is_ascii_forallb; reflexivity).
  assert (H2 : is_ascii (lit "MONARCHY")) by (apply is_ascii_forallb; reflexivity).
  split; [exact H1|]. split; [exact H2|]. split; [reflexivity|].
  apply (playfair_decrypt_shape (lit "cf su-pm") (lit "MONARCHY") H1 H2).
  reflexivity.
Defined.

(** X29: when the text fits the grid ([len(text) <= rows * cols], at least
    one row and one column), the Route ciphertext has exactly [rows * cols]
    characters and is a permutation of the text padded with ['X']: the spiral
    visits every cell of the grid exactly once. *)
Theorem route_ciphertext_is_padded_text_rearranged (text : list Z) (rows cols : Z)
        (Hrows : 1 <= rows) (Hcols : 1 <= cols) (Hlen : len text <= rows * cols) :
  exists c,
    route_cipher_encrypt text rows cols = Ok c
    /\ len c = rows * cols
    /\ Permutation (ljust text (rows * cols) (ord "X")) c.
Proof. exact (route_encrypt_shape text rows cols Hrows Hcols Hlen). Qed.

Lemma route_ciphertext_is_padded_text_rearranged_witness :
  1 <= 3 /\ 1 <= 4 /\ len (lit "HELLOWORLD") <= 3 * 4
  /\ exists c,
      route_cipher_encrypt (lit "HELLOWORLD") 3 4 = Ok c
      /\ len c = 3 * 4
      /\ Permutation (ljust (lit "HELLOWORLD") (3 * 4) (ord "X")) c.
Proof.
  assert (H : len (lit "HELLOWORLD") <= 3 * 4) by (vm_compute; discriminate).
  split; [lia|]. split; [lia|]. split; [exact H|].
  apply (route_ciphertext_is_padded_text_rearranged (lit "HELLOWORLD") 3 4);
    [lia | lia | exact H].
Defined.

(** X30: on a ciphertext of exactly [rows * cols] characters (at least one
    row and one column) [route_cipher_decrypt] never raises, returns
    [rows * cols] characters, and [route_cipher_encrypt] of its result gives
    the ciphertext back: with the round trip of C4, Route with a fixed grid
    is a bijection on the strings that fill the grid. *)
Theorem route_decrypt_then_encrypt (ciphertext : list Z) (rows cols : Z)
        (Hrows : 1 <= rows) (Hcols : 1 <= cols)
        (Hlen : len ciphertext = rows * cols) :
  exists t,
    route_cipher_decrypt ciphertext rows cols = Ok t
    /\ len t = rows * cols
    /\ route_cipher_encrypt t rows cols = Ok ciphertext.
Proof. exact (route_decrypt_onto ciphertext rows cols Hrows Hcols Hlen). Qed.

Lemma route_decrypt_then_encrypt_witness :
  1 <= 2 /\ 1 <= 3 /\ len (lit "ABCDEF") = 2 * 3
  /\ exists t,
      route_cipher_decrypt (lit "ABCDEF") 2 3 = Ok t
      /\ len t = 2 * 3
      /\ route_cipher_encrypt t 2 3 = Ok (lit "ABCDEF").
Proof.
  split; [lia|]. split; [lia|]. split; [reflexivity|].
  apply (route_decrypt_then_encrypt (lit "ABCDEF") 2 3); [lia | lia | reflexivity].
Defined.
